(** * RAMCloud: the Homa transport's data model and the membership list

    A shallow embedding of [src/HomaTransport.h] (identifiers, wire headers,
    the outgoing-message record and its constructor) and of
    [src/ServerList.cc] (the server list kept consistent with the
    coordinator), together with the accumulator and scheduler operations
    and the handling of GRANT packets, which the header only declares.

    Unsigned machine integers ([uint8_t], [uint32_t], [uint64_t]) are
    values of [N].  Comparisons on them are the numeric comparisons of [N];
    where the code adds one to an index or a version the wrap-around is
    written out.  The operations that the header declares and another
    source file defines are modelled from the specification; its formulas
    are read as it writes them, over the natural numbers. *)

From Stdlib Require Import NArith Lia Bool List String Sorted.
From stdpp Require Import base option list gmap.

Local Open Scope N_scope.

(** The contents of a [Buffer]: the bytes appended to it so far. *)
Abbreviation Buffer := (list Byte.byte).

(** [Buffer::size()]. *)
Definition buffer_size (b : Buffer) : N := N.of_nat (length b).

(** A [Driver::Address*], and a pointer to an RPC or a notifier. *)
Definition Address : Type := N.
Definition Handle : Type := N.

(** ** Identifiers and wire formats ([HomaTransport.h]) *)

Module Wire.

(** [struct RpcId]: the client that issued the RPC and its sequence number. *)
Record RpcId : Type := mkRpcId {
  clientId : N;
  sequence : N
}.

(** [RpcId::operator<]. *)
Definition RpcId_lt (self other : RpcId) : bool :=
  (clientId self <? clientId other)
  || ((clientId self =? clientId other)
      && (sequence self <? sequence other)).

(** [RpcId::operator==]. *)
Definition RpcId_eq (self other : RpcId) : bool :=
  (clientId self =? clientId other)
  && (sequence self =? sequence other).

(** [enum PacketOpcode]. *)
Inductive PacketOpcode : Type :=
| ALL_DATA
| DATA
| GRANT
| LOG_TIME_TRACE
| RESEND
| BUSY
| ABORT
| BOGUS.

Definition opcodeValue (op : PacketOpcode) : N :=
  match op with
  | ALL_DATA => 20
  | DATA => 21
  | GRANT => 22
  | LOG_TIME_TRACE => 23
  | RESEND => 24
  | BUSY => 25
  | ABORT => 26
  | BOGUS => 27
  end.

(** Bit values for [CommonHeader::flags]. *)
Definition FROM_CLIENT : N := 1.
Definition FROM_SERVER : N := 0.
Definition RETRANSMISSION : N := 2.
Definition RESTART : N := 4.

(** [struct CommonHeader]; the constructor stores the opcode as a byte. *)
Record CommonHeader : Type := mkCommonHeader {
  opcode : N;
  rpcId : RpcId;
  flags : N
}.

Definition CommonHeader_new (op : PacketOpcode) (id : RpcId) (fl : N)
  : CommonHeader :=
  {| opcode := opcodeValue op; rpcId := id; flags := fl |}.

(** A packet is marked as travelling from client to server when the
    [FROM_CLIENT] bit of its flags is non-zero, from server to client when
    it is zero. *)
Definition fromClient (h : CommonHeader) : bool :=
  negb (N.land (flags h) FROM_CLIENT =? 0).

Definition fromServer (h : CommonHeader) : bool :=
  N.land (flags h) FROM_CLIENT =? 0.

(** [struct AllDataHeader]. *)
Record AllDataHeader : Type := mkAllDataHeader {
  all_common : CommonHeader;
  messageLength : N
}.

Definition AllDataHeader_new (id : RpcId) (fl len : N) : AllDataHeader :=
  {| all_common := CommonHeader_new ALL_DATA id fl; messageLength := len |}.

(** [struct DataHeader]. *)
Record DataHeader : Type := mkDataHeader {
  data_common : CommonHeader;
  data_totalLength : N;
  data_offset : N;
  data_unscheduledBytes : N
}.

Definition DataHeader_new (id : RpcId) (total off unsched fl : N)
  : DataHeader :=
  {| data_common := CommonHeader_new DATA id fl;
     data_totalLength := total;
     data_offset := off;
     data_unscheduledBytes := unsched |}.

(** [struct GrantHeader]. *)
Record GrantHeader : Type := mkGrantHeader {
  grant_common : CommonHeader;
  grant_offset : N;
  grant_priority : N
}.

Definition GrantHeader_new (id : RpcId) (off prio fl : N) : GrantHeader :=
  {| grant_common := CommonHeader_new GRANT id fl;
     grant_offset := off;
     grant_priority := prio |}.

(** [struct ResendHeader]. *)
Record ResendHeader : Type := mkResendHeader {
  resend_common : CommonHeader;
  resend_offset : N;
  resend_length : N;
  resend_priority : N
}.

Definition ResendHeader_new (id : RpcId) (off len prio fl : N)
  : ResendHeader :=
  {| resend_common := CommonHeader_new RESEND id fl;
     resend_offset := off;
     resend_length := len;
     resend_priority := prio |}.

(** [struct LogTimeTraceHeader]. *)
Record LogTimeTraceHeader : Type := mkLogTimeTraceHeader {
  logTimeTrace_common : CommonHeader
}.

Definition LogTimeTraceHeader_new (id : RpcId) (fl : N)
  : LogTimeTraceHeader :=
  {| logTimeTrace_common := CommonHeader_new LOG_TIME_TRACE id fl |}.

(** [struct BusyHeader]. *)
Record BusyHeader : Type := mkBusyHeader {
  busy_common : CommonHeader
}.

Definition BusyHeader_new (id : RpcId) (fl : N) : BusyHeader :=
  {| busy_common := CommonHeader_new BUSY id fl |}.

(** [struct AbortHeader]: the constructor takes the RPC only. *)
Record AbortHeader : Type := mkAbortHeader {
  abort_common : CommonHeader
}.

Definition AbortHeader_new (id : RpcId) : AbortHeader :=
  {| abort_common := CommonHeader_new ABORT id FROM_CLIENT |}.

(** The headers are packed structs: the bytes of a [CommonHeader] are the
    opcode, the two 64-bit halves of the [RpcId] (least significant byte
    first) and the flags, eighteen bytes in all. *)
Fixpoint le_bytes (n : nat) (x : N) : list N :=
  match n with
  | O => []
  | S n' => (x mod 256) :: le_bytes n' (x / 256)
  end.

Definition CommonHeader_bytes (h : CommonHeader) : list N :=
  [opcode h] ++ le_bytes 8 (clientId (rpcId h))
             ++ le_bytes 8 (sequence (rpcId h)) ++ [flags h].

Definition AbortHeader_bytes (h : AbortHeader) : list N :=
  CommonHeader_bytes (abort_common h).

End Wire.

(** ** Reassembly of incoming messages ([MessageAccumulator]) *)

Module Accumulator.
Import Wire.

(** [struct MessageFragment]: a stolen DATA packet, that is its header and
    the [length] bytes of message data that follow it. *)
Record MessageFragment : Type := mkMessageFragment {
  frag_header : DataHeader;
  frag_payload : Buffer
}.

Definition frag_length (f : MessageFragment) : N :=
  buffer_size (frag_payload f).

(** [class MessageAccumulator]: [buffer] is the message assembled so far,
    [fragments] (a [HashMap<uint32_t, MessageFragment>]) the packets that
    arrived ahead of it, keyed by their offset in the message. *)
Record MessageAccumulator : Type := mkMessageAccumulator {
  buffer : Buffer;
  fragments : gmap N MessageFragment;
  totalLength : N
}.

(** Modelled from the spec: the body of the [MessageAccumulator]
    constructor is not part of the header.  An accumulator is created when
    the first packet of a multi-packet message arrives and starts with
    nothing assembled and nothing set aside. *)
Definition MessageAccumulator_new (total : N) : MessageAccumulator :=
  {| buffer := []; fragments := ∅; totalLength := total |}.

(** What happens to the driver's packet buffer after [addPacket]: it is
    handed back to the driver (a duplicate is released or dropped), or the
    transport keeps it (its bytes joined [buffer], or it was stored in
    [fragments]). *)
Inductive Disposition : Type :=
| Released
| Retained.

Record AddResult : Type := mkAddResult {
  acc : MessageAccumulator;
  advanced : bool;
  disposition : Disposition
}.

(** Modelled from the spec: the loop of [addPacket], whose body is not
    part of the header: "while fragments contains key == buffer.size(),
    pop and append".  Every round removes one entry of the map, so the
    number of entries bounds the number of rounds. *)
Fixpoint coalesce (rounds : nat) (b : Buffer)
    (fr : gmap N MessageFragment) : Buffer * gmap N MessageFragment :=
  match rounds with
  | O => (b, fr)
  | S rounds' =>
      match fr !! buffer_size b with
      | Some f =>
          coalesce rounds' (b ++ frag_payload f) (delete (buffer_size b) fr)
      | None => (b, fr)
      end
  end.

(** Modelled from the spec: [MessageAccumulator::addPacket] is declared in
    the header and defined elsewhere.  With [off] the header's offset:
    below [buffer.size()] the packet is a duplicate and is released; at
    [buffer.size()] its payload is appended and the fragments that now
    continue the buffer are popped and appended; above it the packet is
    dropped when its offset is already a key of [fragments] and stored
    there otherwise.  The result is true iff [buffer.size()] advanced. *)
Definition addPacket (a : MessageAccumulator) (header : DataHeader)
    (payload : Buffer) : AddResult :=
  let off := data_offset header in
  if off <? buffer_size (buffer a) then
    {| acc := a; advanced := false; disposition := Released |}
  else if off =? buffer_size (buffer a) then
    let '(b, fr) :=
      coalesce (size (fragments a)) (buffer a ++ payload) (fragments a) in
    {| acc := {| buffer := b; fragments := fr;
                 totalLength := totalLength a |};
       advanced := buffer_size (buffer a) <? buffer_size b;
       disposition := Retained |}
  else
    match fragments a !! off with
    | Some _ => {| acc := a; advanced := false; disposition := Released |}
    | None =>
        {| acc := {| buffer := buffer a;
                     fragments :=
                       <[off := {| frag_header := header;
                                   frag_payload := payload |}]>
                         (fragments a);
                     totalLength := totalLength a |};
           advanced := false;
           disposition := Retained |}
    end.

(** The accumulator after a sequence of DATA packets, in arrival order. *)
Definition deliver (a : MessageAccumulator)
    (pkts : list (DataHeader * Buffer)) : MessageAccumulator :=
  fold_left (fun a' p => acc (addPacket a' (fst p) (snd p))) pkts a.

(** A packet is a repetition for an accumulator when its offset lies below
    [buffer.size()] or is already a key of [fragments]. *)
Definition is_duplicate (a : MessageAccumulator) (header : DataHeader)
  : Prop :=
  data_offset header < buffer_size (buffer a)
  \/ is_Some (fragments a !! data_offset header).

(** The four parts of the accumulator invariant, for the message [msg]
    being received: the buffer is the prefix of the message of its own
    size, no fragment key lies below [buffer.size()], the keys are pairwise
    distinct, and the byte ranges of two stored fragments are disjoint. *)
Definition holds_prefix (msg : Buffer) (a : MessageAccumulator) : Prop :=
  buffer a = take (length (buffer a)) msg.

Definition keys_not_below_buffer (a : MessageAccumulator) : Prop :=
  forall k f, fragments a !! k = Some f -> buffer_size (buffer a) <= k.

Definition keys_unique (a : MessageAccumulator) : Prop :=
  NoDup (map fst (map_to_list (fragments a))).

Definition fragments_disjoint (a : MessageAccumulator) : Prop :=
  forall k1 f1 k2 f2,
    fragments a !! k1 = Some f1 -> fragments a !! k2 = Some f2 ->
    k1 <> k2 ->
    k1 + frag_length f1 <= k2 \/ k2 + frag_length f2 <= k1.

Definition accumulator_invariant (msg : Buffer) (a : MessageAccumulator)
  : Prop :=
  holds_prefix msg a /\ keys_not_below_buffer a
  /\ keys_unique a /\ fragments_disjoint a.

(** The sender cuts a message into packets of [maxDataPerPacket] bytes;
    only the last one may be shorter.  A DATA packet of that cut starts at
    a multiple of the packet size, inside the message, and carries the
    bytes of the message from its offset on. *)
Definition slice (msg : Buffer) (maxData off : N) : Buffer :=
  take (N.to_nat maxData) (drop (N.to_nat off) msg).

Definition packet_of_message (msg : Buffer) (maxData : N)
    (p : DataHeader * Buffer) : Prop :=
  (exists j, data_offset (fst p) = j * maxData)
  /\ data_offset (fst p) < buffer_size msg
  /\ snd p = slice msg maxData (data_offset (fst p)).

(** What every stored fragment satisfies when the packets are of one cut:
    it is a packet of the cut. *)
Definition stored_ok (msg : Buffer) (maxData : N) (k : N)
    (f : MessageFragment) : Prop :=
  (exists j, k = j * maxData)
  /\ k < buffer_size msg
  /\ frag_payload f = slice msg maxData k.

(** The end of the buffer is a packet boundary or the end of the message. *)
Definition at_boundary (msg : Buffer) (maxData : N) (b : Buffer) : Prop :=
  b = take (length b) msg
  /\ ((exists j, buffer_size b = j * maxData)
      \/ buffer_size b = buffer_size msg).

(** The state inside the loop (keys may touch the buffer) and between
    calls (keys lie strictly above it). *)
Definition loop_state (msg : Buffer) (maxData : N) (b : Buffer)
    (fr : gmap N MessageFragment) : Prop :=
  at_boundary msg maxData b
  /\ forall k f,
      fr !! k = Some f -> stored_ok msg maxData k f /\ buffer_size b <= k.

Definition reassembly_state (msg : Buffer) (maxData : N)
    (a : MessageAccumulator) : Prop :=
  at_boundary msg maxData (buffer a)
  /\ forall k f,
      fragments a !! k = Some f ->
      stored_ok msg maxData k f /\ buffer_size (buffer a) < k.

End Accumulator.

(** ** The transport's configuration *)

Module Transport.

(** The members of [class HomaTransport] that the sender and the grant
    engine read: they are set when the transport is constructed. *)
Record HomaTransport : Type := mkHomaTransport {
  maxDataPerPacket : N;
  clientId : N;
  roundTripBytes : N;
  grantIncrement : N;
  maxGrantedMessages : N
}.

End Transport.

(** ** The receiver's grant engine ([ScheduledMessage], the message
    scheduler) *)

Module Scheduler.
Import Wire Transport.

(** [enum ScheduledMessage::State]. *)
Inductive State : Type :=
| NEW
| ACTIVE
| INACTIVE
| FULLY_GRANTED.

(** [class ScheduledMessage].  The two list hooks are the membership in
    [activeMessages] and [inactiveMessages] below; [accumulator] is the
    accumulator of the same RPC, seen through the back pointer. *)
Record ScheduledMessage : Type := mkScheduledMessage {
  accumulator : Accumulator.MessageAccumulator;
  grantOffset : N;
  grantPriority : N;
  rpcId : RpcId;
  senderAddress : Address;
  senderHash : N;
  state : State;
  totalLength : N;
  whoFrom : N
}.

Definition State_eqb (a b : State) : bool :=
  match a, b with
  | NEW, NEW | ACTIVE, ACTIVE | INACTIVE, INACTIVE
  | FULLY_GRANTED, FULLY_GRANTED => true
  | _, _ => false
  end.

Definition set_state (s : State) (m : ScheduledMessage) : ScheduledMessage :=
  {| accumulator := accumulator m; grantOffset := grantOffset m;
     grantPriority := grantPriority m; rpcId := rpcId m;
     senderAddress := senderAddress m; senderHash := senderHash m;
     state := s; totalLength := totalLength m; whoFrom := whoFrom m |}.

Definition set_grantOffset (off : N) (m : ScheduledMessage)
  : ScheduledMessage :=
  {| accumulator := accumulator m; grantOffset := off;
     grantPriority := grantPriority m; rpcId := rpcId m;
     senderAddress := senderAddress m; senderHash := senderHash m;
     state := state m; totalLength := totalLength m; whoFrom := whoFrom m |}.

(** Modelled from the spec: the body of the [ScheduledMessage] constructor
    is not part of the header.  A message is scheduled when its first DATA
    packet shows [totalLength > unscheduledBytes]; it starts in state NEW,
    and [grantOffset] is the number of unscheduled bytes as long as no
    GRANT has been sent (the header's comment on [grantOffset]).  [hash]
    is the hash of the sender's address. *)
Definition ScheduledMessage_new (id : RpcId)
    (a : Accumulator.MessageAccumulator) (unscheduledBytes : N)
    (sender : Address) (hash : N) (total : N) (from : N)
  : ScheduledMessage :=
  {| accumulator := a; grantOffset := unscheduledBytes; grantPriority := 0;
     rpcId := id; senderAddress := sender; senderHash := hash;
     state := NEW; totalLength := total; whoFrom := from |}.

(** Modelled from the spec: "bytesRemaining(m) = totalLength −
    accumulator.buffer.size()". *)
Definition bytesRemaining (m : ScheduledMessage) : N :=
  totalLength m - buffer_size (Accumulator.buffer (accumulator m)).

(** Modelled from the spec: [ScheduledMessage::compareTo] is declared in
    the header only.  It "orders primarily by smaller bytesRemaining,
    breaking ties by (rpcId)"; [Lt] means that [self] comes first. *)
Definition compareTo (self other : ScheduledMessage) : comparison :=
  match bytesRemaining self ?= bytesRemaining other with
  | Eq =>
      if RpcId_lt (rpcId self) (rpcId other) then Lt
      else if RpcId_lt (rpcId other) (rpcId self) then Gt
      else Eq
  | c => c
  end.

Definition better (a b : ScheduledMessage) : bool :=
  match compareTo a b with
  | Lt => true
  | _ => false
  end.

(** Two records describe the same message object when they belong to the
    same RPC and travel in the same direction. *)
Definition sameMessage (a b : ScheduledMessage) : bool :=
  RpcId_eq (rpcId a) (rpcId b) && (whoFrom a =? whoFrom b).

(** The scheduler's two intrusive lists. *)
Record MessageScheduler : Type := mkMessageScheduler {
  activeMessages : list ScheduledMessage;
  inactiveMessages : list ScheduledMessage
}.

Definition emptyScheduler : MessageScheduler :=
  {| activeMessages := []; inactiveMessages := [] |}.

(** Removing a message from a list it may be linked on. *)
Definition unlink (m : ScheduledMessage) (l : list ScheduledMessage)
  : list ScheduledMessage :=
  List.filter (fun x => negb (sameMessage x m)) l.

(** Modelled from the spec: "insert m into activeMessages in sorted
    position", before the first message that [m] is better than. *)
Fixpoint insertSorted (m : ScheduledMessage) (l : list ScheduledMessage)
  : list ScheduledMessage :=
  match l with
  | [] => [m]
  | x :: l' => if better m x then m :: x :: l' else x :: insertSorted m l'
  end.

(** Modelled from the spec: [HomaTransport::replaceActiveMessage] is
    declared in the header only.  [oldMessage] leaves [activeMessages]; a
    message that is not fully granted waits in [inactiveMessages].
    [newMessage], when there is one, leaves [inactiveMessages] and is
    inserted into [activeMessages] in sorted position. *)
Definition replaceActiveMessage (s : MessageScheduler)
    (oldMessage : ScheduledMessage) (newMessage : option ScheduledMessage)
  : MessageScheduler :=
  let active := unlink oldMessage (activeMessages s) in
  let inactive :=
    if grantOffset oldMessage =? totalLength oldMessage
    then inactiveMessages s
    else inactiveMessages s ++ [set_state INACTIVE oldMessage] in
  match newMessage with
  | None => {| activeMessages := active; inactiveMessages := inactive |}
  | Some m =>
      {| activeMessages := insertSorted (set_state ACTIVE m) active;
         inactiveMessages := unlink m inactive |}
  end.

Definition placeInactive (s : MessageScheduler) (m : ScheduledMessage)
  : MessageScheduler :=
  {| activeMessages := activeMessages s;
     inactiveMessages := inactiveMessages s ++ [set_state INACTIVE m] |}.

(** Modelled from the spec: [HomaTransport::tryToSchedule] is declared in
    the header only.  For a message in state NEW: (a) when an active
    message has the same [senderHash], [m] waits if that message is better
    and replaces it otherwise; (b) else [m] becomes active when fewer than
    [maxGrantedMessages] messages are; (c) else [m] is compared with the
    tail of [activeMessages] and takes its place when it is better; (d)
    else [m] waits in [inactiveMessages]. *)
Definition tryToSchedule (t : HomaTransport) (s : MessageScheduler)
    (m : ScheduledMessage) : MessageScheduler :=
  match state m with
  | NEW =>
      match List.find (fun x => senderHash x =? senderHash m)
              (activeMessages s) with
      | Some sibling =>
          if better sibling m then placeInactive s m
          else replaceActiveMessage s sibling (Some m)
      | None =>
          if N.of_nat (length (activeMessages s)) <? maxGrantedMessages t
          then
            {| activeMessages :=
                 insertSorted (set_state ACTIVE m) (activeMessages s);
               inactiveMessages := inactiveMessages s |}
          else
            match last (activeMessages s) with
            | Some tail =>
                if better m tail then
                  {| activeMessages :=
                       insertSorted (set_state ACTIVE m)
                         (List.removelast (activeMessages s));
                     inactiveMessages :=
                       inactiveMessages s ++ [set_state INACTIVE tail] |}
                else placeInactive s m
            | None => placeInactive s m
            end
      end
  | _ => s
  end.

(** Modelled from the spec: the emission of a GRANT for [m], done in the
    source file of the transport.  "newGrantOffset = min(totalLength,
    grantOffset + grantIncrement)"; the GRANT carries that offset, the
    message's grant priority and the direction opposite to the message's;
    [grantOffset] becomes the offset of the GRANT just sent, and the
    message is FULLY_GRANTED when that offset is [totalLength]. *)
Definition emitGrant (t : HomaTransport) (m : ScheduledMessage)
  : ScheduledMessage * GrantHeader :=
  let newGrantOffset :=
    N.min (totalLength m) (grantOffset m + grantIncrement t) in
  let direction :=
    if whoFrom m =? FROM_CLIENT then FROM_SERVER else FROM_CLIENT in
  (set_state
     (if newGrantOffset =? totalLength m then FULLY_GRANTED else state m)
     (set_grantOffset newGrantOffset m),
   GrantHeader_new (rpcId m) newGrantOffset (grantPriority m) direction).

(** The offsets of the next GRANTs sent for [m], at most [n] of them: a
    fully granted message is sent no further GRANT. *)
Fixpoint grantOffsets (t : HomaTransport) (n : nat) (m : ScheduledMessage)
  : list N :=
  match n with
  | O => []
  | S n' =>
      if State_eqb (state m) FULLY_GRANTED then []
      else
        let '(m', g) := emitGrant t m in
        grant_offset g :: grantOffsets t n' m'
  end.

(** Modelled from the spec: the message that takes the place of an active
    message is the "best-of-inactiveMessages with a senderHash not already
    active", the best by [compareTo]. *)
Definition pickBetter (best : option ScheduledMessage) (x : ScheduledMessage)
  : option ScheduledMessage :=
  match best with
  | None => Some x
  | Some b => if better x b then Some x else Some b
  end.

Definition bestInactive (active inactive : list ScheduledMessage)
  : option ScheduledMessage :=
  fold_left pickBetter
    (List.filter
       (fun x =>
          negb (existsb (fun y => senderHash y =? senderHash x) active))
       inactive)
    None.

(** Replacing the record of a message on the list it is linked on. *)
Definition update (m : ScheduledMessage) (l : list ScheduledMessage)
  : list ScheduledMessage :=
  map (fun x => if sameMessage x m then m else x) l.

(** Modelled from the spec: a GRANT for the active message of the given
    RPC and direction.  When the GRANT completes the message it leaves
    [activeMessages] and [replaceActiveMessage] brings in the best inactive
    message of a sender that is not active. *)
Definition grantActive (t : HomaTransport) (s : MessageScheduler)
    (key : ScheduledMessage) : MessageScheduler * option GrantHeader :=
  match List.find (fun x => sameMessage x key) (activeMessages s) with
  | Some m =>
      let '(m', g) := emitGrant t m in
      if State_eqb (state m') FULLY_GRANTED then
        (replaceActiveMessage s m'
           (bestInactive (unlink m (activeMessages s))
              (inactiveMessages s)),
         Some g)
      else
        ({| activeMessages := update m' (activeMessages s);
            inactiveMessages := inactiveMessages s |}, Some g)
  | None => (s, None)
  end.

(** Modelled from the spec: the owning RPC of a scheduled message is
    deleted.  An active message is replaced as above; the message is then
    on neither list. *)
Definition destroyMessage (s : MessageScheduler) (key : ScheduledMessage)
  : MessageScheduler :=
  let s' :=
    match List.find (fun x => sameMessage x key) (activeMessages s) with
    | Some m =>
        replaceActiveMessage s m
          (bestInactive (unlink m (activeMessages s))
             (unlink m (inactiveMessages s)))
    | None => s
    end in
  {| activeMessages := activeMessages s';
     inactiveMessages := unlink key (inactiveMessages s') |}.

(** What the grant engine is asked to do between two quiescent points. *)
Inductive SchedulerEvent : Type :=
| Arrive (m : ScheduledMessage)
| Grant (m : ScheduledMessage)
| Destroy (m : ScheduledMessage).

Definition schedulerStep (t : HomaTransport) (s : MessageScheduler)
    (e : SchedulerEvent) : MessageScheduler :=
  match e with
  | Arrive m => tryToSchedule t s m
  | Grant m => (grantActive t s m).1
  | Destroy m => destroyMessage s m
  end.

Definition runScheduler (t : HomaTransport) (es : list SchedulerEvent)
  : MessageScheduler :=
  fold_left (schedulerStep t) es emptyScheduler.

(** The bound on [activeMessages], and membership in it. *)
Definition within_overcommitment (t : HomaTransport) (s : MessageScheduler)
  : Prop :=
  N.of_nat (length (activeMessages s)) <= maxGrantedMessages t.

Definition linked (m : ScheduledMessage) (l : list ScheduledMessage)
  : bool :=
  existsb (fun x => sameMessage x m) l.

(** While a message is not fully granted its [grantOffset] is below its
    length; this is so when the message is created and stays so. *)
Definition grantable (m : ScheduledMessage) : Prop :=
  state m = FULLY_GRANTED \/ grantOffset m < totalLength m.

End Scheduler.

(** ** Outgoing messages and the RPCs that own them *)

Module Sender.
Import Wire Transport.

(** [class Session]: the transport, the server's address and the
    [aborted] flag. *)
Record Session : Type := mkSession {
  t : HomaTransport;
  serverAddress : Address;
  aborted : bool
}.

(** [class OutgoingMessage].  Exactly one of [clientRpc] and [serverRpc] is
    not NULL.  The list hook is the membership in [topOutgoingMessages],
    which [topChoice] mirrors. *)
Record OutgoingMessage : Type := mkOutgoingMessage {
  buffer : Buffer;
  clientRpc : option Handle;
  serverRpc : option Handle;
  recipient : Address;
  transmitOffset : N;
  transmitPriority : N;
  transmitLimit : N;
  topChoice : bool;
  lastTransmitTime : N;
  unscheduledBytes : N
}.

(** [OutgoingMessage::OutgoingMessage]: [transmitLimit()] in the
    initializer list value-initializes the limit, that is, sets it to
    zero; [unscheduledBytes] is read from the transport. *)
Definition OutgoingMessage_new (clientRpc serverRpc : option Handle)
    (t : HomaTransport) (buffer : Buffer) (recipient : Address)
  : OutgoingMessage :=
  {| buffer := buffer;
     clientRpc := clientRpc;
     serverRpc := serverRpc;
     recipient := recipient;
     transmitOffset := 0;
     transmitPriority := 0;
     transmitLimit := 0;
     topChoice := false;
     lastTransmitTime := 0;
     unscheduledBytes := roundTripBytes t |}.

(** The length of the message is the size of its buffer. *)
Definition totalLength (m : OutgoingMessage) : N := buffer_size (buffer m).

(** [class ClientRpc]. *)
Record ClientRpc : Type := mkClientRpc {
  session : Session;
  request : OutgoingMessage;
  response : Buffer;
  notifier : Handle;
  rpcId : RpcId;
  silentIntervals : N;
  transmitPending : bool;
  accumulator : option Accumulator.MessageAccumulator;
  scheduledMessage : option Scheduler.ScheduledMessage
}.

(** [ClientRpc::ClientRpc]; [this] is the address of the new object. *)
Definition ClientRpc_new (this : Handle) (session : Session) (sequence : N)
    (request response : Buffer) (notifier : Handle) : ClientRpc :=
  {| session := session;
     request :=
       OutgoingMessage_new (Some this) None (t session) request
         (serverAddress session);
     response := response;
     notifier := notifier;
     rpcId := mkRpcId (Transport.clientId (t session)) sequence;
     silentIntervals := 0;
     transmitPending := true;
     accumulator := None;
     scheduledMessage := None |}.

(** [class ServerRpc].  The response's buffer is the [replyPayload] of the
    RPC, which is empty until the request has been served. *)
Record ServerRpc : Type := mkServerRpc {
  srv_t : HomaTransport;
  srv_sequence : N;
  srv_cancelled : bool;
  srv_rpcId : RpcId;
  srv_silentIntervals : N;
  srv_requestComplete : bool;
  srv_sendingResponse : bool;
  srv_accumulator : option Accumulator.MessageAccumulator;
  srv_response : OutgoingMessage;
  srv_scheduledMessage : option Scheduler.ScheduledMessage
}.

(** [ServerRpc::ServerRpc]. *)
Definition ServerRpc_new (this : Handle) (transport : HomaTransport)
    (sequence : N) (clientAddress : Address) (rpcId : RpcId)
    (replyPayload : Buffer) : ServerRpc :=
  {| srv_t := transport;
     srv_sequence := sequence;
     srv_cancelled := false;
     srv_rpcId := rpcId;
     srv_silentIntervals := 0;
     srv_requestComplete := false;
     srv_sendingResponse := false;
     srv_accumulator := None;
     srv_response :=
       OutgoingMessage_new None (Some this) transport replyPayload
         clientAddress;
     srv_scheduledMessage := None |}.

(** Updating the transmit state of a message. *)
Definition set_transmit (off limit prio : N) (m : OutgoingMessage)
  : OutgoingMessage :=
  {| buffer := buffer m;
     clientRpc := clientRpc m;
     serverRpc := serverRpc m;
     recipient := recipient m;
     transmitOffset := off;
     transmitPriority := prio;
     transmitLimit := limit;
     topChoice := topChoice m;
     lastTransmitTime := lastTransmitTime m;
     unscheduledBytes := unscheduledBytes m |}.

(** Modelled from the spec: the handling of a GRANT packet, part of
    [handlePacket], which the header only declares.  A "GRANT with offset
    ≤ current transmitLimit is a no-op"; otherwise the GRANT advances
    [transmitLimit] to its offset and "transmitPriority follows the GRANT's
    priority". *)
Definition handleGrant (m : OutgoingMessage) (g : GrantHeader)
  : OutgoingMessage :=
  if grant_offset g <=? transmitLimit m then m
  else set_transmit (transmitOffset m) (grant_offset g) (grant_priority g) m.

(** The invariant of the transmit state that the header states for
    [transmitLimit]: it "must be always smaller than or equal to the
    message size", and the bytes before [transmitOffset] have been sent. *)
Definition transmit_invariant (m : OutgoingMessage) : Prop :=
  0 <= transmitOffset m
  /\ transmitOffset m <= transmitLimit m
  /\ transmitLimit m <= totalLength m.

End Sender.

(** ** The server list ([ServerList.cc]) *)

Module Membership.

(** A [ServerId] names a slot of the list and a generation of that slot
    ([indexNumber()], [generationNumber()]); its class and the way it packs
    the two numbers into 64 bits are declared outside [ServerList.cc]. *)
Record ServerId : Type := mkServerId {
  indexNumber : N;
  generationNumber : N
}.

Definition ServerId_eqb (a b : ServerId) : bool :=
  (indexNumber a =? indexNumber b)
  && (generationNumber a =? generationNumber b).

Inductive ServerStatus : Type :=
| UP
| CRASHED
| DOWN.

Definition ServerStatus_eqb (a b : ServerStatus) : bool :=
  match a, b with
  | UP, UP | CRASHED, CRASHED | DOWN, DOWN => true
  | _, _ => false
  end.

Inductive ServerChangeEvent : Type :=
| SERVER_ADDED
| SERVER_CRASHED
| SERVER_REMOVED.

(** [ServerDetails]; the two-argument constructor leaves the other fields
    empty. *)
Record ServerDetails : Type := mkServerDetails {
  serverId : ServerId;
  serviceLocator : string;
  services : N;
  expectedReadMBytesPerSec : N;
  status : ServerStatus
}.

Definition ServerDetails_of (id : ServerId) (st : ServerStatus)
  : ServerDetails :=
  {| serverId := id; serviceLocator := EmptyString; services := 0;
     expectedReadMBytesPerSec := 0; status := st |}.

(** A registered [ServerTrackerInterface], seen through the two calls the
    list makes on it: the changes enqueued so far and the number of times
    its callback was fired. *)
Record Tracker : Type := mkTracker {
  changes : list (ServerDetails * ServerChangeEvent);
  callbacksFired : nat
}.

Definition enqueueChange (d : ServerDetails) (e : ServerChangeEvent)
    (tr : Tracker) : Tracker :=
  {| changes := changes tr ++ [(d, e)];
     callbacksFired := callbacksFired tr |}.

Definition fireCallback (tr : Tracker) : Tracker :=
  {| changes := changes tr; callbacksFired := S (callbacksFired tr) |}.

Inductive LogLevel : Type :=
| ERROR
| WARNING
| NOTICE.

(** The list itself: the slots ([std::vector<Tub<ServerDetails>>]), the
    version of the coordinator's list it reflects, the registered trackers,
    and the levels of the messages logged so far.  The methods run one at a
    time under the list's mutex, which is therefore left out. *)
Record ServerList : Type := mkServerList {
  serverList : list (option ServerDetails);
  version : N;
  trackers : list Tracker;
  logged : list LogLevel
}.

(** [ProtoBuf::ServerList] and its entries, as the code reads them. *)
Inductive ServerList_Type : Type :=
| ServerList_Type_FULL_LIST
| ServerList_Type_UPDATE.

Record ProtoBuf_Entry : Type := mkProtoBuf_Entry {
  server_id : ServerId;
  entry_status : ServerStatus;
  service_locator : string;
  entry_services : N;
  expected_read_mbytes_per_sec : N
}.

Record ProtoBuf_ServerList : Type := mkProtoBuf_ServerList {
  version_number : N;
  type : ServerList_Type;
  server : list ProtoBuf_Entry
}.

(** How a call ends other than by returning: [DIE], a failed [assert], an
    access to a slot outside the vector, or nested calls deeper than the
    bound given to [invoke]. *)
Inductive Failure : Type :=
| Died
| AssertionFailed
| OutOfRange
| TooDeep.

Inductive Outcome (A : Type) : Type :=
| Returned (a : A) (s : ServerList)
| Stopped (f : Failure).

Arguments Returned {A} a s.
Arguments Stopped {A} f.

Definition Call (A : Type) : Type := ServerList -> Outcome A.

Definition ret {A : Type} (a : A) : Call A := fun s => Returned a s.

Definition bind {A B : Type} (c : Call A) (k : A -> Call B) : Call B :=
  fun s =>
    match c s with
    | Returned a s' => k a s'
    | Stopped f => Stopped f
    end.

Definition stop {A : Type} (f : Failure) : Call A := fun _ => Stopped f.

Definition get : Call ServerList := fun s => Returned s s.

Definition modify (f : ServerList -> ServerList) : Call unit :=
  fun s => Returned tt (f s).

Definition assert (b : bool) : Call unit :=
  if b then ret tt else stop AssertionFailed.

Notation "'do' x <- c ; k" := (bind c (fun x => k))
  (at level 10, x name, c at level 100, k at level 200).
Notation "'run' c ; k" := (bind c (fun _ => k))
  (at level 10, c at level 100, k at level 200).

Definition LOG (l : LogLevel) : Call unit :=
  modify (fun s =>
    {| serverList := serverList s; version := version s;
       trackers := trackers s; logged := logged s ++ [l] |}).

Definition setSlots (slots : list (option ServerDetails)) : Call unit :=
  modify (fun s =>
    {| serverList := slots; version := version s;
       trackers := trackers s; logged := logged s |}).

Definition setVersion (v : N) : Call unit :=
  modify (fun s =>
    {| serverList := serverList s; version := v;
       trackers := trackers s; logged := logged s |}).

(** [foreach (tracker, trackers) tracker->enqueueChange(d, e)]. *)
Definition notifyTrackers (d : ServerDetails) (e : ServerChangeEvent)
  : Call unit :=
  modify (fun s =>
    {| serverList := serverList s; version := version s;
       trackers := map (enqueueChange d e) (trackers s);
       logged := logged s |}).

(** [foreach (tracker, trackers) tracker->fireCallback()]. *)
Definition fireCallbacks : Call unit :=
  modify (fun s =>
    {| serverList := serverList s; version := version s;
       trackers := map fireCallback (trackers s);
       logged := logged s |}).

(** [serverList.size()], and [serverList[index]], which is undefined
    outside the vector. *)
Definition size_of (s : ServerList) : N := N.of_nat (length (serverList s)).

Definition slot (index : N) : Call (option ServerDetails) :=
  fun s =>
    match serverList s !! N.to_nat index with
    | Some e => Returned e s
    | None => Stopped OutOfRange
    end.

Definition setSlot (index : N) (e : option ServerDetails) : Call unit :=
  do s <- get;
  if index <? size_of s
  then setSlots (<[N.to_nat index := e]> (serverList s))
  else stop OutOfRange.

(** [serverList.resize(n)]. *)
Definition resize (n : N) : Call unit :=
  do s <- get;
  setSlots (take (N.to_nat n) (serverList s)
            ++ replicate (N.to_nat n - length (serverList s)) None).

(** [ServerList::iget(ServerId)]. *)
Definition iget (id : ServerId) (s : ServerList) : option ServerDetails :=
  match serverList s !! N.to_nat (indexNumber id) with
  | Some (Some details) =>
      if ServerId_eqb (serverId details) id then Some details else None
  | _ => None
  end.

(** [ServerList::iget(uint32_t)]: the entry of a slot, without a check of
    the index. *)
Definition iget_index (index : N) : Call (option ServerDetails) :=
  slot index.

(** [ServerList::isize]. *)
Definition isize (s : ServerList) : N := size_of s.

(** [ServerList::operator[]]; [invalid] is the id that [ServerId()]
    constructs, which is declared with [ServerId]. *)
Definition subscript (invalid : ServerId) (index : N) (s : ServerList)
  : ServerId :=
  if size_of s <=? index then invalid
  else match serverList s !! N.to_nat index with
       | Some (Some details) => serverId details
       | _ => invalid
       end.

(** [add], [crashed] and [remove] call one another. *)
Inductive Request : Type :=
| Add (id : ServerId) (locator : string) (services : N)
      (expectedReadMBytesPerSec : N)
| Crashed (id : ServerId) (locator : string) (services : N)
      (expectedReadMBytesPerSec : N)
| Remove (id : ServerId).

Definition isEmpty (e : option ServerDetails) : bool :=
  match e with
  | Some _ => false
  | None => true
  end.

(** The end of [add]: the slot is empty, the new entry is constructed in
    it and the trackers are told. *)
Definition add_construct (id : ServerId) (locator : string) (services : N)
    (expectedReadMBytesPerSec : N) : Call bool :=
  let index := indexNumber id in
  do entry <- slot index;
  run assert (isEmpty entry);
  let d := {| serverId := id; serviceLocator := locator;
              services := services;
              expectedReadMBytesPerSec := expectedReadMBytesPerSec;
              status := UP |} in
  run setSlot index (Some d);
  run notifyTrackers d SERVER_ADDED;
  ret true.

(** [ServerList::add]; [remove] stands for the method of that name. *)
Definition add_body (remove : ServerId -> Call bool) (id : ServerId)
    (locator : string) (services : N) (expectedReadMBytesPerSec : N)
  : Call bool :=
  let index := indexNumber id in
  do s <- get;
  run (if size_of s <=? index
       then resize ((index + 1) mod 2 ^ 32)
       else ret tt);
  do entry <- slot index;
  match entry with
  | Some e =>
      if generationNumber id <? generationNumber (serverId e) then
        run LOG WARNING;
        ret false
      else if generationNumber (serverId e) <? generationNumber id then
        run LOG WARNING;
        do _ <- remove (serverId e);
        add_construct id locator services expectedReadMBytesPerSec
      else
        run LOG WARNING;
        ret false
  | None => add_construct id locator services expectedReadMBytesPerSec
  end.

(** The end of [crashed]: the three assertions, the change of status and
    the notification of the trackers. *)
Definition crashed_mark (id : ServerId) : Call bool :=
  let index := indexNumber id in
  do entry <- slot index;
  match entry with
  | Some e =>
      run assert (ServerId_eqb (serverId e) id);
      run assert (ServerStatus_eqb (status e) UP);
      run setSlot index
            (Some {| serverId := serverId e;
                     serviceLocator := serviceLocator e;
                     services := services e;
                     expectedReadMBytesPerSec := expectedReadMBytesPerSec e;
                     status := CRASHED |});
      run notifyTrackers (ServerDetails_of (serverId e) CRASHED)
            SERVER_CRASHED;
      ret true
  | None => stop AssertionFailed
  end.

(** [ServerList::crashed]. *)
Definition crashed_body (add : ServerId -> string -> N -> N -> Call bool)
    (remove : ServerId -> Call bool) (id : ServerId)
    (locator : string) (services : N) (expectedReadMBytesPerSec : N)
  : Call bool :=
  let index := indexNumber id in
  do s <- get;
  run (if (size_of s <=? index)
          || match serverList s !! N.to_nat index with
             | Some (Some _) => false
             | _ => true
             end
       then do _ <- add id locator services expectedReadMBytesPerSec; ret tt
       else ret tt);
  do entry <- slot index;
  match entry with
  | Some e =>
      if generationNumber id <? generationNumber (serverId e) then
        run LOG WARNING;
        ret false
      else if generationNumber (serverId e) <? generationNumber id then
        run LOG WARNING;
        do _ <- remove (serverId e);
        do _ <- add id locator services expectedReadMBytesPerSec;
        crashed_mark id
      else if ServerStatus_eqb (status e) CRASHED then
        run LOG WARNING;
        ret false
      else crashed_mark id
  | None => crashed_mark id
  end.

(** [ServerList::remove]. *)
Definition remove_body
    (crashed : ServerId -> string -> N -> N -> Call bool) (id : ServerId)
  : Call bool :=
  let index := indexNumber id in
  do s <- get;
  match (if index <? size_of s then serverList s !! N.to_nat index
         else None) with
  | Some (Some e0) =>
      if generationNumber id <? generationNumber (serverId e0) then
        run LOG WARNING;
        ret false
      else
        run (if generationNumber (serverId e0) <? generationNumber id
             then LOG WARNING else ret tt);
        run (if ServerStatus_eqb (status e0) UP
             then do _ <- crashed (serverId e0) (serviceLocator e0)
                            (services e0) (expectedReadMBytesPerSec e0);
                  ret tt
             else ret tt);
        do entry <- slot index;
        match entry with
        | Some e =>
            run notifyTrackers (ServerDetails_of (serverId e) DOWN)
                  SERVER_REMOVED;
            run setSlot index None;
            ret true
        | None => stop OutOfRange
        end
  | _ =>
      run LOG WARNING;
      ret false
  end.

(** The three methods, with a bound on the depth of their nested calls. *)
Fixpoint invoke (depth : nat) (r : Request) : Call bool :=
  match depth with
  | O => stop TooDeep
  | S depth' =>
      let add id locator services mbps :=
        invoke depth' (Add id locator services mbps) in
      let crashed id locator services mbps :=
        invoke depth' (Crashed id locator services mbps) in
      let remove id := invoke depth' (Remove id) in
      match r with
      | Add id locator services mbps =>
          add_body remove id locator services mbps
      | Crashed id locator services mbps =>
          crashed_body add remove id locator services mbps
      | Remove id => remove_body crashed id
      end
  end.

(** No chain of nested calls is longer than three: [add] calls [remove]
    for an entry that is present, [remove] calls [crashed] for an entry
    that is up, and [crashed] then calls nothing. *)
Definition callDepth : nat := 3.

Definition add (id : ServerId) (locator : string) (services : N)
    (expectedReadMBytesPerSec : N) : Call bool :=
  invoke callDepth (Add id locator services expectedReadMBytesPerSec).

Definition crashed (id : ServerId) (locator : string) (services : N)
    (expectedReadMBytesPerSec : N) : Call bool :=
  invoke callDepth (Crashed id locator services expectedReadMBytesPerSec).

Definition remove (id : ServerId) : Call bool :=
  invoke callDepth (Remove id).

(** [foreach] over the entries of a coordinator list. *)
Fixpoint forEach {A : Type} (f : A -> Call unit) (l : list A) : Call unit :=
  match l with
  | [] => ret tt
  | x :: l' => run f x; forEach f l'
  end.

Section Lists.

(** [ServerId::isValid()], declared with [ServerId]. *)
Variable isValid : ServerId -> bool.

(** [ServerList::applyFullList]; [lst] is the parameter [list]. *)
Definition applyFullList (lst : ProtoBuf_ServerList) : Call unit :=
  run assert (match type lst with
              | ServerList_Type_FULL_LIST => true
              | _ => false
              end);
  run LOG NOTICE;
  do listIds <-
    fold_left
      (fun (acc : Call (list ServerId)) (e : ProtoBuf_Entry) =>
         do ids <- acc;
         if ServerStatus_eqb (entry_status e) DOWN then
           run LOG WARNING;
           ret ids
         else
           run assert (negb (existsb (ServerId_eqb (server_id e)) ids));
           ret (server_id e :: ids))
      (server lst) (ret []);
  do s <- get;
  run forEach
        (fun index : nat =>
           do entry <- slot (N.of_nat index);
           match entry with
           | None => ret tt
           | Some e =>
               run assert (isValid (serverId e));
               if existsb (ServerId_eqb (serverId e)) listIds then ret tt
               else do _ <- remove (serverId e); ret tt
           end)
        (seq 0 (length (serverList s)));
  run forEach
        (fun e : ProtoBuf_Entry =>
           if ServerStatus_eqb (entry_status e) CRASHED then
             do _ <- crashed (server_id e) (service_locator e)
                       (entry_services e) (expected_read_mbytes_per_sec e);
             ret tt
           else ret tt)
        (server lst);
  run forEach
        (fun e : ProtoBuf_Entry =>
           if ServerStatus_eqb (entry_status e) UP then
             do _ <- add (server_id e) (service_locator e)
                       (entry_services e) (expected_read_mbytes_per_sec e);
             ret tt
           else ret tt)
        (server lst);
  run setVersion (version_number lst);
  fireCallbacks.

(** The loop of [applyUpdate]; [false] is its early [return false]. *)
Fixpoint applyEntries (l : list ProtoBuf_Entry) : Call bool :=
  match l with
  | [] => ret true
  | e :: l' =>
      let id := server_id e in
      run assert (isValid id);
      match entry_status e with
      | UP =>
          run LOG NOTICE;
          do _ <- add id (service_locator e) (entry_services e)
                    (expected_read_mbytes_per_sec e);
          applyEntries l'
      | CRASHED =>
          do s <- get;
          match iget id s with
          | None =>
              run LOG ERROR;
              ret false
          | Some _ =>
              run LOG NOTICE;
              do _ <- crashed id (service_locator e) (entry_services e)
                        (expected_read_mbytes_per_sec e);
              applyEntries l'
          end
      | DOWN =>
          do s <- get;
          match iget id s with
          | None =>
              run LOG ERROR;
              ret false
          | Some _ =>
              run LOG NOTICE;
              do _ <- remove id;
              applyEntries l'
          end
      end
  end.

(** [ServerList::applyUpdate]; [version + 1] is computed in 64 bits. *)
Definition applyUpdate (update : ProtoBuf_ServerList) : Call bool :=
  run assert (match type update with
              | ServerList_Type_UPDATE => true
              | _ => false
              end);
  do s <- get;
  if negb (version_number update =? (version s + 1) mod 2 ^ 64) then
    run LOG NOTICE;
    ret false
  else
    run LOG NOTICE;
    do applied <- applyEntries (server update);
    if applied then
      run setVersion (version_number update);
      run fireCallbacks;
      ret true
    else ret false.

(** [ServerList::applyServerList]. *)
Definition applyServerList (lst : ProtoBuf_ServerList) : Call unit :=
  do s <- get;
  if version_number lst <=? version s then
    run LOG NOTICE;
    ret tt
  else
    run LOG NOTICE;
    match type lst with
    | ServerList_Type_UPDATE =>
        do applied <- applyUpdate lst;
        if applied then ret tt else stop Died
    | ServerList_Type_FULL_LIST => applyFullList lst
    end.

End Lists.

(** Every entry sits in the slot that its id names. *)
Definition wellIndexed (l : list (option ServerDetails)) : Prop :=
  forall (i : nat) (e : ServerDetails),
    l !! i = Some (Some e) -> indexNumber (serverId e) = N.of_nat i.

Definition sound (s : ServerList) : Prop := wellIndexed (serverList s).

(** A call settles when it returns in a state that satisfies [Q], or stops
    for a reason other than the bound on nested calls. *)
Definition settles {A : Type} (o : Outcome A)
    (Q : A -> ServerList -> Prop) : Prop :=
  match o with
  | Returned a s' => Q a s'
  | Stopped f => f <> TooDeep
  end.

(** *** What a call does to the list and to its trackers *)

(** A tracker after the changes [evs] were enqueued on it, in this order. *)
Definition notify (evs : list (ServerDetails * ServerChangeEvent))
    (tr : Tracker) : Tracker :=
  {| changes := changes tr ++ evs; callbacksFired := callbacksFired tr |}.

(** From [s] to [s'] the slots became [slots], every tracker was told
    [evs], and the version stayed. *)
Definition effect (s s' : ServerList)
    (slots : list (option ServerDetails))
    (evs : list (ServerDetails * ServerChangeEvent)) : Prop :=
  serverList s' = slots
  /\ trackers s' = map (notify evs) (trackers s)
  /\ version s' = version s.

(** Nothing but the log differs between [s] and [s']. *)
Definition unchanged (s s' : ServerList) : Prop :=
  serverList s' = serverList s
  /\ trackers s' = trackers s
  /\ version s' = version s.

(** The entry that [add] constructs, and an entry once [crashed] has
    marked it. *)
Definition newDetails (id : ServerId) (locator : string)
    (services expectedReadMBytesPerSec : N) : ServerDetails :=
  {| serverId := id; serviceLocator := locator; services := services;
     expectedReadMBytesPerSec := expectedReadMBytesPerSec; status := UP |}.

Definition asCrashed (e : ServerDetails) : ServerDetails :=
  {| serverId := serverId e; serviceLocator := serviceLocator e;
     services := services e;
     expectedReadMBytesPerSec := expectedReadMBytesPerSec e;
     status := CRASHED |}.

(** The changes that the three methods enqueue. *)
Definition addEvent (d : ServerDetails) : ServerDetails * ServerChangeEvent :=
  (d, SERVER_ADDED).

Definition crashEvent (id : ServerId) : ServerDetails * ServerChangeEvent :=
  (ServerDetails_of id CRASHED, SERVER_CRASHED).

Definition removeEvent (id : ServerId) : ServerDetails * ServerChangeEvent :=
  (ServerDetails_of id DOWN, SERVER_REMOVED).

(** What the trackers hear when the entry [e] is removed: its crash first,
    if it was up. *)
Definition removalEvents (e : ServerDetails)
  : list (ServerDetails * ServerChangeEvent) :=
  (if ServerStatus_eqb (status e) UP then [crashEvent (serverId e)] else [])
  ++ [removeEvent (serverId e)].

(** The slots after [resize(index + 1)] of a vector that is too short. *)
Definition grown (index : nat) (l : list (option ServerDetails))
  : list (option ServerDetails) :=
  l ++ replicate (index + 1 - length l) None.

(** The id that a request names, and what a request may leave in the slot
    of that id. *)
Definition requestId (r : Request) : ServerId :=
  match r with
  | Add id _ _ _ => id
  | Crashed id _ _ _ => id
  | Remove id => id
  end.

Definition written (r : Request) (x : option ServerDetails) : Prop :=
  match r with
  | Remove _ => x = None
  | _ => forall d, x = Some d -> serverId d = requestId r
  end.

(** A call that returns does so in a state that satisfies [Q]. *)
Definition returns {A : Type} (o : Outcome A)
    (Q : A -> ServerList -> Prop) : Prop :=
  match o with
  | Returned a s' => Q a s'
  | Stopped _ => True
  end.

(** The version and the number of callbacks fired on each tracker are
    the same in [s'] as in [s]; a call keeps them when every run of it that
    returns does. *)
Definition sameVersion (s s' : ServerList) : Prop :=
  version s' = version s
  /\ map callbacksFired (trackers s') = map callbacksFired (trackers s).

Definition keeps {A : Type} (c : Call A) : Prop :=
  forall s, returns (c s) (fun _ s' => sameVersion s s').

(** The list of version [v] has been applied: the version is [v] and the
    callback of every tracker was fired once more. *)
Definition applied (v : N) (s s' : ServerList) : Prop :=
  version s' = v
  /\ map callbacksFired (trackers s')
     = map (fun tr => S (callbacksFired tr)) (trackers s).

(** A call finishes when it returns, and does so in a state that
    satisfies [Q]. *)
Definition finishes {A : Type} (o : Outcome A)
    (Q : A -> ServerList -> Prop) : Prop :=
  match o with
  | Returned a s' => Q a s'
  | Stopped _ => False
  end.

(** No entry of the list has status DOWN; a list is in order when its
    entries sit in their own slots and none is DOWN. *)
Definition noneDown (s : ServerList) : Prop :=
  forall (i : nat) (e : ServerDetails),
    serverList s !! i = Some (Some e) -> status e <> DOWN.

Definition inOrder (s : ServerList) : Prop := sound s /\ noneDown s.

(** [c'] does what [c] does whenever [c] is not cut short by the bound on
    nested calls. *)
Definition refines {A : Type} (c c' : Call A) : Prop :=
  forall s, c s <> Stopped TooDeep -> c' s = c s.

(** The coordinator's list names [id] in an entry that is not DOWN; and
    every entry of the list [s] has an id for which [A] holds. *)
Definition listed (lst : ProtoBuf_ServerList) (id : ServerId) : Prop :=
  exists e, In e (server lst) /\ server_id e = id /\ entry_status e <> DOWN.

Definition holdsOnly (A : ServerId -> Prop) (s : ServerList) : Prop :=
  forall (i : nat) (d : ServerDetails),
    serverList s !! i = Some (Some d) -> A (serverId d).

(** The ids that [applyFullList] collects in [listIds]: those of the
    entries that are not DOWN. *)
Definition liveIds (l : list ProtoBuf_Entry) : list ServerId :=
  map server_id
    (List.filter (fun e => negb (ServerStatus_eqb (entry_status e) DOWN)) l).

(** The entry of slot [index], if the slot is inside the vector and holds
    one. *)
Definition content (s : ServerList) (index : nat) : option ServerDetails :=
  match serverList s !! index with
  | Some (Some d) => Some d
  | _ => None
  end.

(** The slot that a request works on. *)
Definition slotOf (r : Request) : nat :=
  N.to_nat (indexNumber (requestId r)).

(** What a request leaves in the slot of its id, given what the slot
    held: the case tables of [add], [crashed] and [remove]. *)
Definition leaves (r : Request) (held : option ServerDetails)
  : option ServerDetails :=
  match r, held with
  | Add id l sv mb, Some d =>
      if generationNumber (serverId d) <? generationNumber id
      then Some (newDetails id l sv mb) else Some d
  | Add id l sv mb, None => Some (newDetails id l sv mb)
  | Crashed id l sv mb, Some d =>
      if generationNumber id <? generationNumber (serverId d) then Some d
      else if generationNumber (serverId d) <? generationNumber id
      then Some (asCrashed (newDetails id l sv mb))
      else Some (asCrashed d)
  | Crashed id l sv mb, None => Some (asCrashed (newDetails id l sv mb))
  | Remove id, Some d =>
      if generationNumber id <? generationNumber (serverId d) then Some d
      else None
  | Remove id, None => None
  end.

(** The request that [applyFullList] makes for an entry of the
    coordinator's list that is not DOWN, and the entry that the list holds
    for it afterwards, given the entry that [iget] found before. *)
Definition requestFor (e : ProtoBuf_Entry) : Request :=
  match entry_status e with
  | CRASHED =>
      Crashed (server_id e) (service_locator e) (entry_services e)
        (expected_read_mbytes_per_sec e)
  | _ =>
      Add (server_id e) (service_locator e) (entry_services e)
        (expected_read_mbytes_per_sec e)
  end.

Definition installed (e : ProtoBuf_Entry) (before : option ServerDetails)
  : ServerDetails :=
  let fresh :=
    newDetails (server_id e) (service_locator e) (entry_services e)
      (expected_read_mbytes_per_sec e) in
  match entry_status e, before with
  | CRASHED, Some d => asCrashed d
  | CRASHED, None => asCrashed fresh
  | _, Some d => d
  | _, None => fresh
  end.

(** The update [update] with the entries [l] in place of its own. *)
Definition withEntries (update : ProtoBuf_ServerList)
    (l : list ProtoBuf_Entry) : ProtoBuf_ServerList :=
  {| version_number := version_number update; type := type update;
     server := l |}.

(** One call after the other, the results dropped. *)
Definition invokeAll (rs : list Request) : Call unit :=
  forEach (fun r => do _ <- invoke callDepth r; ret tt) rs.

(** The body of the first loop of [applyFullList]. *)
Definition removeUnlisted (isValid : ServerId -> bool)
    (listIds : list ServerId) (index : nat) : Call unit :=
  do entry <- slot (N.of_nat index);
  match entry with
  | None => ret tt
  | Some e =>
      run assert (isValid (serverId e));
      if existsb (ServerId_eqb (serverId e)) listIds then ret tt
      else do _ <- remove (serverId e); ret tt
  end.

End Membership.

(** ** Sample data *)

Module Examples.

(** A message of six bytes; [example_packet maxData off] is the packet at
    offset [off] of its cut into packets of [maxData] bytes. *)
Definition example_message : Buffer :=
  [Byte.x00; Byte.x01; Byte.x02; Byte.x03; Byte.x04; Byte.x05].

Definition example_id : Wire.RpcId :=
  {| Wire.clientId := 7; Wire.sequence := 1 |}.

Definition example_packet (maxData off : N) : Wire.DataHeader * Buffer :=
  (Wire.DataHeader_new example_id (buffer_size example_message) off 2
     Wire.FROM_CLIENT,
   Accumulator.slice example_message maxData off).

(** A transport with a round trip of 10000 bytes that grants 10000 bytes
    at a time to at most two messages; one that grants nothing; one that
    grants to a single message. *)
Definition example_transport : Transport.HomaTransport :=
  {| Transport.maxDataPerPacket := 1400;
     Transport.clientId := 7;
     Transport.roundTripBytes := 10000;
     Transport.grantIncrement := 10000;
     Transport.maxGrantedMessages := 2 |}.

Definition stalled_transport : Transport.HomaTransport :=
  {| Transport.maxDataPerPacket := 1400;
     Transport.clientId := 7;
     Transport.roundTripBytes := 10000;
     Transport.grantIncrement := 0;
     Transport.maxGrantedMessages := 2 |}.

Definition one_at_a_time : Transport.HomaTransport :=
  {| Transport.maxDataPerPacket := 1400;
     Transport.clientId := 7;
     Transport.roundTripBytes := 10000;
     Transport.grantIncrement := 10000;
     Transport.maxGrantedMessages := 1 |}.

(** A client that sends a request of 100 bytes, and the server's side of
    that RPC when it is created: the reply is still empty. *)
Definition example_session : Sender.Session :=
  {| Sender.t := example_transport;
     Sender.serverAddress := 42;
     Sender.aborted := false |}.

Definition example_request : Buffer := repeat Byte.x00 100.

Definition example_rpc : Sender.ClientRpc :=
  Sender.ClientRpc_new 1 example_session 1 example_request [] 2.

Definition example_server_rpc : Sender.ServerRpc :=
  Sender.ServerRpc_new 3 example_transport 1 43 (Sender.rpcId example_rpc)
    [].

(** Incoming messages with 10000 unscheduled bytes: one of 35000 bytes,
    the long message A of sender 1 and the short message B of sender 2. *)
Definition message_from (sender total : N) : Scheduler.ScheduledMessage :=
  Scheduler.ScheduledMessage_new
    {| Wire.clientId := sender; Wire.sequence := 1 |}
    (Accumulator.MessageAccumulator_new total) 10000 sender sender total
    Wire.FROM_CLIENT.

Definition example_scheduled : Scheduler.ScheduledMessage :=
  message_from 42 35000.

Definition messageA : Scheduler.ScheduledMessage := message_from 1 1000000.
Definition messageB : Scheduler.ScheduledMessage := message_from 2 30000.

Definition senders (s : Scheduler.MessageScheduler) : list N * list N :=
  (map Scheduler.senderHash (Scheduler.activeMessages s),
   map Scheduler.senderHash (Scheduler.inactiveMessages s)).

(** A server list with one tracker, and lists of the coordinator: the full
    list of version 5 (server 1.0 is up, server 2.0 has crashed), the
    update of version 6 and an update of version 3. *)
Definition alwaysValid (id : Membership.ServerId) : bool :=
  negb (Membership.generationNumber id =? 2 ^ 32 - 1).

Definition emptyList : Membership.ServerList :=
  {| Membership.serverList := [];
     Membership.version := 0;
     Membership.trackers :=
       [ {| Membership.changes := []; Membership.callbacksFired := 0 |} ];
     Membership.logged := [] |}.

Definition entry (index generation : N) (st : Membership.ServerStatus)
  : Membership.ProtoBuf_Entry :=
  {| Membership.server_id :=
       {| Membership.indexNumber := index;
          Membership.generationNumber := generation |};
     Membership.entry_status := st;
     Membership.service_locator := "mock:";
     Membership.entry_services := 3;
     Membership.expected_read_mbytes_per_sec := 100 |}.

Definition fullList5 : Membership.ProtoBuf_ServerList :=
  {| Membership.version_number := 5;
     Membership.type := Membership.ServerList_Type_FULL_LIST;
     Membership.server :=
       [entry 1 0 Membership.UP; entry 2 0 Membership.CRASHED] |}.

Definition update6 : Membership.ProtoBuf_ServerList :=
  {| Membership.version_number := 6;
     Membership.type := Membership.ServerList_Type_UPDATE;
     Membership.server :=
       [entry 1 0 Membership.DOWN; entry 1 1 Membership.UP] |}.

Definition staleUpdate3 : Membership.ProtoBuf_ServerList :=
  {| Membership.version_number := 3;
     Membership.type := Membership.ServerList_Type_UPDATE;
     Membership.server := [entry 1 0 Membership.DOWN] |}.

Definition stateOf (o : Membership.Outcome unit) : Membership.ServerList :=
  match o with
  | Membership.Returned _ s => s
  | Membership.Stopped _ => emptyList
  end.

Definition list5 : Membership.ServerList :=
  stateOf (Membership.applyServerList alwaysValid fullList5 emptyList).

(** Ids and entries of the servers of these lists, the id that stands for
    no server, an update that skips version 6, a full list that names
    server 2.0 only, one that reports server 1.0 crashed and server 3.0
    up, two updates of version 6 (one that only adds servers, one that
    reports a crash of the unknown server 4.0), and the list that a call
    leaves. *)
Definition serverAt (index generation : N) : Membership.ServerId :=
  {| Membership.indexNumber := index;
     Membership.generationNumber := generation |}.

Definition detailsOf (index generation : N) (st : Membership.ServerStatus)
  : Membership.ServerDetails :=
  {| Membership.serverId := serverAt index generation;
     Membership.serviceLocator := "mock:";
     Membership.services := 3;
     Membership.expectedReadMBytesPerSec := 100;
     Membership.status := st |}.

Definition noServer : Membership.ServerId :=
  serverAt (2 ^ 32 - 1) (2 ^ 32 - 1).

Definition lostUpdate7 : Membership.ProtoBuf_ServerList :=
  {| Membership.version_number := 7;
     Membership.type := Membership.ServerList_Type_UPDATE;
     Membership.server := [entry 3 0 Membership.UP] |}.

Definition fullList9 : Membership.ProtoBuf_ServerList :=
  {| Membership.version_number := 9;
     Membership.type := Membership.ServerList_Type_FULL_LIST;
     Membership.server := [entry 2 0 Membership.CRASHED] |}.

Definition fullList8 : Membership.ProtoBuf_ServerList :=
  {| Membership.version_number := 8;
     Membership.type := Membership.ServerList_Type_FULL_LIST;
     Membership.server :=
       [entry 1 0 Membership.CRASHED; entry 3 0 Membership.UP;
        entry 4 0 Membership.DOWN] |}.

Definition additions6 : Membership.ProtoBuf_ServerList :=
  {| Membership.version_number := 6;
     Membership.type := Membership.ServerList_Type_UPDATE;
     Membership.server :=
       [entry 3 0 Membership.UP; entry 1 1 Membership.UP] |}.

Definition brokenUpdate6 : Membership.ProtoBuf_ServerList :=
  {| Membership.version_number := 6;
     Membership.type := Membership.ServerList_Type_UPDATE;
     Membership.server :=
       [entry 3 0 Membership.UP; entry 4 0 Membership.CRASHED;
        entry 5 0 Membership.UP] |}.

(** A list that no method builds: slot 0 holds server 1.5, whose id
    names slot 1. *)
Definition foreignList : Membership.ServerList :=
  {| Membership.serverList :=
       [Some (detailsOf 1 5 Membership.UP);
        Some (detailsOf 1 2 Membership.UP)];
     Membership.version := 5;
     Membership.trackers :=
       [ {| Membership.changes := []; Membership.callbacksFired := 1 |} ];
     Membership.logged := [] |}.

Definition afterCall {A : Type} (o : Membership.Outcome A)
  : Membership.ServerList :=
  match o with
  | Membership.Returned _ s => s
  | Membership.Stopped _ => emptyList
  end.

End Examples.

(** * Properties *)

(** ** Identifiers and wire formats *)

Section WireProperties.
Import Wire.

Lemma RpcId_lt_spec (a b : RpcId) :
  RpcId_lt a b = true <->
  clientId a < clientId b
  \/ (clientId a = clientId b /\ sequence a < sequence b).
Proof.
  unfold RpcId_lt.
  rewrite orb_true_iff, andb_true_iff, !N.ltb_lt, N.eqb_eq.
  reflexivity.
Qed.

Lemma RpcId_lt_false (a b : RpcId) :
  RpcId_lt a b = false <->
  clientId b < clientId a
  \/ (clientId a = clientId b /\ sequence b <= sequence a).
Proof.
  rewrite <- not_true_iff_false, RpcId_lt_spec. lia.
Qed.

Lemma RpcId_eq_spec (a b : RpcId) : RpcId_eq a b = true <-> a = b.
Proof.
  unfold RpcId_eq. rewrite andb_true_iff, !N.eqb_eq.
  destruct a as [ca sa], b as [cb sb]; simpl.
  split.
  - intros [-> ->]. reflexivity.
  - intros E. injection E as -> ->. split; reflexivity.
Qed.

(** C9. [RpcId::operator<] is the strict lexicographic order on
    (clientId, sequence): it is irreflexive, asymmetric, transitive and
    trichotomous.  [RpcId::operator==] agrees with it: two identifiers are
    equal exactly when neither is below the other. *)
Theorem RpcId_lt_strict_lexicographic :
  (forall a b : RpcId,
      RpcId_lt a b = true <->
      clientId a < clientId b
      \/ (clientId a = clientId b /\ sequence a < sequence b))
  /\ (forall a : RpcId, RpcId_lt a a = false)
  /\ (forall a b : RpcId, RpcId_lt a b = true -> RpcId_lt b a = false)
  /\ (forall a b c : RpcId,
         RpcId_lt a b = true -> RpcId_lt b c = true -> RpcId_lt a c = true)
  /\ (forall a b : RpcId,
         RpcId_lt a b = true \/ a = b \/ RpcId_lt b a = true)
  /\ (forall a b : RpcId, RpcId_eq a b = true <-> a = b)
  /\ (forall a b : RpcId,
         RpcId_eq a b = true <->
         RpcId_lt a b = false /\ RpcId_lt b a = false).
Proof.
  split_and!.
  - apply RpcId_lt_spec.
  - intros a. apply RpcId_lt_false. lia.
  - intros a b Hab. apply RpcId_lt_spec in Hab. apply RpcId_lt_false. lia.
  - intros a b c Hab Hbc. apply RpcId_lt_spec in Hab, Hbc.
    apply RpcId_lt_spec. lia.
  - intros a b. rewrite !RpcId_lt_spec.
    destruct a as [ca sa], b as [cb sb]; simpl.
    destruct (N.lt_trichotomy ca cb) as [H | [H | H]]; [ lia | | lia ].
    destruct (N.lt_trichotomy sa sb) as [H' | [H' | H']]; [ lia | | lia ].
    right; left. congruence.
  - apply RpcId_eq_spec.
  - intros a b. split.
    + intros Heq. apply RpcId_eq_spec in Heq. subst b.
      split; apply RpcId_lt_false; lia.
    + intros [Hab Hba]. apply RpcId_lt_false in Hab, Hba.
      apply RpcId_eq_spec.
      destruct a as [ca sa], b as [cb sb]; simpl in *.
      assert (ca = cb) by lia. assert (sa = sb) by lia. congruence.
Qed.

(** Three RPCs of two clients, in increasing order. *)
Lemma RpcId_lt_strict_lexicographic_witness :
  let a := {| clientId := 1; sequence := 9 |} in
  let b := {| clientId := 2; sequence := 3 |} in
  let c := {| clientId := 2; sequence := 4 |} in
  RpcId_lt a b = true /\ RpcId_lt b c = true /\ RpcId_lt a c = true
  /\ RpcId_lt c a = false /\ RpcId_eq a c = false.
Proof.
  intros a b c.
  pose proof RpcId_lt_strict_lexicographic
    as (_ & _ & Hasym & Htrans & _ & _ & _).
  assert (RpcId_lt a b = true) as Hab by reflexivity.
  assert (RpcId_lt b c = true) as Hbc by reflexivity.
  split_and!.
  - exact Hab.
  - exact Hbc.
  - exact (Htrans a b c Hab Hbc).
  - exact (Hasym a c (Htrans a b c Hab Hbc)).
  - reflexivity.
Defined.

(** The direction of ABORT packets. *)

Lemma le_bytes_length (n : nat) (x : N) : length (le_bytes n x) = n.
Proof.
  revert x. induction n as [| n IH]; intros x; simpl.
  - reflexivity.
  - rewrite IH. reflexivity.
Qed.

Lemma CommonHeader_bytes_length (h : CommonHeader) :
  length (CommonHeader_bytes h) = 18%nat.
Proof.
  unfold CommonHeader_bytes.
  rewrite !length_app, !le_bytes_length. reflexivity.
Qed.

Lemma CommonHeader_bytes_flags (h : CommonHeader) :
  CommonHeader_bytes h !! 17%nat = Some (flags h).
Proof. reflexivity. Qed.

(** C7. Whatever the RPC, the header built by [AbortHeader]'s constructor
    has opcode ABORT and flags equal to FROM_CLIENT: it is marked as sent
    by the client and never as sent by the server, and the flag byte of
    its eighteen-byte wire image is 1. *)
Theorem AbortHeader_is_from_client (id : RpcId) :
  let h := AbortHeader_new id in
  opcode (abort_common h) = opcodeValue ABORT
  /\ rpcId (abort_common h) = id
  /\ flags (abort_common h) = FROM_CLIENT
  /\ fromClient (abort_common h) = true
  /\ fromServer (abort_common h) = false
  /\ flags (abort_common h) <> FROM_SERVER
  /\ length (AbortHeader_bytes h) = 18%nat
  /\ AbortHeader_bytes h !! 17%nat = Some 1.
Proof.
  intros h. subst h.
  split_and!; try reflexivity.
  discriminate.
Qed.

End WireProperties.

(** ** Opcodes and the identifiers of new RPCs *)

Section WireOperations.
Import Wire.

Lemma opcodeValue_range (op : PacketOpcode) :
  20 <= opcodeValue op <= 27.
Proof. destruct op; simpl; lia. Qed.

Lemma opcodeValue_inj (a b : PacketOpcode) :
  opcodeValue a = opcodeValue b -> a = b.
Proof. destruct a, b; simpl; intros H; try reflexivity; discriminate. Qed.

(** X22. The opcode byte tells the kind of a packet.  Every value of
    [PacketOpcode] fits the [uint8_t] field that [CommonHeader]'s
    constructor stores it in, so two headers have the same opcode byte
    only if they were built for the same opcode; and each of the seven
    header constructors stamps the value of its own opcode, so that no
    two kinds of header share a byte. *)
Theorem opcode_identifies_packet_kind :
  (forall (a b : PacketOpcode) (ida idb : RpcId) (fa fb : N),
      opcode (CommonHeader_new a ida fa) mod 2 ^ 8
      = opcode (CommonHeader_new b idb fb) mod 2 ^ 8 <->
      a = b)
  /\ (forall (id : RpcId) (fl len total off unsched prio : N),
         map opcode
           [ all_common (AllDataHeader_new id fl len);
             data_common (DataHeader_new id total off unsched fl);
             grant_common (GrantHeader_new id off prio fl);
             logTimeTrace_common (LogTimeTraceHeader_new id fl);
             resend_common (ResendHeader_new id off len prio fl);
             busy_common (BusyHeader_new id fl);
             abort_common (AbortHeader_new id) ]
         = map opcodeValue
             [ALL_DATA; DATA; GRANT; LOG_TIME_TRACE; RESEND; BUSY; ABORT]).
Proof.
  split.
  - intros a b ida idb fa fb. simpl opcode.
    pose proof (opcodeValue_range a) as Ha.
    pose proof (opcodeValue_range b) as Hb.
    assert (2 ^ 8 = 256) as -> by reflexivity.
    rewrite !N.mod_small by lia.
    split; [apply opcodeValue_inj | intros ->; reflexivity].
  - intros id fl len total off unsched prio. reflexivity.
Qed.

(** X24. The RPCs that a client creates on sessions of one transport are
    identified by their sequence numbers: [RpcId::operator<] orders the
    ids of two such RPCs as their sequence numbers, and
    [RpcId::operator==] holds exactly when the sequence numbers are
    equal.  Each request message belongs to its client RPC and to no
    server RPC. *)
Theorem ClientRpc_ids_follow_sequence (this1 this2 : Handle)
    (session1 session2 : Sender.Session) (sequence1 sequence2 : N)
    (request1 request2 response1 response2 : Buffer)
    (notifier1 notifier2 : Handle) :
  Sender.t session1 = Sender.t session2 ->
  let rpc1 :=
    Sender.ClientRpc_new this1 session1 sequence1 request1 response1
      notifier1 in
  let rpc2 :=
    Sender.ClientRpc_new this2 session2 sequence2 request2 response2
      notifier2 in
  RpcId_lt (Sender.rpcId rpc1) (Sender.rpcId rpc2)
  = (sequence1 <? sequence2)
  /\ RpcId_eq (Sender.rpcId rpc1) (Sender.rpcId rpc2)
     = (sequence1 =? sequence2)
  /\ Sender.clientRpc (Sender.request rpc1) = Some this1
  /\ Sender.serverRpc (Sender.request rpc1) = None.
Proof.
  intros Ht rpc1 rpc2. subst rpc1 rpc2.
  unfold RpcId_lt, RpcId_eq. simpl. rewrite Ht.
  rewrite N.ltb_irrefl, N.eqb_refl. simpl.
  split_and!; reflexivity.
Qed.

(** Two RPCs of the example session, with sequence numbers 1 and 2. *)
Lemma ClientRpc_ids_follow_sequence_witness :
  let rpc1 :=
    Sender.ClientRpc_new 1 Examples.example_session 1
      Examples.example_request [] 2 in
  let rpc2 :=
    Sender.ClientRpc_new 3 Examples.example_session 2
      Examples.example_request [] 4 in
  RpcId_lt (Sender.rpcId rpc1) (Sender.rpcId rpc2) = (1 <? 2)
  /\ RpcId_eq (Sender.rpcId rpc1) (Sender.rpcId rpc2) = (1 =? 2)
  /\ Sender.clientRpc (Sender.request rpc1) = Some 1
  /\ Sender.serverRpc (Sender.request rpc1) = None.
Proof.
  exact (ClientRpc_ids_follow_sequence 1 3 Examples.example_session
           Examples.example_session 1 2 Examples.example_request
           Examples.example_request [] [] 2 4 eq_refl).
Defined.

End WireOperations.

(** ** Reassembly of incoming messages *)

Section AccumulatorProperties.
Import Wire Accumulator Examples.

(** *** The coalescing loop *)

Lemma coalesce_buffer_grows (rounds : nat) (b : Buffer)
    (fr : gmap N MessageFragment) :
  buffer_size b <= buffer_size (coalesce rounds b fr).1.
Proof.
  revert b fr. induction rounds as [| rounds IH]; intros b fr; simpl.
  - lia.
  - destruct (fr !! buffer_size b) as [f |]; simpl; [| lia].
    etransitivity; [| apply IH].
    unfold buffer_size. rewrite length_app. lia.
Qed.

(** With one round per entry the loop stops because no fragment continues
    the buffer, never because the rounds ran out. *)
Lemma coalesce_exit (rounds : nat) (b : Buffer)
    (fr : gmap N MessageFragment) :
  (size fr <= rounds)%nat ->
  (coalesce rounds b fr).2 !! buffer_size (coalesce rounds b fr).1 = None.
Proof.
  revert b fr. induction rounds as [| rounds IH]; intros b fr Hsz; simpl.
  - assert (fr = ∅) as -> by (apply map_size_empty_inv; lia).
    apply lookup_empty.
  - destruct (fr !! buffer_size b) as [f |] eqn:Hl; simpl; [| exact Hl].
    apply IH. rewrite map_size_delete, Hl. lia.
Qed.

(** The loop only removes entries. *)
Lemma coalesce_fragments_subset (rounds : nat) (b : Buffer)
    (fr : gmap N MessageFragment) (k : N) (f : MessageFragment) :
  (coalesce rounds b fr).2 !! k = Some f -> fr !! k = Some f.
Proof.
  revert b fr. induction rounds as [| rounds IH]; intros b fr; simpl.
  - auto.
  - destruct (fr !! buffer_size b) as [f' |] eqn:Hl; simpl; [| auto].
    intros H. apply IH in H.
    apply lookup_delete_Some in H. tauto.
Qed.

(** *** The accumulator invariant for packets of one cut *)

Section Reassembly.
Variable msg : Buffer.
Variable maxData : N.
Hypothesis maxData_pos : 0 < maxData.

Lemma next_multiple (i j : N) :
  i * maxData < j * maxData -> i * maxData + maxData <= j * maxData.
Proof.
  intros H.
  assert (i < j) as Hij by (apply N.mul_lt_mono_pos_r in H; assumption).
  replace (i * maxData + maxData) with ((i + 1) * maxData) by lia.
  apply N.mul_le_mono_r. lia.
Qed.

Lemma slice_length (off : N) :
  buffer_size (slice msg maxData off)
  = N.min maxData (buffer_size msg - off).
Proof.
  unfold slice, buffer_size. rewrite length_take, length_drop. lia.
Qed.

(** Appending the packet that starts at the end of the buffer keeps the
    buffer a prefix of the message and moves its end to the next packet
    boundary, or to the end of the message. *)
Lemma append_slice (b : Buffer) (j : N) :
  b = take (length b) msg ->
  buffer_size b = j * maxData ->
  buffer_size b < buffer_size msg ->
  at_boundary msg maxData (b ++ slice msg maxData (buffer_size b))
  /\ buffer_size (b ++ slice msg maxData (buffer_size b))
     = N.min (buffer_size b + maxData) (buffer_size msg).
Proof.
  intros Hpre Hj Hlt.
  assert (buffer_size (b ++ slice msg maxData (buffer_size b))
          = N.min (buffer_size b + maxData) (buffer_size msg)) as Hsz.
  { unfold buffer_size at 1. rewrite length_app.
    pose proof (slice_length (buffer_size b)) as Hs.
    unfold buffer_size in *. lia. }
  split; [| exact Hsz]. split.
  - assert (b ++ slice msg maxData (buffer_size b)
            = take (length b + N.to_nat maxData) msg) as Heq.
    { unfold slice, buffer_size. rewrite Nat2N.id.
      rewrite Hpre at 1. apply take_take_drop. }
    rewrite Heq, length_take.
    destruct (Nat.min_spec (length b + N.to_nat maxData) (length msg))
      as [[_ ->] | [Hge ->]]; [reflexivity |].
    rewrite !take_ge by lia. reflexivity.
  - rewrite Hsz.
    destruct (N.le_gt_cases (buffer_size b + maxData) (buffer_size msg)).
    + left. exists (j + 1). lia.
    + right. lia.
Qed.

Lemma coalesce_loop_state (rounds : nat) (b : Buffer)
    (fr : gmap N MessageFragment) :
  loop_state msg maxData b fr ->
  loop_state msg maxData (coalesce rounds b fr).1 (coalesce rounds b fr).2.
Proof.
  revert b fr. induction rounds as [| rounds IH]; intros b fr Hst; simpl.
  - exact Hst.
  - destruct (fr !! buffer_size b) as [f |] eqn:Hl; simpl; [| exact Hst].
    apply IH. destruct Hst as [[Hpre Hbd] Hkeys].
    destruct (Hkeys _ _ Hl) as [[[j Hj] [Hlt Hpay]] _].
    rewrite Hpay.
    destruct (append_slice b j Hpre Hj Hlt) as [Hb Hsz].
    split; [exact Hb |].
    intros k f' Hk. apply lookup_delete_Some in Hk. destruct Hk as [Hne Hk].
    destruct (Hkeys _ _ Hk) as [Hok Hle].
    split; [exact Hok |].
    rewrite Hsz. destruct Hok as [[i Hi] [Hki _]].
    assert (j * maxData < i * maxData) as Hji by lia.
    apply next_multiple in Hji. lia.
Qed.

Lemma reassembly_state_new (total : N) :
  reassembly_state msg maxData (MessageAccumulator_new total).
Proof.
  split.
  - split; [reflexivity |]. left. exists 0. reflexivity.
  - intros k f Hk. simpl in Hk. rewrite lookup_empty in Hk. discriminate.
Qed.

Lemma addPacket_reassembly_state (a : MessageAccumulator)
    (p : DataHeader * Buffer) :
  reassembly_state msg maxData a -> packet_of_message msg maxData p ->
  reassembly_state msg maxData (acc (addPacket a p.1 p.2)).
Proof.
  intros [[Hpre Hbd] Hkeys] [[j Hj] [Hlt Hpay]].
  destruct p as [h pl]; simpl in *. unfold addPacket.
  destruct (data_offset h <? buffer_size (buffer a)) eqn:Hc1; simpl.
  { split; [split |]; assumption. }
  destruct (data_offset h =? buffer_size (buffer a)) eqn:Hc2.
  - apply N.eqb_eq in Hc2.
    assert (loop_state msg maxData (buffer a ++ pl) (fragments a)) as Hloop.
    { rewrite Hpay, Hc2.
      destruct (append_slice (buffer a) j Hpre) as [Hb Hsz]; [lia | lia |].
      split; [exact Hb |].
      intros k f Hk. destruct (Hkeys _ _ Hk) as [Hok Hgt].
      split; [exact Hok |].
      rewrite Hsz. destruct Hok as [[i Hi] _].
      assert (j * maxData < i * maxData) as Hji by lia.
      apply next_multiple in Hji. lia. }
    pose proof (coalesce_loop_state (size (fragments a)) _ _ Hloop) as Hst.
    pose proof (coalesce_exit (size (fragments a))
                  (buffer a ++ pl) (fragments a) (le_n _)) as Hx.
    destruct (coalesce _ _ _) as [b fr]; simpl in *.
    destruct Hst as [Hb Hk']. split; [exact Hb |]. simpl.
    intros k f Hk. destruct (Hk' _ _ Hk) as [Hok Hle].
    split; [exact Hok |].
    destruct (N.eq_dec k (buffer_size b)) as [-> | Hne]; [| lia].
    rewrite Hx in Hk. discriminate.
  - apply N.eqb_neq in Hc2. apply N.ltb_ge in Hc1.
    destruct (fragments a !! data_offset h) eqn:Hl; simpl.
    { split; [split |]; assumption. }
    split; [split; assumption |]. simpl.
    intros k f Hk. apply lookup_insert_Some in Hk.
    destruct Hk as [[<- <-] | [Hne Hk]].
    + split; [| lia]. split; [eauto |]. split; assumption.
    + apply Hkeys. exact Hk.
Qed.

Lemma deliver_reassembly_state (pkts : list (DataHeader * Buffer))
    (a : MessageAccumulator) :
  reassembly_state msg maxData a ->
  Forall (packet_of_message msg maxData) pkts ->
  reassembly_state msg maxData (deliver a pkts).
Proof.
  revert a. induction pkts as [| p pkts IH]; intros a Ha Hall; simpl.
  - exact Ha.
  - inversion Hall as [| ? ? Hp Hrest]; subst.
    apply IH; [| exact Hrest].
    apply addPacket_reassembly_state; assumption.
Qed.

Lemma reassembly_state_invariant (a : MessageAccumulator) :
  reassembly_state msg maxData a -> accumulator_invariant msg a.
Proof.
  intros [[Hpre Hbd] Hkeys]. split_and!.
  - exact Hpre.
  - intros k f Hk. destruct (Hkeys _ _ Hk) as [_ Hgt]. lia.
  - apply NoDup_fst_map_to_list.
  - intros k1 f1 k2 f2 H1 H2 Hne.
    destruct (Hkeys _ _ H1) as [[[i Hi] [_ Hp1]] _].
    destruct (Hkeys _ _ H2) as [[[j Hj] [_ Hp2]] _].
    unfold frag_length. rewrite Hp1, Hp2, !slice_length.
    destruct (N.lt_trichotomy k1 k2) as [Hlt | [Heq | Hgt]];
      [left | contradiction | right].
    + assert (i * maxData < j * maxData) as Hij by lia.
      apply next_multiple in Hij. lia.
    + assert (j * maxData < i * maxData) as Hij by lia.
      apply next_multiple in Hij. lia.
Qed.

End Reassembly.

(** *** The invariant, and where it stops *)

(** C4, as amended. When every DATA packet handed to [addPacket] is a
    packet of the sender's cut of the message (it starts at a multiple of
    the packet size, inside the message, and carries the message's bytes
    from there, a full packet unless it is the last), then after every
    call the buffer is the prefix of the message of length
    [buffer.size()], every key of [fragments] is at least
    [buffer.size()], the keys are unique and no two stored fragments
    overlap. *)
Theorem addPacket_keeps_accumulator_invariant (msg : Buffer) (maxData : N)
    (pkts : list (DataHeader * Buffer)) :
  0 < maxData ->
  Forall (packet_of_message msg maxData) pkts ->
  accumulator_invariant msg
    (deliver (MessageAccumulator_new (buffer_size msg)) pkts).
Proof.
  intros Hpos Hall.
  apply (reassembly_state_invariant msg maxData Hpos).
  apply deliver_reassembly_state; [exact Hpos | | exact Hall].
  apply reassembly_state_new.
Qed.

(** The last packet first, the first packet twice, then the middle one. *)
Lemma addPacket_keeps_accumulator_invariant_witness :
  accumulator_invariant example_message
    (deliver (MessageAccumulator_new (buffer_size example_message))
       [example_packet 2 4; example_packet 2 0; example_packet 2 0;
        example_packet 2 2]).
Proof.
  apply (addPacket_keeps_accumulator_invariant example_message 2).
  - reflexivity.
  - repeat constructor.
    + exists 2. reflexivity.
    + exists 0. reflexivity.
    + exists 0. reflexivity.
    + exists 1. reflexivity.
Defined.

(** C4, as stated, fails for packets that are not of one cut: the bytes
    2..3 of the message arrive first and are stored under key 2; then the
    bytes 0..3 arrive in one packet and are appended.  The buffer now has
    four bytes and key 2 is still in [fragments]. *)
Lemma addPacket_key_below_buffer :
  let a :=
    deliver (MessageAccumulator_new (buffer_size example_message))
      [example_packet 2 2; example_packet 4 0] in
  buffer (a) = take 4 example_message
  /\ is_Some (fragments a !! 2)
  /\ ~ accumulator_invariant example_message a.
Proof.
  intros a.
  assert (buffer a = take 4 example_message) as Hb
    by (vm_compute; reflexivity).
  assert (fragments a !! 2 = Some (mkMessageFragment
            (example_packet 2 2).1 (example_packet 2 2).2)) as Hl
    by (vm_compute; reflexivity).
  split_and!.
  - exact Hb.
  - rewrite Hl. eauto.
  - intros [_ [Hkeys _]].
    specialize (Hkeys 2 _ Hl). rewrite Hb in Hkeys.
    vm_compute in Hkeys. apply Hkeys. reflexivity.
Qed.

(** *** Repeated delivery *)

Lemma addPacket_buffer_grows (a : MessageAccumulator) (h : DataHeader)
    (p : Buffer) :
  buffer_size (buffer a) <= buffer_size (buffer (acc (addPacket a h p))).
Proof.
  unfold addPacket.
  destruct (data_offset h <? buffer_size (buffer a)); simpl; [lia |].
  destruct (data_offset h =? buffer_size (buffer a)).
  - pose proof (coalesce_buffer_grows (size (fragments a))
                  (buffer a ++ p) (fragments a)) as Hg.
    destruct (coalesce _ _ _) as [b fr]; simpl in *.
    unfold buffer_size in *. rewrite length_app in Hg. lia.
  - destruct (fragments a !! data_offset h); simpl; lia.
Qed.

(** After a packet with at least one byte of data has been handed to
    [addPacket], the same packet is a repetition. *)
Lemma addPacket_then_duplicate (a : MessageAccumulator) (h : DataHeader)
    (p : Buffer) :
  p <> [] -> is_duplicate (acc (addPacket a h p)) h.
Proof.
  intros Hp. unfold is_duplicate, addPacket.
  destruct (data_offset h <? buffer_size (buffer a)) eqn:Hlt; simpl.
  - left. apply N.ltb_lt. exact Hlt.
  - destruct (data_offset h =? buffer_size (buffer a)) eqn:Heq.
    + left. apply N.eqb_eq in Heq.
      pose proof (coalesce_buffer_grows (size (fragments a))
                    (buffer a ++ p) (fragments a)) as Hg.
      destruct (coalesce _ _ _) as [b fr]; simpl in *.
      assert (0 < length p)%nat by (destruct p; [congruence | simpl; lia]).
      unfold buffer_size in *. rewrite length_app in Hg. lia.
    + right. destruct (fragments a !! data_offset h) eqn:Hl; simpl.
      * rewrite Hl. eauto.
      * rewrite lookup_insert_eq. eauto.
Qed.

(** A packet below the buffer, or above it with its offset already stored,
    is handed back and changes nothing. *)
Lemma addPacket_repeated (a : MessageAccumulator) (h : DataHeader)
    (p : Buffer) :
  data_offset h < buffer_size (buffer a)
  \/ (buffer_size (buffer a) < data_offset h
      /\ is_Some (fragments a !! data_offset h)) ->
  addPacket a h p =
  {| acc := a; advanced := false; disposition := Released |}.
Proof.
  intros [Hlt | [Hgt [f Hf]]]; unfold addPacket.
  - apply N.ltb_lt in Hlt. rewrite Hlt. reflexivity.
  - assert ((data_offset h <? buffer_size (buffer a)) = false) as ->
      by (apply N.ltb_ge; lia).
    assert ((data_offset h =? buffer_size (buffer a)) = false) as ->
      by (apply N.eqb_neq; lia).
    rewrite Hf. reflexivity.
Qed.

(** After [addPacket] no stored fragment sits exactly at the packet's
    offset when that offset is the end of the buffer. *)
Lemma addPacket_nothing_pending (a : MessageAccumulator) (h : DataHeader)
    (p : Buffer) :
  let a1 := acc (addPacket a h p) in
  data_offset h = buffer_size (buffer a1) ->
  fragments a1 !! data_offset h = None.
Proof.
  unfold addPacket.
  destruct (data_offset h <? buffer_size (buffer a)) eqn:Hlt; simpl.
  - apply N.ltb_lt in Hlt. lia.
  - destruct (data_offset h =? buffer_size (buffer a)) eqn:Heq.
    + pose proof (coalesce_exit (size (fragments a))
                    (buffer a ++ p) (fragments a) (le_n _)) as Hx.
      destruct (coalesce _ _ _) as [b fr]; simpl in *.
      intros ->. exact Hx.
    + apply N.eqb_neq in Heq.
      destruct (fragments a !! data_offset h); simpl; intros; lia.
Qed.

(** A repetition of the packet just delivered changes nothing. *)
Lemma addPacket_duplicate_unchanged (a : MessageAccumulator)
    (h : DataHeader) (p : Buffer) :
  let a1 := acc (addPacket a h p) in
  is_duplicate a1 h ->
  addPacket a1 h p =
  {| acc := a1; advanced := false; disposition := Released |}.
Proof.
  intros a1 Hdup.
  pose proof (addPacket_nothing_pending a h p) as Hnone.
  fold a1 in Hnone. simpl in Hnone.
  apply addPacket_repeated.
  destruct Hdup as [Hlt | Hsome]; [left; exact Hlt |].
  destruct (N.lt_trichotomy (data_offset h) (buffer_size (buffer a1)))
    as [Hc | [Hc | Hc]].
  - left. exact Hc.
  - rewrite (Hnone Hc) in Hsome. destruct Hsome as [? Hsome]. discriminate.
  - right. split; assumption.
Qed.

(** C5. Delivering a DATA packet a second time changes nothing: once a
    packet that carries data has been handed to [addPacket] its offset is
    below [buffer.size()] or a key of [fragments], and handing over such a
    packet again leaves the buffer and the fragment map as the first
    delivery left them, reports no progress and gives the packet back to
    the driver. *)
Theorem addPacket_duplicate_delivery (a : MessageAccumulator)
    (h : DataHeader) (p : Buffer) :
  let first := addPacket a h p in
  let second := addPacket (acc first) h p in
  (p <> [] -> is_duplicate (acc first) h)
  /\ (is_duplicate (acc first) h ->
      buffer (acc second) = buffer (acc first)
      /\ fragments (acc second) = fragments (acc first)
      /\ acc second = acc first
      /\ advanced second = false
      /\ disposition second = Released).
Proof.
  intros first second. subst first second. split.
  - apply addPacket_then_duplicate.
  - intros Hdup.
    rewrite (addPacket_duplicate_unchanged a h p Hdup). simpl.
    split_and!; reflexivity.
Qed.

(** The packet with bytes 2..3 of the example, delivered twice to an empty
    accumulator. *)
Lemma addPacket_duplicate_delivery_witness :
  let a0 := MessageAccumulator_new (buffer_size example_message) in
  let p := example_packet 2 2 in
  let first := addPacket a0 p.1 p.2 in
  let second := addPacket (acc first) p.1 p.2 in
  is_duplicate (acc first) p.1
  /\ acc second = acc first
  /\ advanced second = false
  /\ disposition second = Released.
Proof.
  intros a0 p first second.
  destruct (addPacket_duplicate_delivery a0 p.1 p.2) as [Hdup Hsame].
  assert (is_duplicate (acc first) p.1) as H.
  { apply Hdup. discriminate. }
  destruct (Hsame H) as (_ & _ & Hacc & Hadv & Hdisp).
  split_and!; assumption.
Defined.

(** The packet with bytes 2..3 is stored on its first delivery and handed
    back on its second; the packet with bytes 0..1 joins the buffer, takes
    the stored packet along, and is handed back when it comes again. *)
Example addPacket_twice :
  let a0 := MessageAccumulator_new (buffer_size example_message) in
  let p2 := example_packet 2 2 in
  let p0 := example_packet 2 0 in
  let r1 := addPacket a0 p2.1 p2.2 in
  let r2 := addPacket (acc r1) p2.1 p2.2 in
  let r3 := addPacket (acc r2) p0.1 p0.2 in
  let r4 := addPacket (acc r3) p0.1 p0.2 in
  (disposition r1, advanced r1) = (Retained, false)
  /\ r2 = {| acc := acc r1; advanced := false; disposition := Released |}
  /\ (disposition r3, advanced r3) = (Retained, true)
  /\ buffer (acc r3) = take 4 example_message
  /\ fragments (acc r3) = ∅
  /\ r4 = {| acc := acc r3; advanced := false; disposition := Released |}.
Proof. vm_compute. split_and!; reflexivity. Qed.

End AccumulatorProperties.

(** ** The receiver's grant engine *)

Section SchedulerProperties.
Import Wire Transport Scheduler Examples.

(** *** List surgery *)

Lemma insertSorted_length (m : ScheduledMessage)
    (l : list ScheduledMessage) :
  length (insertSorted m l) = S (length l).
Proof.
  induction l as [| x l IH]; simpl.
  - reflexivity.
  - destruct (better m x); simpl; [reflexivity | rewrite IH; reflexivity].
Qed.

Lemma unlink_length_le (m : ScheduledMessage) (l : list ScheduledMessage) :
  (length (unlink m l) <= length l)%nat.
Proof.
  induction l as [| x l IH]; simpl.
  - lia.
  - destruct (negb (sameMessage x m)); simpl; lia.
Qed.

Lemma unlink_length_lt (m : ScheduledMessage) (l : list ScheduledMessage) :
  linked m l = true -> (length (unlink m l) < length l)%nat.
Proof.
  unfold linked. induction l as [| x l IH]; simpl.
  - discriminate.
  - destruct (sameMessage x m) eqn:Hx; simpl.
    + intros _. pose proof (unlink_length_le m l). unfold unlink in *. lia.
    + intros H. apply IH in H. unfold unlink in *. lia.
Qed.

Lemma update_length (m : ScheduledMessage) (l : list ScheduledMessage) :
  length (update m l) = length l.
Proof. unfold update. apply length_map. Qed.

Lemma sameMessage_refl (m : ScheduledMessage) : sameMessage m m = true.
Proof.
  unfold sameMessage, RpcId_eq. rewrite !N.eqb_refl. reflexivity.
Qed.

Lemma find_linked (f : ScheduledMessage -> bool)
    (l : list ScheduledMessage) (x : ScheduledMessage) :
  List.find f l = Some x -> linked x l = true.
Proof.
  unfold linked. induction l as [| y l IH]; simpl.
  - discriminate.
  - destruct (f y).
    + intros E. injection E as ->. rewrite sameMessage_refl. reflexivity.
    + intros E. rewrite (IH E). apply orb_true_r.
Qed.

Lemma last_removelast_length (l : list ScheduledMessage)
    (x : ScheduledMessage) :
  last l = Some x -> S (length (List.removelast l)) = length l.
Proof.
  intros H. destruct l as [| y l]; [discriminate |].
  assert (y :: l <> []) as Hne by discriminate.
  rewrite (app_removelast_last y Hne) at 2.
  rewrite length_app. simpl. lia.
Qed.

(** The identity of a message does not depend on its grant state. *)
Lemma emitGrant_same_message (t : HomaTransport) (m : ScheduledMessage)
    (l : list ScheduledMessage) :
  unlink (emitGrant t m).1 l = unlink m l
  /\ linked (emitGrant t m).1 l = linked m l.
Proof. split; reflexivity. Qed.

(** *** The bound on the active messages *)

Lemma replaceActiveMessage_bound (t : HomaTransport) (s : MessageScheduler)
    (oldMessage : ScheduledMessage) (newMessage : option ScheduledMessage) :
  within_overcommitment t s ->
  linked oldMessage (activeMessages s) = true ->
  within_overcommitment t (replaceActiveMessage s oldMessage newMessage).
Proof.
  unfold within_overcommitment, replaceActiveMessage.
  intros Hb Hl. apply unlink_length_lt in Hl.
  destruct newMessage as [m |]; simpl.
  - rewrite insertSorted_length. lia.
  - lia.
Qed.

Lemma tryToSchedule_bound (t : HomaTransport) (s : MessageScheduler)
    (m : ScheduledMessage) :
  within_overcommitment t s -> within_overcommitment t (tryToSchedule t s m).
Proof.
  intros Hb. unfold tryToSchedule.
  destruct (state m); try exact Hb.
  destruct (List.find _ (activeMessages s)) as [sibling |] eqn:Hf.
  - destruct (better sibling m); [exact Hb |].
    apply replaceActiveMessage_bound; [exact Hb |].
    eapply find_linked. exact Hf.
  - destruct (N.of_nat (length (activeMessages s)) <? maxGrantedMessages t)
      eqn:Hlt.
    + apply N.ltb_lt in Hlt. unfold within_overcommitment; simpl.
      rewrite insertSorted_length. lia.
    + destruct (last (activeMessages s)) as [tail |] eqn:Hlast;
        [| exact Hb].
      destruct (better m tail); [| exact Hb].
      unfold within_overcommitment in *; simpl.
      rewrite insertSorted_length.
      rewrite (last_removelast_length _ _ Hlast). exact Hb.
Qed.

Lemma grantActive_bound (t : HomaTransport) (s : MessageScheduler)
    (key : ScheduledMessage) :
  within_overcommitment t s ->
  within_overcommitment t (grantActive t s key).1.
Proof.
  intros Hb. unfold grantActive.
  destruct (List.find _ (activeMessages s)) as [m |] eqn:Hf; [| exact Hb].
  apply find_linked in Hf.
  pose proof (emitGrant_same_message t m (activeMessages s)) as [_ Hsame].
  destruct (emitGrant t m) as [m' g] eqn:He; simpl in *.
  destruct (State_eqb (state m') FULLY_GRANTED); simpl.
  - apply replaceActiveMessage_bound; [exact Hb | congruence].
  - unfold within_overcommitment in *; simpl.
    rewrite update_length. exact Hb.
Qed.

Lemma destroyMessage_bound (t : HomaTransport) (s : MessageScheduler)
    (key : ScheduledMessage) :
  within_overcommitment t s ->
  within_overcommitment t (destroyMessage s key).
Proof.
  intros Hb. unfold destroyMessage.
  destruct (List.find _ (activeMessages s)) as [m |] eqn:Hf.
  - apply find_linked in Hf.
    pose proof (replaceActiveMessage_bound t s m
                  (bestInactive (unlink m (activeMessages s))
                     (unlink m (inactiveMessages s))) Hb Hf) as H.
    exact H.
  - exact Hb.
Qed.

Lemma schedulerStep_bound (t : HomaTransport) (s : MessageScheduler)
    (e : SchedulerEvent) :
  within_overcommitment t s -> within_overcommitment t (schedulerStep t s e).
Proof.
  destruct e as [m | m | m]; simpl.
  - apply tryToSchedule_bound.
  - apply grantActive_bound.
  - apply destroyMessage_bound.
Qed.

Lemma runScheduler_bound (t : HomaTransport) (es : list SchedulerEvent) :
  within_overcommitment t (runScheduler t es).
Proof.
  unfold runScheduler.
  assert (within_overcommitment t emptyScheduler) as Hinit.
  { unfold within_overcommitment; simpl. lia. }
  revert Hinit. generalize emptyScheduler as s.
  induction es as [| e es IH]; intros s Hs; simpl.
  - exact Hs.
  - apply IH. apply schedulerStep_bound. exact Hs.
Qed.

(** C3. The number of messages linked in [activeMessages] never exceeds
    [maxGrantedMessages]: it holds in the empty scheduler and after every
    sequence of arrivals, grants and deletions; [tryToSchedule] keeps the
    bound for every message, and [replaceActiveMessage] keeps it whenever
    the message it replaces is linked in [activeMessages]. *)
Theorem activeMessages_within_maxGrantedMessages :
  (forall (t : HomaTransport) (es : list SchedulerEvent),
      N.of_nat (length (activeMessages (runScheduler t es)))
      <= maxGrantedMessages t)
  /\ (forall (t : HomaTransport) (s : MessageScheduler)
        (m : ScheduledMessage),
         within_overcommitment t s ->
         within_overcommitment t (tryToSchedule t s m))
  /\ (forall (t : HomaTransport) (s : MessageScheduler)
        (oldMessage : ScheduledMessage)
        (newMessage : option ScheduledMessage),
         within_overcommitment t s ->
         linked oldMessage (activeMessages s) = true ->
         within_overcommitment t
           (replaceActiveMessage s oldMessage newMessage)).
Proof.
  split_and!.
  - apply runScheduler_bound.
  - apply tryToSchedule_bound.
  - apply replaceActiveMessage_bound.
Qed.

Example srpt_preemption :
  senders (runScheduler one_at_a_time [Arrive messageA]) = ([1], [])
  /\ senders (runScheduler one_at_a_time [Arrive messageA; Arrive messageB])
     = ([2], [1])
  /\ senders (runScheduler one_at_a_time
                [Arrive messageA; Arrive messageB; Grant messageB])
     = ([2], [1])
  /\ senders (runScheduler one_at_a_time
                [Arrive messageA; Arrive messageB; Grant messageB;
                 Grant messageB])
     = ([1], []).
Proof. vm_compute. split_and!; reflexivity. Qed.

Lemma activeMessages_within_maxGrantedMessages_witness :
  let s := runScheduler one_at_a_time [Arrive messageA] in
  within_overcommitment one_at_a_time s
  /\ within_overcommitment one_at_a_time
       (tryToSchedule one_at_a_time s messageB)
  /\ within_overcommitment one_at_a_time
       (replaceActiveMessage s messageA (Some messageB)).
Proof.
  intros s.
  pose proof activeMessages_within_maxGrantedMessages
    as (Hrun & Htry & Hreplace).
  assert (within_overcommitment one_at_a_time s) as Hs
    by exact (Hrun one_at_a_time [Arrive messageA]).
  split_and!.
  - exact Hs.
  - exact (Htry one_at_a_time s messageB Hs).
  - exact (Hreplace one_at_a_time s messageA (Some messageB) Hs eq_refl).
Defined.

End SchedulerProperties.

(** ** Outgoing messages *)

Section SenderProperties.
Import Wire Transport Sender Examples.

Lemma OutgoingMessage_new_fields (c s : option Handle) (t : HomaTransport)
    (b : Buffer) (r : Address) :
  let m := OutgoingMessage_new c s t b r in
  transmitOffset m = 0 /\ transmitLimit m = 0 /\ transmitPriority m = 0
  /\ unscheduledBytes m = roundTripBytes t /\ totalLength m = buffer_size b.
Proof. simpl. split_and!; reflexivity. Qed.

(** C8. Every [OutgoingMessage] is built by the one constructor, which sets
    [unscheduledBytes] to the transport's [roundTripBytes] whatever the
    buffer and the recipient; so do the request of a new [ClientRpc] and
    the response of a new [ServerRpc]. *)
Theorem unscheduledBytes_is_roundTripBytes :
  (forall (c s : option Handle) (t : HomaTransport) (b : Buffer)
      (r : Address),
      unscheduledBytes (OutgoingMessage_new c s t b r) = roundTripBytes t)
  /\ (forall (this : Handle) (session : Session) (sequence : N)
        (request response : Buffer) (notifier : Handle),
         unscheduledBytes
           (Sender.request
              (ClientRpc_new this session sequence request response
                 notifier))
         = roundTripBytes (Sender.t session))
  /\ (forall (this : Handle) (transport : HomaTransport) (sequence : N)
        (clientAddress : Address) (id : RpcId) (replyPayload : Buffer),
         unscheduledBytes
           (srv_response
              (ServerRpc_new this transport sequence clientAddress id
                 replyPayload))
         = roundTripBytes transport).
Proof.
  split_and!; intros.
  - apply OutgoingMessage_new_fields.
  - unfold ClientRpc_new; simpl. reflexivity.
  - unfold ServerRpc_new; simpl. reflexivity.
Qed.

Lemma transmit_invariant_new (c s : option Handle) (t : HomaTransport)
    (b : Buffer) (r : Address) :
  transmit_invariant (OutgoingMessage_new c s t b r).
Proof. unfold transmit_invariant; simpl. lia. Qed.

End SenderProperties.

(** ** GRANT packets: what the receiver sends and what the sender does *)

Section GrantProperties.
Import Wire Transport Scheduler Examples.

Lemma emitGrant_fields (t : HomaTransport) (m : ScheduledMessage) :
  let newGrantOffset :=
    N.min (totalLength m) (grantOffset m + grantIncrement t) in
  grant_offset (emitGrant t m).2 = newGrantOffset
  /\ grantOffset (emitGrant t m).1 = newGrantOffset
  /\ totalLength (emitGrant t m).1 = totalLength m
  /\ (state (emitGrant t m).1 = FULLY_GRANTED
      \/ newGrantOffset < totalLength m \/ totalLength m < grantOffset m).
Proof.
  simpl. split_and!; try reflexivity.
  destruct (N.eqb_spec
              (N.min (totalLength m) (grantOffset m + grantIncrement t))
              (totalLength m)) as [E | E].
  - left. reflexivity.
  - right. lia.
Qed.

Lemma emitGrant_grantable (t : HomaTransport) (m : ScheduledMessage) :
  grantable m -> state m <> FULLY_GRANTED ->
  grantable (emitGrant t m).1.
Proof.
  intros [Hs | Hlt] Hne; [contradiction |].
  destruct (emitGrant_fields t m) as (_ & Hg & Ht & [Hf | [Hl | Hl]]).
  - left. exact Hf.
  - right. rewrite Hg, Ht. exact Hl.
  - lia.
Qed.

Lemma State_eqb_spec (a b : State) : State_eqb a b = true <-> a = b.
Proof. destruct a, b; simpl; split; congruence. Qed.

Lemma grantOffsets_S (t : HomaTransport) (n : nat) (m : ScheduledMessage) :
  grantOffsets t (S n) m
  = if State_eqb (state m) FULLY_GRANTED then []
    else grant_offset (emitGrant t m).2
         :: grantOffsets t n (emitGrant t m).1.
Proof. reflexivity. Qed.

(** Every GRANT for [m] carries an offset that is at least [grantOffset],
    above it when [grantIncrement] is positive, and at most the length of
    the message. *)
Lemma grantOffsets_bounds (t : HomaTransport) (n : nat)
    (m : ScheduledMessage) :
  grantable m ->
  Forall (fun o => grantOffset m <= o <= totalLength m
                   /\ (0 < grantIncrement t -> grantOffset m < o))
    (grantOffsets t n m).
Proof.
  revert m. induction n as [| n IH]; intros m Hm.
  - constructor.
  - rewrite grantOffsets_S.
    destruct (State_eqb (state m) FULLY_GRANTED) eqn:Hs; [constructor |].
    assert (state m <> FULLY_GRANTED) as Hne.
    { intros E. apply State_eqb_spec in E. congruence. }
    assert (grantOffset m < totalLength m) as Hlt
      by (destruct Hm; [contradiction | assumption]).
    pose proof (emitGrant_grantable t m Hm Hne) as Hm'.
    destruct (emitGrant_fields t m) as (Ho & Hg & Ht & _).
    constructor.
    + rewrite Ho. lia.
    + specialize (IH _ Hm'). rewrite Hg, Ht in IH.
      eapply Forall_impl; [exact IH |]. simpl. intros o. lia.
Qed.

Lemma grantOffsets_sorted (t : HomaTransport) (n : nat)
    (m : ScheduledMessage) :
  grantable m ->
  StronglySorted N.le (grantOffsets t n m)
  /\ (0 < grantIncrement t -> StronglySorted N.lt (grantOffsets t n m)).
Proof.
  revert m. induction n as [| n IH]; intros m Hm.
  - split; constructor.
  - rewrite grantOffsets_S.
    destruct (State_eqb (state m) FULLY_GRANTED) eqn:Hs;
      [split; constructor |].
    assert (state m <> FULLY_GRANTED) as Hne.
    { intros E. apply State_eqb_spec in E. congruence. }
    pose proof (emitGrant_grantable t m Hm Hne) as Hm'.
    pose proof (grantOffsets_bounds t n _ Hm') as Hb.
    destruct (emitGrant_fields t m) as (Ho & Hg & _).
    destruct (IH _ Hm') as [IHle IHlt].
    rewrite Hg, <- Ho in Hb.
    split.
    + constructor; [exact IHle |].
      eapply Forall_impl; [exact Hb |]. simpl. intros o. lia.
    + intros Hpos. constructor; [exact (IHlt Hpos) |].
      eapply Forall_impl; [exact Hb |]. simpl. intros o [_ H]. exact (H Hpos).
Qed.

Lemma handleGrant_not_above_limit (m : Sender.OutgoingMessage)
    (g : GrantHeader) :
  grant_offset g <= Sender.transmitLimit m -> Sender.handleGrant m g = m.
Proof.
  intros H. unfold Sender.handleGrant.
  apply N.leb_le in H. rewrite H. reflexivity.
Qed.

(** C6, as amended. For a scheduled message (its length exceeds its
    unscheduled bytes) the offsets of the successive GRANTs never decrease,
    never fall below the unscheduled bytes and never exceed the length of
    the message; when [grantIncrement] is positive they increase strictly,
    and each lies above the unscheduled bytes.  A sender ignores a GRANT
    whose offset is not above its transmit limit; in particular a GRANT
    that does not exceed the one received before it changes nothing. *)
Theorem grant_offsets_monotone (t : HomaTransport) (id : RpcId)
    (a : Accumulator.MessageAccumulator) (unscheduledBytes : N)
    (sender : Address) (hash total from : N) (n : nat) :
  unscheduledBytes < total ->
  let m := ScheduledMessage_new id a unscheduledBytes sender hash total
             from in
  StronglySorted N.le (unscheduledBytes :: grantOffsets t n m)
  /\ Forall (fun o => o <= total) (grantOffsets t n m)
  /\ (0 < grantIncrement t ->
      StronglySorted N.lt (unscheduledBytes :: grantOffsets t n m))
  /\ (forall (om : Sender.OutgoingMessage) (g : GrantHeader),
         grant_offset g <= Sender.transmitLimit om ->
         Sender.handleGrant om g = om)
  /\ (forall (om : Sender.OutgoingMessage) (g1 g2 : GrantHeader),
         grant_offset g2 <= grant_offset g1 ->
         Sender.handleGrant (Sender.handleGrant om g1) g2
         = Sender.handleGrant om g1).
Proof.
  intros Hlt m.
  assert (grantable m) as Hm by (right; exact Hlt).
  pose proof (grantOffsets_bounds t n m Hm) as Hb.
  destruct (grantOffsets_sorted t n m Hm) as [Hle Hst].
  split_and!.
  - constructor; [exact Hle |].
    eapply Forall_impl; [exact Hb |]. simpl. intros o. lia.
  - eapply Forall_impl; [exact Hb |]. simpl. intros o. lia.
  - intros Hpos. constructor; [exact (Hst Hpos) |].
    eapply Forall_impl; [exact Hb |]. simpl. intros o [_ H]. exact (H Hpos).
  - apply handleGrant_not_above_limit.
  - intros om g1 g2 H12. apply handleGrant_not_above_limit.
    unfold Sender.handleGrant.
    destruct (grant_offset g1 <=? Sender.transmitLimit om) eqn:H1; simpl.
    + apply N.leb_le in H1. lia.
    + exact H12.
Qed.

(** The grant-paced send of 35000 bytes: GRANTs for 20000, 30000 and 35000
    bytes. *)
Lemma grant_offsets_monotone_witness :
  grantOffsets example_transport 5 example_scheduled = [20000; 30000; 35000]
  /\ StronglySorted N.lt
       (10000 :: grantOffsets example_transport 5 example_scheduled).
Proof.
  split.
  - vm_compute. reflexivity.
  - apply (grant_offsets_monotone example_transport
             {| Wire.clientId := 42; sequence := 1 |}
             (Accumulator.MessageAccumulator_new 35000) 10000 42 42 35000
             FROM_CLIENT 5); reflexivity.
Defined.

(** C6, as stated, fails when [grantIncrement] is zero: two successive
    GRANTs for the same message carry the same offset. *)
Lemma grant_offsets_repeat_without_increment :
  grantOffsets stalled_transport 2 example_scheduled = [10000; 10000]
  /\ ~ StronglySorted N.lt (grantOffsets stalled_transport 2
                              example_scheduled).
Proof.
  assert (grantOffsets stalled_transport 2 example_scheduled
          = [10000; 10000]) as E by (vm_compute; reflexivity).
  split; [exact E |].
  rewrite E. intros H.
  inversion H as [| ? ? _ Hall]; subst.
  inversion Hall as [| ? ? Hlt _]; subst.
  vm_compute in Hlt. discriminate.
Qed.

End GrantProperties.

(** ** The server list *)

Section MembershipProperties.
Import Membership Examples.

(** *** The depth of nested calls *)

Local Arguments invoke : simpl never.

Lemma invoke_Add (depth : nat) (id : ServerId) (l : string) (sv mb : N) :
  invoke (S depth) (Add id l sv mb)
  = add_body (fun i => invoke depth (Remove i)) id l sv mb.
Proof. reflexivity. Qed.

Lemma invoke_Crashed (depth : nat) (id : ServerId) (l : string)
    (sv mb : N) :
  invoke (S depth) (Crashed id l sv mb)
  = crashed_body (fun i l' sv' mb' => invoke depth (Add i l' sv' mb'))
      (fun i => invoke depth (Remove i)) id l sv mb.
Proof. reflexivity. Qed.

Lemma invoke_Remove (depth : nat) (id : ServerId) :
  invoke (S depth) (Remove id)
  = remove_body (fun i l sv mb => invoke depth (Crashed i l sv mb)) id.
Proof. reflexivity. Qed.

Lemma ServerId_eqb_eq (a b : ServerId) : ServerId_eqb a b = true <-> a = b.
Proof.
  unfold ServerId_eqb. rewrite andb_true_iff, !N.eqb_eq.
  destruct a, b; simpl. split.
  - intros [-> ->]. reflexivity.
  - intros E. injection E as -> ->. split; reflexivity.
Qed.

Lemma wellIndexed_insert (l : list (option ServerDetails)) (i : nat)
    (e : option ServerDetails) :
  wellIndexed l ->
  (forall d, e = Some d -> indexNumber (serverId d) = N.of_nat i) ->
  wellIndexed (<[i := e]> l).
Proof.
  intros Hl He j d Hj.
  destruct (decide (i = j)) as [-> | Hne].
  - destruct (decide (j < length l)%nat) as [Hlt | Hge].
    + rewrite list_lookup_insert_eq in Hj by exact Hlt.
      injection Hj as Hj. apply He. exact Hj.
    + rewrite list_insert_ge in Hj by lia. apply Hl. exact Hj.
  - rewrite list_lookup_insert_ne in Hj by exact Hne. apply Hl. exact Hj.
Qed.

Lemma wellIndexed_resize (l : list (option ServerDetails)) (n : nat) :
  wellIndexed l ->
  wellIndexed (take n l ++ replicate (n - length l) None).
Proof.
  intros Hl j d Hj.
  apply lookup_app_Some in Hj. destruct Hj as [Hj | [_ Hj]].
  - apply lookup_take_Some in Hj. apply Hl. tauto.
  - apply lookup_replicate in Hj. destruct Hj as [Hj _]. discriminate.
Qed.

Lemma crashed_mark_settles (id : ServerId) (s : ServerList) :
  wellIndexed (serverList s) ->
  settles (crashed_mark id s)
    (fun _ s' => wellIndexed (serverList s')
                 /\ length (serverList s') = length (serverList s)
                 /\ forall j, isEmpty <$> serverList s' !! j = isEmpty <$> serverList s !! j).
Proof.
  intros Hwf. unfold crashed_mark, bind, slot.
  destruct (serverList s !! N.to_nat (indexNumber id)) as [[e |] |] eqn:E;
    simpl; try discriminate.
  unfold assert.
  destruct (ServerId_eqb (serverId e) id) eqn:Hid; simpl; [| discriminate].
  destruct (ServerStatus_eqb (status e) UP) eqn:Hup; simpl; [| discriminate].
  unfold setSlot, bind, get, size_of.
  assert (N.to_nat (indexNumber id) < length (serverList s))%nat as Hlt
    by (eapply lookup_lt_Some; exact E).
  assert ((indexNumber id <? N.of_nat (length (serverList s))) = true) as ->
    by (apply N.ltb_lt; lia).
  simpl. split_and!.
  - apply wellIndexed_insert; [exact Hwf |].
    intros d [= <-]. simpl. rewrite Nat2N.inj_iff || idtac.
    apply Hwf in E. rewrite E. reflexivity.
  - apply length_insert.
  - intros j. destruct (decide (N.to_nat (indexNumber id) = j)) as [<- | Hne].
    + rewrite list_lookup_insert_eq by exact Hlt. rewrite E. reflexivity.
    + rewrite list_lookup_insert_ne by exact Hne. reflexivity.
Qed.

Lemma crashed_present_settles (depth : nat) (id : ServerId)
    (locator : string) (sv mb : N) (s : ServerList) (e : ServerDetails) :
  wellIndexed (serverList s) ->
  serverList s !! N.to_nat (indexNumber id) = Some (Some e) ->
  generationNumber (serverId e) = generationNumber id ->
  status e = UP ->
  settles (invoke (S depth) (Crashed id locator sv mb) s)
    (fun _ s' => wellIndexed (serverList s')
                 /\ length (serverList s') = length (serverList s)).
Proof.
  intros Hwf E Hgen Hup.
  rewrite invoke_Crashed. unfold crashed_body, bind, get, size_of.
  assert (N.to_nat (indexNumber id) < length (serverList s))%nat as Hlt
    by (eapply lookup_lt_Some; exact E).
  assert ((N.of_nat (length (serverList s)) <=? indexNumber id) = false)
    as -> by (apply N.leb_gt; lia).
  rewrite E. simpl. unfold slot. rewrite E.
  rewrite Hgen, N.ltb_irrefl, Hup. simpl.
  pose proof (crashed_mark_settles id s Hwf) as H.
  destruct (crashed_mark id s); simpl in *; [| exact H].
  destruct H as (H1 & H2 & _). split; assumption.
Qed.

Lemma remove_settles (depth : nat) (id : ServerId) (s : ServerList) :
  wellIndexed (serverList s) ->
  settles (invoke (S (S depth)) (Remove id) s)
    (fun b s' =>
       wellIndexed (serverList s')
       /\ length (serverList s') = length (serverList s)
       /\ forall e,
            serverList s !! N.to_nat (indexNumber id) = Some (Some e) ->
            generationNumber (serverId e) <= generationNumber id ->
            serverList s' !! N.to_nat (indexNumber id) = Some None).
Proof.
  intros Hwf.
  rewrite invoke_Remove. unfold remove_body, bind, get, size_of.
  destruct (indexNumber id <? N.of_nat (length (serverList s))) eqn:Hsz.
  2:{ simpl. split_and!; [exact Hwf | reflexivity |].
      intros e E. apply lookup_lt_Some in E. apply N.ltb_ge in Hsz. lia. }
  destruct (serverList s !! N.to_nat (indexNumber id)) as [[e0 |] |] eqn:E.
  2:{ simpl. split_and!; [exact Hwf | reflexivity |]. intros e [=]. }
  2:{ simpl. split_and!; [exact Hwf | reflexivity |]. intros e [=]. }
  destruct (generationNumber id <? generationNumber (serverId e0)) eqn:Hg.
  { simpl. split_and!; [exact Hwf | reflexivity |].
    intros e [= <-] Hle. apply N.ltb_lt in Hg. lia. }
  (* the entry is removed *)
  set (s1 := (if generationNumber (serverId e0) <? generationNumber id
              then LOG WARNING else ret tt) s).
  assert (exists s1', s1 = Returned tt s1'
                      /\ serverList s1' = serverList s) as (s1' & -> & Hs1).
  { subst s1. destruct (generationNumber (serverId e0) <? generationNumber id);
      eexists; split; reflexivity. }
  simpl.
  match goal with
  | |- settles (match ?c with _ => _ end) _ =>
      assert (settles c
                (fun _ s2 => wellIndexed (serverList s2)
                             /\ length (serverList s2)
                                = length (serverList s))) as H2;
        [| destruct c as [[] s2 | f]; simpl in *; [| exact H2] ]
  end.
  { destruct (ServerStatus_eqb (status e0) UP) eqn:Hup.
    - assert (indexNumber (serverId e0) = indexNumber id) as Hidx.
      { rewrite (Hwf _ _ E). lia. }
      pose proof (crashed_present_settles depth (serverId e0)
                    (serviceLocator e0) (services e0)
                    (expectedReadMBytesPerSec e0) s1' e0) as H.
      rewrite Hs1, Hidx in H. specialize (H Hwf E eq_refl).
      destruct (status e0); try discriminate. specialize (H eq_refl).
      destruct (invoke (S depth) _ s1'); simpl in *; exact H.
    - simpl. rewrite Hs1. split; [exact Hwf | reflexivity]. }
  destruct H2 as [Hwf2 Hlen2].
  unfold slot.
  destruct (serverList s2 !! N.to_nat (indexNumber id)) as [[e2 |] |] eqn:E2;
    simpl; try discriminate.
  unfold setSlot, bind, get, size_of; simpl.
  assert ((indexNumber id <? N.of_nat (length (serverList s2))) = true) as ->
    by (rewrite Hlen2; exact Hsz).
  simpl. split_and!.
  - apply wellIndexed_insert; [exact Hwf2 | discriminate].
  - rewrite length_insert. exact Hlen2.
  - intros _ _ _. apply list_lookup_insert_eq.
    apply lookup_lt_Some in E2. exact E2.
Qed.

Lemma settles_bind {A B : Type} (c : Call A) (k : A -> Call B)
    (s : ServerList) (Q : A -> ServerList -> Prop)
    (R : B -> ServerList -> Prop) :
  settles (c s) Q ->
  (forall a s', Q a s' -> settles (k a s') R) ->
  settles (bind c k s) R.
Proof.
  intros Hc Hk. unfold bind.
  destruct (c s) as [a s' | f]; simpl in *; [apply Hk; exact Hc | exact Hc].
Qed.

Lemma settles_weaken {A : Type} (o : Outcome A)
    (Q R : A -> ServerList -> Prop) :
  settles o Q -> (forall a s, Q a s -> R a s) -> settles o R.
Proof. destruct o; simpl; auto. Qed.

Lemma settles_LOG (l : LogLevel) (s : ServerList) :
  settles (LOG l s) (fun _ s' => serverList s' = serverList s).
Proof. reflexivity. Qed.

Lemma settles_slot (i : N) (s : ServerList) :
  settles (slot i s)
    (fun e s' => s' = s /\ serverList s !! N.to_nat i = Some e).
Proof.
  unfold slot. destruct (serverList s !! N.to_nat i); simpl.
  - split; reflexivity.
  - discriminate.
Qed.

Lemma add_construct_settles (id : ServerId) (l : string) (sv mb : N)
    (s : ServerList) :
  wellIndexed (serverList s) ->
  settles (add_construct id l sv mb s)
    (fun _ s' =>
       wellIndexed (serverList s')
       /\ exists d, serverList s' !! N.to_nat (indexNumber id) = Some (Some d)
                    /\ serverId d = id /\ status d = UP).
Proof.
  intros Hwf. unfold add_construct.
  eapply settles_bind; [apply settles_slot |].
  intros entry s1 [-> E]. unfold assert.
  destruct (isEmpty entry); [| simpl; discriminate].
  unfold bind at 1. simpl.
  unfold setSlot, bind, get, size_of.
  destruct (indexNumber id <? N.of_nat (length (serverList s))) eqn:Hlt;
    simpl; [| discriminate].
  apply N.ltb_lt in Hlt. split.
  - apply wellIndexed_insert; [exact Hwf |].
    intros d [= <-]. simpl. lia.
  - eexists. split; [apply list_lookup_insert_eq; lia |].
    split; reflexivity.
Qed.

(** [add] on a slot that is vacant, or beyond the end of the vector, calls
    nothing. *)
Lemma add_vacant_settles (remove : ServerId -> Call bool) (id : ServerId)
    (l : string) (sv mb : N) (s : ServerList) :
  wellIndexed (serverList s) ->
  (forall e, serverList s !! N.to_nat (indexNumber id) <> Some (Some e)) ->
  settles (add_body remove id l sv mb s)
    (fun _ s' =>
       wellIndexed (serverList s')
       /\ exists d, serverList s' !! N.to_nat (indexNumber id) = Some (Some d)
                    /\ serverId d = id /\ status d = UP).
Proof.
  intros Hwf Hvac. unfold add_body.
  unfold bind at 1. unfold get.
  eapply settles_bind with
    (Q := fun _ s1 =>
            wellIndexed (serverList s1)
            /\ forall e,
                 serverList s1 !! N.to_nat (indexNumber id) <> Some (Some e)).
  { destruct (size_of s <=? indexNumber id) eqn:Hsz; simpl.
    - split; [apply wellIndexed_resize; exact Hwf |].
      intros e He. apply lookup_app_Some in He.
      destruct He as [He | [_ He]].
      + apply lookup_take_Some in He. destruct He as [He _].
        exact (Hvac e He).
      + apply lookup_replicate in He. destruct He as [He _]. discriminate.
    - split; assumption. }
  intros [] s1 [Hwf1 Hvac1].
  eapply settles_bind; [apply settles_slot |].
  intros entry s2 [-> E].
  destruct entry as [e |]; [exfalso; exact (Hvac1 e E) |].
  apply add_construct_settles. exact Hwf1.
Qed.

Lemma add_settles (depth : nat) (id : ServerId) (l : string) (sv mb : N)
    (s : ServerList) :
  wellIndexed (serverList s) ->
  settles (invoke (S (S (S depth))) (Add id l sv mb) s)
    (fun _ s' => wellIndexed (serverList s')).
Proof.
  intros Hwf. rewrite invoke_Add. unfold add_body.
  unfold bind at 1. unfold get.
  eapply settles_bind with
    (Q := fun _ s1 => wellIndexed (serverList s1)).
  { destruct (size_of s <=? indexNumber id); simpl.
    - apply wellIndexed_resize. exact Hwf.
    - exact Hwf. }
  intros [] s1 Hwf1.
  eapply settles_bind; [apply settles_slot |].
  intros entry s2 [-> E].
  destruct entry as [e |].
  2:{ eapply settles_weaken; [apply add_construct_settles; exact Hwf1 |].
      simpl. tauto. }
  destruct (generationNumber id <? generationNumber (serverId e)).
  { simpl. exact Hwf1. }
  destruct (generationNumber (serverId e) <? generationNumber id).
  2:{ simpl. exact Hwf1. }
  eapply settles_bind; [apply settles_LOG |].
  intros [] s2 Hs2.
  eapply settles_bind.
  { apply remove_settles. rewrite Hs2. exact Hwf1. }
  intros b s3 (Hwf3 & _ & _).
  eapply settles_weaken; [apply add_construct_settles; exact Hwf3 |].
  simpl. tauto.
Qed.

Lemma crashed_settles (depth : nat) (id : ServerId) (l : string)
    (sv mb : N) (s : ServerList) :
  wellIndexed (serverList s) ->
  settles (invoke (S (S (S depth))) (Crashed id l sv mb) s)
    (fun _ s' => wellIndexed (serverList s')).
Proof.
  intros Hwf. rewrite invoke_Crashed. unfold crashed_body.
  unfold bind at 1. unfold get.
  pose (mark_ok := fun s0 (H : wellIndexed (serverList s0)) =>
          settles_weaken _ _ (fun _ s' => wellIndexed (serverList s'))
            (crashed_mark_settles id s0 H)
            (fun _ _ H' => proj1 H')).
  eapply settles_bind with
    (Q := fun _ s1 =>
            wellIndexed (serverList s1)
            /\ ((forall e, serverList s !! N.to_nat (indexNumber id)
                           <> Some (Some e)) ->
                exists d, serverList s1 !! N.to_nat (indexNumber id)
                          = Some (Some d)
                          /\ serverId d = id /\ status d = UP)
            /\ ((exists e, serverList s !! N.to_nat (indexNumber id)
                           = Some (Some e)) ->
                serverList s1 = serverList s)).
  { destruct ((size_of s <=? indexNumber id)
              || match serverList s !! N.to_nat (indexNumber id) with
                 | Some (Some _) => false
                 | _ => true
                 end) eqn:Hc.
    - assert (forall e, serverList s !! N.to_nat (indexNumber id)
                        <> Some (Some e)) as Hvac.
      { intros e He. apply orb_true_iff in Hc. destruct Hc as [Hc | Hc].
        - apply N.leb_le in Hc. apply lookup_lt_Some in He.
          unfold size_of in Hc. lia.
        - rewrite He in Hc. discriminate. }
      eapply settles_bind.
      { rewrite invoke_Add. apply add_vacant_settles; assumption. }
      intros b s1 [Hwf1 Hd]. simpl. split_and!.
      + exact Hwf1.
      + intros _. exact Hd.
      + intros [e He]. exfalso. exact (Hvac e He).
    - simpl. split_and!.
      + exact Hwf.
      + intros Hvac. exfalso. apply orb_false_iff in Hc.
        destruct Hc as [_ Hc].
        destruct (serverList s !! N.to_nat (indexNumber id)) as [[e |] |];
          [exact (Hvac e eq_refl) | discriminate | discriminate].
      + reflexivity. }
  intros [] s1 (Hwf1 & Hnew & Hold).
  eapply settles_bind; [apply settles_slot |].
  intros entry s2 [-> E].
  destruct entry as [e |]; [| apply mark_ok; exact Hwf1].
  destruct (generationNumber id <? generationNumber (serverId e)) eqn:Hlt.
  { simpl. exact Hwf1. }
  destruct (generationNumber (serverId e) <? generationNumber id) eqn:Hgt.
  2:{ destruct (ServerStatus_eqb (status e) CRASHED).
      - simpl. exact Hwf1.
      - apply mark_ok. exact Hwf1. }
  eapply settles_bind; [apply settles_LOG |].
  intros [] s2 Hs2.
  assert (indexNumber (serverId e) = indexNumber id) as Hidx.
  { rewrite (Hwf1 _ _ E). lia. }
  eapply settles_bind.
  { apply remove_settles. rewrite Hs2. exact Hwf1. }
  intros b s3 (Hwf3 & _ & Hgone).
  rewrite Hs2, Hidx in Hgone. specialize (Hgone e E (N.le_refl _)).
  eapply settles_bind.
  { rewrite invoke_Add. apply add_vacant_settles; [exact Hwf3 |].
    intros e' He'. rewrite Hgone in He'. discriminate. }
  intros b' s4 [Hwf4 _].
  apply mark_ok. exact Hwf4.
Qed.

(** With three levels no call of [add], [crashed] or [remove] on a list
    whose entries sit in their own slots is cut short, and the entries of
    the list it leaves sit in their own slots. *)
Lemma invoke_settles (r : Request) (s : ServerList) :
  wellIndexed (serverList s) ->
  settles (invoke callDepth r s) (fun _ s' => wellIndexed (serverList s')).
Proof.
  intros Hwf. unfold callDepth. destruct r as [id l sv mb | id l sv mb | id].
  - apply add_settles. exact Hwf.
  - apply crashed_settles. exact Hwf.
  - eapply settles_weaken; [apply remove_settles; exact Hwf |].
    simpl. tauto.
Qed.

Lemma settles_ret {A : Type} (a : A) (s : ServerList) :
  sound s -> settles (ret a s) (fun _ s' => sound s').
Proof. intros H. exact H. Qed.

Lemma settles_assert (b : bool) (s : ServerList) :
  sound s -> settles (assert b s) (fun _ s' => sound s').
Proof. intros H. destruct b; simpl; [exact H | discriminate]. Qed.

Lemma settles_LOG_sound (l : LogLevel) (s : ServerList) :
  sound s -> settles (LOG l s) (fun _ s' => sound s').
Proof. intros H. exact H. Qed.

Lemma settles_call (r : Request) (s : ServerList) :
  sound s ->
  settles (bind (invoke callDepth r) (fun _ => ret tt) s)
    (fun _ s' => sound s').
Proof.
  intros H. eapply settles_bind; [apply invoke_settles; exact H |].
  intros b s' Hs'. exact Hs'.
Qed.

Lemma forEach_settles {A : Type} (f : A -> Call unit) (l : list A)
    (s : ServerList) :
  sound s ->
  (forall x s0, sound s0 -> settles (f x s0) (fun _ s' => sound s')) ->
  settles (forEach f l s) (fun _ s' => sound s').
Proof.
  intros Hs Hf. revert s Hs. induction l as [| x l IH]; intros s Hs; simpl.
  - exact Hs.
  - eapply settles_bind; [apply Hf; exact Hs |].
    intros [] s' Hs'. apply IH. exact Hs'.
Qed.

Section Updates.
Variable isValid : ServerId -> bool.

Lemma applyFullList_settles (lst : ProtoBuf_ServerList) (s : ServerList) :
  sound s ->
  settles (applyFullList isValid lst s) (fun _ s' => sound s').
Proof.
  intros Hs. unfold applyFullList.
  eapply settles_bind; [apply settles_assert; exact Hs |].
  intros [] s1 Hs1.
  eapply settles_bind; [apply settles_LOG_sound; exact Hs1 |].
  intros [] s2 Hs2.
  eapply settles_bind with (Q := fun _ s' => sound s').
  { generalize (server lst) as entries.
    assert (settles (ret (A := list ServerId) [] s2)
              (fun _ s' => sound s')) as Hc by exact Hs2.
    revert Hc. generalize (ret (A := list ServerId) []) as c.
    intros c Hc entries. revert c Hc.
    induction entries as [| e entries IH]; intros c Hc; simpl.
    - exact Hc.
    - apply IH. eapply settles_bind; [exact Hc |].
      intros ids s' Hs'.
      destruct (ServerStatus_eqb (entry_status e) DOWN).
      + eapply settles_bind; [apply settles_LOG_sound; exact Hs' |].
        intros [] s'' Hs''. exact Hs''.
      + eapply settles_bind; [apply settles_assert; exact Hs' |].
        intros [] s'' Hs''. exact Hs''. }
  intros listIds s3 Hs3.
  unfold bind at 1. unfold get.
  eapply settles_bind.
  { apply forEach_settles; [exact Hs3 |].
    intros index s0 Hs0.
    eapply settles_bind with (Q := fun _ s' => sound s').
    { eapply settles_weaken; [apply settles_slot |].
      simpl. intros ? ? [-> _]. exact Hs0. }
    intros [e |] s' Hs'; [| exact Hs'].
    eapply settles_bind; [apply settles_assert; exact Hs' |].
    intros [] s'' Hs''.
    destruct (existsb _ listIds); [exact Hs'' |].
    apply (settles_call (Remove (serverId e))). exact Hs''. }
  intros [] s4 Hs4.
  eapply settles_bind.
  { apply forEach_settles; [exact Hs4 |].
    intros e s0 Hs0.
    destruct (ServerStatus_eqb (entry_status e) CRASHED); [| exact Hs0].
    apply (settles_call (Crashed _ _ _ _)). exact Hs0. }
  intros [] s5 Hs5.
  eapply settles_bind.
  { apply forEach_settles; [exact Hs5 |].
    intros e s0 Hs0.
    destruct (ServerStatus_eqb (entry_status e) UP); [| exact Hs0].
    apply (settles_call (Add _ _ _ _)). exact Hs0. }
  intros [] s6 Hs6.
  exact Hs6.
Qed.

Lemma applyEntries_settles (l : list ProtoBuf_Entry) (s : ServerList) :
  sound s ->
  settles (applyEntries isValid l s) (fun _ s' => sound s').
Proof.
  revert s. induction l as [| e l IH]; intros s Hs; simpl.
  - exact Hs.
  - eapply settles_bind; [apply settles_assert; exact Hs |].
    intros [] s1 Hs1.
    destruct (entry_status e).
    + eapply settles_bind; [apply settles_LOG_sound; exact Hs1 |].
      intros [] s2 Hs2.
      eapply settles_bind; [apply (invoke_settles (Add _ _ _ _)); exact Hs2 |].
      intros b s3 Hs3. apply IH. exact Hs3.
    + unfold bind at 1. unfold get.
      destruct (iget (server_id e) s1).
      * eapply settles_bind; [apply settles_LOG_sound; exact Hs1 |].
        intros [] s2 Hs2.
        eapply settles_bind;
          [apply (invoke_settles (Crashed _ _ _ _)); exact Hs2 |].
        intros b s3 Hs3. apply IH. exact Hs3.
      * exact Hs1.
    + unfold bind at 1. unfold get.
      destruct (iget (server_id e) s1).
      * eapply settles_bind; [apply settles_LOG_sound; exact Hs1 |].
        intros [] s2 Hs2.
        eapply settles_bind;
          [apply (invoke_settles (Remove _)); exact Hs2 |].
        intros b s3 Hs3. apply IH. exact Hs3.
      * exact Hs1.
Qed.

Lemma applyUpdate_settles (update : ProtoBuf_ServerList) (s : ServerList) :
  sound s ->
  settles (applyUpdate isValid update s) (fun _ s' => sound s').
Proof.
  intros Hs. unfold applyUpdate.
  eapply settles_bind; [apply settles_assert; exact Hs |].
  intros [] s1 Hs1.
  unfold bind at 1. unfold get.
  destruct (negb _); [exact Hs1 |].
  eapply settles_bind; [apply settles_LOG_sound; exact Hs1 |].
  intros [] s2 Hs2.
  eapply settles_bind; [apply applyEntries_settles; exact Hs2 |].
  intros [] s3 Hs3; exact Hs3.
Qed.

(** [applyServerList] never runs out of depth on a list whose entries sit
    in their own slots, and it leaves such a list. *)
Lemma applyServerList_settles (lst : ProtoBuf_ServerList) (s : ServerList) :
  sound s ->
  settles (applyServerList isValid lst s) (fun _ s' => sound s').
Proof.
  intros Hs. unfold applyServerList.
  unfold bind at 1. unfold get.
  destruct (version_number lst <=? version s); [exact Hs |].
  eapply settles_bind; [apply settles_LOG_sound; exact Hs |].
  intros [] s1 Hs1.
  destruct (type lst).
  - apply applyFullList_settles. exact Hs1.
  - eapply settles_bind; [apply applyUpdate_settles; exact Hs1 |].
    intros [] s2 Hs2; simpl; [exact Hs2 | discriminate].
Qed.

End Updates.

(** *** Old and repeated lists *)

(** The full list fills slots 1 and 2, tells the tracker about two
    additions and one crash, and fires its callback once. *)
Example applyServerList_full_list :
  map (option_map status) (serverList list5)
  = [None; Some UP; Some CRASHED]
  /\ version list5 = 5
  /\ map (fun tr => (map snd (changes tr), callbacksFired tr))
       (trackers list5)
     = [([SERVER_ADDED; SERVER_CRASHED; SERVER_ADDED], 1%nat)].
Proof. vm_compute. split_and!; reflexivity. Qed.

(** The next update removes server 1.0 and adds its successor 1.1. *)
Example applyServerList_update :
  let s := stateOf (applyServerList alwaysValid update6 list5) in
  map (option_map (fun d => (generationNumber (serverId d), status d)))
    (serverList s)
  = [None; Some (1, UP); Some (0, CRASHED)]
  /\ version s = 6.
Proof. vm_compute. split; reflexivity. Qed.

(** An update that skips a version makes [applyServerList] die. *)
Example applyServerList_lost_update :
  applyServerList alwaysValid
    {| version_number := 7; type := ServerList_Type_UPDATE; server := [] |}
    list5
  = Stopped Died.
Proof. vm_compute. reflexivity. Qed.

(** C10. When the coordinator's list carries a version number that is not
    above the version of the server list, [applyServerList] returns at
    once: the slots, the version and every registered tracker are as they
    were; the only trace is the NOTICE it logs. *)
Theorem applyServerList_ignores_old_versions (isValid : ServerId -> bool)
    (lst : ProtoBuf_ServerList) (s : ServerList) :
  version_number lst <= version s ->
  exists s' : ServerList,
    applyServerList isValid lst s = Returned tt s'
    /\ serverList s' = serverList s
    /\ version s' = version s
    /\ trackers s' = trackers s
    /\ logged s' = logged s ++ [NOTICE].
Proof.
  intros Hold. unfold applyServerList, bind, get.
  apply N.leb_le in Hold. rewrite Hold.
  eexists. split; [reflexivity |]. simpl.
  split_and!; reflexivity.
Qed.

(** The stale update of version 3, and a repetition of the full list of
    version 5, leave the list of version 5 alone. *)
Lemma applyServerList_ignores_old_versions_witness :
  (exists s' : ServerList,
      applyServerList alwaysValid staleUpdate3 list5 = Returned tt s'
      /\ serverList s' = serverList list5
      /\ version s' = version list5
      /\ trackers s' = trackers list5
      /\ logged s' = logged list5 ++ [NOTICE])
  /\ (exists s' : ServerList,
         applyServerList alwaysValid fullList5 list5 = Returned tt s'
         /\ serverList s' = serverList list5
         /\ version s' = version list5
         /\ trackers s' = trackers list5
         /\ logged s' = logged list5 ++ [NOTICE]).
Proof.
  split.
  - apply (applyServerList_ignores_old_versions alwaysValid staleUpdate3
             list5).
    vm_compute. discriminate.
  - apply (applyServerList_ignores_old_versions alwaysValid fullList5
             list5).
    vm_compute. discriminate.
Defined.

End MembershipProperties.
(** ** The server list, method by method *)

Section MembershipOperations.
Import Membership Examples.

Local Arguments invoke : simpl never.

(** *** Trackers and effects *)

Lemma notify_nil (tr : Tracker) : notify [] tr = tr.
Proof. destruct tr. unfold notify; simpl. rewrite app_nil_r. reflexivity. Qed.

Lemma notify_notify evs1 evs2 tr :
  notify evs2 (notify evs1 tr) = notify (evs1 ++ evs2) tr.
Proof. unfold notify; simpl. rewrite app_assoc. reflexivity. Qed.

Lemma enqueueChange_notify d e tr : enqueueChange d e tr = notify [(d, e)] tr.
Proof. reflexivity. Qed.

Lemma effect_refl s : effect s s (serverList s) [].
Proof.
  split_and!; try reflexivity.
  rewrite (map_ext _ id); [symmetry; apply map_id |]. apply notify_nil.
Qed.

Lemma effect_trans s s1 s2 l1 l2 ev1 ev2 :
  effect s s1 l1 ev1 -> effect s1 s2 l2 ev2 -> effect s s2 l2 (ev1 ++ ev2).
Proof.
  intros (H1 & H2 & H3) (H4 & H5 & H6). split_and!.
  - exact H4.
  - rewrite H5, H2, map_map. apply map_ext. intros tr. apply notify_notify.
  - congruence.
Qed.

Lemma effect_LOG l s :
  exists s', LOG l s = Returned tt s' /\ effect s s' (serverList s) [].
Proof.
  eexists. split; [reflexivity |]. apply (effect_refl s).
Qed.

(** *** [crashed], [remove] and [add], case by case

    Each lemma gives the outcome of one case of a method, at any depth
    that is enough for the calls the case makes. *)

Lemma crashed_mark_up (id : ServerId) (s : ServerList) (e : ServerDetails) :
  serverList s !! N.to_nat (indexNumber id) = Some (Some e) ->
  serverId e = id -> status e = UP ->
  exists s',
    crashed_mark id s = Returned true s'
    /\ effect s s'
         (<[N.to_nat (indexNumber id) := Some (asCrashed e)]> (serverList s))
         [crashEvent id].
Proof.
  intros E Hid Hup. unfold crashed_mark, bind, slot. rewrite E.
  assert (ServerId_eqb (serverId e) id = true) as ->.
  { subst id. unfold ServerId_eqb. rewrite !N.eqb_refl. reflexivity. }
  rewrite Hup. simpl.
  unfold setSlot, bind, get, size_of.
  assert ((indexNumber id <? N.of_nat (length (serverList s))) = true) as ->.
  { apply N.ltb_lt. apply lookup_lt_Some in E. lia. }
  simpl. eexists. split; [reflexivity |].
  split_and!; simpl; try reflexivity. subst id. reflexivity.
Qed.

Lemma crashed_body_present add remove id l sv mb s e :
  serverList s !! N.to_nat (indexNumber id) = Some (Some e) ->
  crashed_body add remove id l sv mb s
  = (if generationNumber id <? generationNumber (serverId e) then
       bind (LOG WARNING) (fun _ => ret false)
     else if generationNumber (serverId e) <? generationNumber id then
       bind (LOG WARNING) (fun _ =>
         bind (remove (serverId e)) (fun _ =>
           bind (add id l sv mb) (fun _ => crashed_mark id)))
     else if ServerStatus_eqb (status e) CRASHED then
       bind (LOG WARNING) (fun _ => ret false)
     else crashed_mark id) s.
Proof.
  intros E. unfold crashed_body. unfold bind at 1. unfold get.
  unfold bind at 1. unfold size_of.
  assert ((N.of_nat (length (serverList s)) <=? indexNumber id) = false)
    as ->.
  { apply N.leb_gt. apply lookup_lt_Some in E. lia. }
  rewrite E. simpl. unfold bind at 1. unfold slot. rewrite E. reflexivity.
Qed.

Lemma crashed_up (depth : nat) (id : ServerId) (l : string) (sv mb : N)
    (s : ServerList) (e : ServerDetails) :
  serverList s !! N.to_nat (indexNumber id) = Some (Some e) ->
  serverId e = id -> status e = UP ->
  exists s',
    invoke (S depth) (Crashed id l sv mb) s = Returned true s'
    /\ effect s s'
         (<[N.to_nat (indexNumber id) := Some (asCrashed e)]> (serverList s))
         [crashEvent id].
Proof.
  intros E Hid Hup. rewrite invoke_Crashed.
  rewrite (crashed_body_present _ _ _ _ _ _ _ _ E).
  rewrite Hid, N.ltb_irrefl, Hup. simpl.
  apply crashed_mark_up; assumption.
Qed.

Lemma crashed_ignored (depth : nat) (id : ServerId) (l : string)
    (sv mb : N) (s : ServerList) (e : ServerDetails) :
  serverList s !! N.to_nat (indexNumber id) = Some (Some e) ->
  generationNumber id < generationNumber (serverId e)
  \/ (generationNumber id = generationNumber (serverId e)
      /\ status e = CRASHED) ->
  exists s',
    invoke (S depth) (Crashed id l sv mb) s = Returned false s'
    /\ effect s s' (serverList s) [].
Proof.
  intros E Hcase. rewrite invoke_Crashed.
  rewrite (crashed_body_present _ _ _ _ _ _ _ _ E).
  destruct Hcase as [Hlt | [Heq Hst]].
  - apply N.ltb_lt in Hlt. rewrite Hlt.
    eexists. split; [reflexivity |]. apply (effect_refl s).
  - rewrite Heq, N.ltb_irrefl, Hst. simpl.
    eexists. split; [reflexivity |]. apply (effect_refl s).
Qed.

Lemma remove_unknown (depth : nat) (id : ServerId) (s : ServerList) :
  (forall e, serverList s !! N.to_nat (indexNumber id) = Some (Some e) ->
             generationNumber id < generationNumber (serverId e)) ->
  exists s',
    invoke (S depth) (Remove id) s = Returned false s'
    /\ effect s s' (serverList s) [].
Proof.
  intros Hunk. rewrite invoke_Remove. unfold remove_body.
  unfold bind at 1. unfold get, size_of.
  destruct (indexNumber id <? N.of_nat (length (serverList s))).
  2:{ eexists. split; [reflexivity |]. apply (effect_refl s). }
  destruct (serverList s !! N.to_nat (indexNumber id)) as [[e |] |] eqn:E.
  - specialize (Hunk e eq_refl). apply N.ltb_lt in Hunk. rewrite Hunk.
    eexists. split; [reflexivity |]. apply (effect_refl s).
  - eexists. split; [reflexivity |]. apply (effect_refl s).
  - eexists. split; [reflexivity |]. apply (effect_refl s).
Qed.

Lemma remove_known (depth : nat) (id : ServerId) (s : ServerList)
    (e : ServerDetails) :
  wellIndexed (serverList s) ->
  serverList s !! N.to_nat (indexNumber id) = Some (Some e) ->
  generationNumber (serverId e) <= generationNumber id ->
  exists s',
    invoke (S (S depth)) (Remove id) s = Returned true s'
    /\ effect s s' (<[N.to_nat (indexNumber id) := None]> (serverList s))
         (removalEvents e).
Proof.
  intros Hwf E Hle. rewrite invoke_Remove. unfold remove_body.
  unfold bind at 1. unfold get, size_of.
  assert (N.to_nat (indexNumber id) < length (serverList s))%nat as Hlen
    by (eapply lookup_lt_Some; exact E).
  assert ((indexNumber id <? N.of_nat (length (serverList s))) = true) as Hsz
    by (apply N.ltb_lt; lia).
  rewrite Hsz, E.
  assert ((generationNumber id <? generationNumber (serverId e)) = false)
    as -> by (apply N.ltb_ge; exact Hle).
  (* the optional warning *)
  assert (exists s1,
            (if generationNumber (serverId e) <? generationNumber id
             then LOG WARNING else ret tt) s = Returned tt s1
            /\ effect s s1 (serverList s) []) as (s1 & E1 & Heff1).
  { destruct (generationNumber (serverId e) <? generationNumber id).
    - apply effect_LOG.
    - eexists. split; [reflexivity |]. apply (effect_refl s). }
  unfold bind at 1. rewrite E1.
  assert (indexNumber (serverId e) = indexNumber id) as Hidx.
  { rewrite (Hwf _ _ E). lia. }
  unfold removalEvents.
  destruct Heff1 as (Hs1 & Ht1 & Hv1).
  destruct (status e) eqn:Hst; simpl ServerStatus_eqb; cbv iota.
  - (* UP: crashed first *)
    destruct (crashed_up depth (serverId e) (serviceLocator e) (services e)
                (expectedReadMBytesPerSec e) s1 e) as (s2 & E2 & Heff2).
    { rewrite Hidx, Hs1. exact E. }
    { reflexivity. }
    { exact Hst. }
    unfold bind at 1. unfold bind at 1. rewrite E2.
    destruct Heff2 as (Hs2 & Ht2 & Hv2). rewrite Hidx, Hs1 in Hs2.
    simpl. unfold bind at 1. unfold slot. rewrite Hs2.
    rewrite list_lookup_insert_eq by exact Hlen.
    simpl. unfold setSlot, bind, get, size_of; simpl.
    rewrite Hs2, length_insert, Hsz. simpl.
    eexists. split; [reflexivity |]. split_and!; simpl.
    + apply list_insert_insert_eq.
    + rewrite Ht2, Ht1, !map_map. apply map_ext. intros tr.
      rewrite ?notify_nil. unfold enqueueChange, notify; simpl.
      rewrite <- ?app_assoc. reflexivity.
    + congruence.
  - (* CRASHED *)
    unfold bind at 1. simpl. unfold bind at 1. unfold slot. rewrite Hs1, E.
    simpl. unfold setSlot, bind, get, size_of; simpl.
    rewrite Hs1, Hsz. simpl.
    eexists. split; [reflexivity |]. split_and!; simpl.
    + reflexivity.
    + rewrite Ht1, !map_map. apply map_ext. intros tr.
      rewrite ?notify_nil. unfold enqueueChange, notify; simpl.
      rewrite <- ?app_assoc. reflexivity.
    + congruence.
  - (* DOWN is never stored, but the code treats it like CRASHED *)
    unfold bind at 1. simpl. unfold bind at 1. unfold slot. rewrite Hs1, E.
    simpl. unfold setSlot, bind, get, size_of; simpl.
    rewrite Hs1, Hsz. simpl.
    eexists. split; [reflexivity |]. split_and!; simpl.
    + reflexivity.
    + rewrite Ht1, !map_map. apply map_ext. intros tr.
      rewrite ?notify_nil. unfold enqueueChange, notify; simpl.
      rewrite <- ?app_assoc. reflexivity.
    + congruence.
Qed.

Lemma grown_lookup_vacant (index : nat) (l : list (option ServerDetails)) :
  (forall e, l !! index <> Some (Some e)) ->
  grown index l !! index = Some None.
Proof.
  intros Hvac. unfold grown.
  destruct (decide (index < length l)%nat) as [Hlt | Hge].
  - rewrite lookup_app_l by exact Hlt.
    destruct (lookup_lt_is_Some_2 l index Hlt) as [[e |] He].
    + exfalso. exact (Hvac e He).
    + exact He.
  - rewrite lookup_app_r by lia.
    apply lookup_replicate. split; [reflexivity | lia].
Qed.

Lemma add_construct_vacant id l sv mb s :
  serverList s !! N.to_nat (indexNumber id) = Some None ->
  exists s',
    add_construct id l sv mb s = Returned true s'
    /\ effect s s'
         (<[N.to_nat (indexNumber id) := Some (newDetails id l sv mb)]>
            (serverList s))
         [addEvent (newDetails id l sv mb)].
Proof.
  intros E. unfold add_construct, bind, slot. rewrite E. simpl.
  unfold setSlot, bind, get, size_of.
  assert ((indexNumber id <? N.of_nat (length (serverList s))) = true) as ->.
  { apply N.ltb_lt. apply lookup_lt_Some in E. lia. }
  simpl. eexists. split; [reflexivity |].
  split_and!; reflexivity.
Qed.

Lemma add_fresh remove id l sv mb s :
  (forall e, serverList s !! N.to_nat (indexNumber id) <> Some (Some e)) ->
  (size_of s <= indexNumber id -> indexNumber id + 1 < 2 ^ 32) ->
  exists s',
    add_body remove id l sv mb s = Returned true s'
    /\ effect s s'
         (<[N.to_nat (indexNumber id) := Some (newDetails id l sv mb)]>
            (grown (N.to_nat (indexNumber id)) (serverList s)))
         [addEvent (newDetails id l sv mb)].
Proof.
  intros Hvac Hidx. unfold add_body.
  unfold bind at 1. unfold get.
  pose proof (grown_lookup_vacant _ _ Hvac) as Hg.
  assert (exists s1,
            (if size_of s <=? indexNumber id
             then resize ((indexNumber id + 1) mod 2 ^ 32) else ret tt) s
            = Returned tt s1
            /\ effect s s1 (grown (N.to_nat (indexNumber id)) (serverList s))
                 []) as (s1 & E1 & Hs1 & Ht1 & Hv1).
  { unfold size_of.
    destruct (N.of_nat (length (serverList s)) <=? indexNumber id) eqn:Hsz.
    - apply N.leb_le in Hsz. rewrite N.mod_small by exact (Hidx Hsz).
      eexists. split; [reflexivity |].
      destruct (effect_refl s) as (_ & Ht & Hv).
      split_and!; simpl; [| exact Ht | exact Hv].
      unfold grown. rewrite take_ge by lia. f_equal. f_equal. lia.
    - apply N.leb_gt in Hsz. eexists. split; [reflexivity |].
      destruct (effect_refl s) as (_ & Ht & Hv).
      split_and!; [| exact Ht | exact Hv].
      unfold grown.
      replace (N.to_nat (indexNumber id) + 1 - length (serverList s))%nat
        with 0%nat by lia.
      simpl. rewrite app_nil_r. reflexivity. }
  unfold bind at 1. rewrite E1.
  unfold bind at 1. unfold slot. rewrite Hs1, Hg.
  destruct (add_construct_vacant id l sv mb s1) as (s2 & E2 & Heff2).
  { rewrite Hs1. exact Hg. }
  exists s2. split; [exact E2 |].
  rewrite Hs1 in Heff2.
  exact (effect_trans _ _ _ _ _ _ _ (conj Hs1 (conj Ht1 Hv1)) Heff2).
Qed.

Lemma add_body_present remove id l sv mb s e :
  serverList s !! N.to_nat (indexNumber id) = Some (Some e) ->
  add_body remove id l sv mb s
  = (if generationNumber id <? generationNumber (serverId e) then
       bind (LOG WARNING) (fun _ => ret false)
     else if generationNumber (serverId e) <? generationNumber id then
       bind (LOG WARNING) (fun _ =>
         bind (remove (serverId e)) (fun _ => add_construct id l sv mb))
     else bind (LOG WARNING) (fun _ => ret false)) s.
Proof.
  intros E. unfold add_body. unfold bind at 1. unfold get.
  unfold bind at 1. unfold size_of.
  assert ((N.of_nat (length (serverList s)) <=? indexNumber id) = false)
    as ->.
  { apply N.leb_gt. apply lookup_lt_Some in E. lia. }
  simpl. unfold bind at 1. unfold slot. rewrite E. reflexivity.
Qed.

Lemma add_ignored remove id l sv mb s e :
  serverList s !! N.to_nat (indexNumber id) = Some (Some e) ->
  generationNumber id <= generationNumber (serverId e) ->
  exists s',
    add_body remove id l sv mb s = Returned false s'
    /\ effect s s' (serverList s) [].
Proof.
  intros E Hle. rewrite (add_body_present _ _ _ _ _ _ _ E).
  destruct (generationNumber id <? generationNumber (serverId e)) eqn:Hlt.
  - eexists. split; [reflexivity |]. apply (effect_refl s).
  - assert ((generationNumber (serverId e) <? generationNumber id) = false)
      as -> by (apply N.ltb_ge; exact Hle).
    eexists. split; [reflexivity |]. apply (effect_refl s).
Qed.

Lemma add_replaces depth id l sv mb s e :
  wellIndexed (serverList s) ->
  serverList s !! N.to_nat (indexNumber id) = Some (Some e) ->
  generationNumber (serverId e) < generationNumber id ->
  exists s',
    invoke (S (S (S depth))) (Add id l sv mb) s = Returned true s'
    /\ effect s s'
         (<[N.to_nat (indexNumber id) := Some (newDetails id l sv mb)]>
            (serverList s))
         (removalEvents e ++ [addEvent (newDetails id l sv mb)]).
Proof.
  intros Hwf E Hlt. rewrite invoke_Add.
  rewrite (add_body_present _ _ _ _ _ _ _ E).
  assert ((generationNumber id <? generationNumber (serverId e)) = false)
    as -> by (apply N.ltb_ge; lia).
  assert ((generationNumber (serverId e) <? generationNumber id) = true)
    as -> by (apply N.ltb_lt; exact Hlt).
  destruct (effect_LOG WARNING s) as (s1 & E1 & Heff1).
  unfold bind at 1. rewrite E1.
  assert (indexNumber (serverId e) = indexNumber id) as Hidx.
  { rewrite (Hwf _ _ E). lia. }
  pose proof Heff1 as (Hs1 & _ & _).
  destruct (remove_known depth (serverId e) s1 e) as (s2 & E2 & Heff2).
  { rewrite Hs1. exact Hwf. }
  { rewrite Hidx, Hs1. exact E. }
  { lia. }
  unfold bind at 1. rewrite E2.
  rewrite Hidx, Hs1 in Heff2.
  pose proof Heff2 as (Hs2 & _ & _).
  assert (N.to_nat (indexNumber id) < length (serverList s))%nat as Hlen
    by (eapply lookup_lt_Some; exact E).
  destruct (add_construct_vacant id l sv mb s2) as (s3 & E3 & Heff3).
  { rewrite Hs2. apply list_lookup_insert_eq. exact Hlen. }
  exists s3. split; [exact E3 |].
  rewrite Hs2, list_insert_insert_eq in Heff3.
  pose proof (effect_trans _ _ _ _ _ _ _
                (effect_trans _ _ _ _ _ _ _ Heff1 Heff2) Heff3) as H.
  exact H.
Qed.

Lemma crashed_fresh depth id l sv mb s :
  (forall e, serverList s !! N.to_nat (indexNumber id) <> Some (Some e)) ->
  (size_of s <= indexNumber id -> indexNumber id + 1 < 2 ^ 32) ->
  exists s',
    invoke (S (S depth)) (Crashed id l sv mb) s = Returned true s'
    /\ effect s s'
         (<[N.to_nat (indexNumber id) :=
              Some (asCrashed (newDetails id l sv mb))]>
            (grown (N.to_nat (indexNumber id)) (serverList s)))
         [addEvent (newDetails id l sv mb); crashEvent id].
Proof.
  intros Hvac Hidx. rewrite invoke_Crashed. unfold crashed_body.
  unfold bind at 1. unfold get.
  assert (((size_of s <=? indexNumber id)
           || match serverList s !! N.to_nat (indexNumber id) with
              | Some (Some _) => false
              | _ => true
              end) = true) as ->.
  { destruct (serverList s !! N.to_nat (indexNumber id)) as [[e |] |] eqn:E.
    - exfalso. exact (Hvac e eq_refl).
    - apply orb_true_r.
    - apply orb_true_r. }
  rewrite invoke_Add.
  destruct (add_fresh (fun i => invoke depth (Remove i)) id l sv mb s Hvac
              Hidx) as (s1 & E1 & Heff1).
  unfold bind at 1. unfold bind at 1. rewrite E1. simpl.
  pose proof Heff1 as (Hs1 & _ & _).
  assert (N.to_nat (indexNumber id)
          < length (grown (N.to_nat (indexNumber id)) (serverList s)))%nat
    as Hlen.
  { eapply lookup_lt_Some. apply grown_lookup_vacant. exact Hvac. }
  assert (serverList s1 !! N.to_nat (indexNumber id)
          = Some (Some (newDetails id l sv mb))) as E1'.
  { rewrite Hs1. apply list_lookup_insert_eq. exact Hlen. }
  unfold bind at 1. unfold slot. rewrite E1'. simpl.
  rewrite N.ltb_irrefl. simpl.
  destruct (crashed_mark_up id s1 _ E1' eq_refl eq_refl)
    as (s2 & E2 & Heff2).
  exists s2. split; [exact E2 |].
  rewrite Hs1, list_insert_insert_eq in Heff2.
  exact (effect_trans _ _ _ _ _ _ _ Heff1 Heff2).
Qed.

Lemma add_empty_slot remove id l sv mb s :
  serverList s !! N.to_nat (indexNumber id) = Some None ->
  exists s',
    add_body remove id l sv mb s = Returned true s'
    /\ effect s s'
         (<[N.to_nat (indexNumber id) := Some (newDetails id l sv mb)]>
            (serverList s))
         [addEvent (newDetails id l sv mb)].
Proof.
  intros E. unfold add_body. unfold bind at 1. unfold get.
  unfold bind at 1. unfold size_of.
  assert ((N.of_nat (length (serverList s)) <=? indexNumber id) = false)
    as ->.
  { apply N.leb_gt. apply lookup_lt_Some in E. lia. }
  simpl. unfold bind at 1. unfold slot. rewrite E.
  apply add_construct_vacant. exact E.
Qed.

Lemma crashed_replaces depth id l sv mb s e :
  wellIndexed (serverList s) ->
  serverList s !! N.to_nat (indexNumber id) = Some (Some e) ->
  generationNumber (serverId e) < generationNumber id ->
  exists s',
    invoke (S (S (S depth))) (Crashed id l sv mb) s = Returned true s'
    /\ effect s s'
         (<[N.to_nat (indexNumber id) :=
              Some (asCrashed (newDetails id l sv mb))]> (serverList s))
         (removalEvents e
          ++ [addEvent (newDetails id l sv mb); crashEvent id]).
Proof.
  intros Hwf E Hlt. rewrite invoke_Crashed.
  rewrite (crashed_body_present _ _ _ _ _ _ _ _ E).
  assert ((generationNumber id <? generationNumber (serverId e)) = false)
    as -> by (apply N.ltb_ge; lia).
  assert ((generationNumber (serverId e) <? generationNumber id) = true)
    as -> by (apply N.ltb_lt; exact Hlt).
  destruct (effect_LOG WARNING s) as (s1 & E1 & Heff1).
  unfold bind at 1. rewrite E1.
  assert (indexNumber (serverId e) = indexNumber id) as Hidx.
  { rewrite (Hwf _ _ E). lia. }
  pose proof Heff1 as (Hs1 & _ & _).
  destruct (remove_known depth (serverId e) s1 e) as (s2 & E2 & Heff2).
  { rewrite Hs1. exact Hwf. }
  { rewrite Hidx, Hs1. exact E. }
  { lia. }
  unfold bind at 1. rewrite E2.
  rewrite Hidx, Hs1 in Heff2.
  pose proof Heff2 as (Hs2 & _ & _).
  assert (N.to_nat (indexNumber id) < length (serverList s))%nat as Hlen
    by (eapply lookup_lt_Some; exact E).
  assert (serverList s2 !! N.to_nat (indexNumber id) = Some None) as E2'.
  { rewrite Hs2. apply list_lookup_insert_eq. exact Hlen. }
  rewrite invoke_Add.
  destruct (add_empty_slot (fun i => invoke (S depth) (Remove i)) id l sv mb
              s2 E2') as (s3 & E3 & Heff3).
  unfold bind at 1. rewrite E3.
  rewrite Hs2, list_insert_insert_eq in Heff3.
  pose proof Heff3 as (Hs3 & _ & _).
  assert (serverList s3 !! N.to_nat (indexNumber id)
          = Some (Some (newDetails id l sv mb))) as E3'.
  { rewrite Hs3. apply list_lookup_insert_eq. exact Hlen. }
  destruct (crashed_mark_up id s3 _ E3' eq_refl eq_refl)
    as (s4 & E4 & Heff4).
  exists s4. split; [exact E4 |].
  rewrite Hs3, list_insert_insert_eq in Heff4.
  pose proof (effect_trans _ _ _ _ _ _ _
                (effect_trans _ _ _ _ _ _ _
                   (effect_trans _ _ _ _ _ _ _ Heff1 Heff2) Heff3) Heff4)
    as H.
  rewrite <- app_assoc in H. exact H.
Qed.

(** *** Calls that keep the version and fire no callback *)

Lemma sameVersion_refl s : sameVersion s s.
Proof. split; reflexivity. Qed.

Lemma sameVersion_trans s1 s2 s3 :
  sameVersion s1 s2 -> sameVersion s2 s3 -> sameVersion s1 s3.
Proof. intros [H1 H2] [H3 H4]. split; congruence. Qed.

Lemma keeps_bind {A B : Type} (c : Call A) (k : A -> Call B) :
  keeps c -> (forall a, keeps (k a)) -> keeps (bind c k).
Proof.
  intros Hc Hk s. unfold bind. specialize (Hc s).
  destruct (c s) as [a s1 | f]; simpl in *; [| exact I].
  specialize (Hk a s1). destruct (k a s1) as [b s2 | f]; simpl in *;
    [| exact I].
  eapply sameVersion_trans; eassumption.
Qed.

Lemma keeps_ret {A : Type} (a : A) : keeps (ret a).
Proof. intros s. apply sameVersion_refl. Qed.

Lemma keeps_stop {A : Type} (f : Failure) : keeps (stop (A := A) f).
Proof. intros s. exact I. Qed.

Lemma keeps_get : keeps get.
Proof. intros s. apply sameVersion_refl. Qed.

Lemma keeps_LOG l : keeps (LOG l).
Proof. intros s. split; reflexivity. Qed.

Lemma keeps_assert b : keeps (assert b).
Proof. destruct b; [apply keeps_ret | apply keeps_stop]. Qed.

Lemma keeps_slot i : keeps (slot i).
Proof.
  intros s. unfold slot. destruct (serverList s !! N.to_nat i); simpl;
    [apply sameVersion_refl | exact I].
Qed.

Lemma keeps_setSlots l : keeps (setSlots l).
Proof. intros s. split; reflexivity. Qed.

Lemma keeps_setSlot i e : keeps (setSlot i e).
Proof.
  unfold setSlot. apply keeps_bind; [apply keeps_get |].
  intros s. destruct (i <? size_of s); [apply keeps_setSlots | apply keeps_stop].
Qed.

Lemma keeps_resize n : keeps (resize n).
Proof.
  unfold resize. apply keeps_bind; [apply keeps_get |].
  intros s. apply keeps_setSlots.
Qed.

Lemma keeps_notifyTrackers d e : keeps (notifyTrackers d e).
Proof.
  intros s. split; simpl; [reflexivity |].
  rewrite List.map_map. reflexivity.
Qed.

Lemma keeps_add_construct id l sv mb : keeps (add_construct id l sv mb).
Proof.
  unfold add_construct.
  apply keeps_bind; [apply keeps_slot |]. intros entry.
  apply keeps_bind; [apply keeps_assert |]. intros _.
  apply keeps_bind; [apply keeps_setSlot |]. intros _.
  apply keeps_bind; [apply keeps_notifyTrackers |]. intros _.
  apply keeps_ret.
Qed.

Lemma keeps_crashed_mark id : keeps (crashed_mark id).
Proof.
  unfold crashed_mark.
  apply keeps_bind; [apply keeps_slot |]. intros [e |]; [| apply keeps_stop].
  apply keeps_bind; [apply keeps_assert |]. intros _.
  apply keeps_bind; [apply keeps_assert |]. intros _.
  apply keeps_bind; [apply keeps_setSlot |]. intros _.
  apply keeps_bind; [apply keeps_notifyTrackers |]. intros _.
  apply keeps_ret.
Qed.

Lemma keeps_add_body remove id l sv mb :
  (forall i, keeps (remove i)) -> keeps (add_body remove id l sv mb).
Proof.
  intros Hr. unfold add_body.
  apply keeps_bind; [apply keeps_get |]. intros s0.
  apply keeps_bind.
  { destruct (size_of s0 <=? indexNumber id);
      [apply keeps_resize | apply keeps_ret]. }
  intros _.
  apply keeps_bind; [apply keeps_slot |].
  intros [e |]; [| apply keeps_add_construct].
  destruct (generationNumber id <? generationNumber (serverId e)).
  { apply keeps_bind; [apply keeps_LOG |]. intros _. apply keeps_ret. }
  destruct (generationNumber (serverId e) <? generationNumber id).
  - apply keeps_bind; [apply keeps_LOG |]. intros _.
    apply keeps_bind; [apply Hr |]. intros _. apply keeps_add_construct.
  - apply keeps_bind; [apply keeps_LOG |]. intros _. apply keeps_ret.
Qed.

Lemma keeps_crashed_body add remove id l sv mb :
  (forall i l' sv' mb', keeps (add i l' sv' mb')) ->
  (forall i, keeps (remove i)) ->
  keeps (crashed_body add remove id l sv mb).
Proof.
  intros Ha Hr. unfold crashed_body.
  apply keeps_bind; [apply keeps_get |]. intros s0.
  apply keeps_bind.
  { destruct (_ || _); [| apply keeps_ret].
    apply keeps_bind; [apply Ha |]. intros _. apply keeps_ret. }
  intros _.
  apply keeps_bind; [apply keeps_slot |].
  intros [e |]; [| apply keeps_crashed_mark].
  destruct (generationNumber id <? generationNumber (serverId e)).
  { apply keeps_bind; [apply keeps_LOG |]. intros _. apply keeps_ret. }
  destruct (generationNumber (serverId e) <? generationNumber id).
  - apply keeps_bind; [apply keeps_LOG |]. intros _.
    apply keeps_bind; [apply Hr |]. intros _.
    apply keeps_bind; [apply Ha |]. intros _. apply keeps_crashed_mark.
  - destruct (ServerStatus_eqb (status e) CRASHED);
      [| apply keeps_crashed_mark].
    apply keeps_bind; [apply keeps_LOG |]. intros _. apply keeps_ret.
Qed.

Lemma keeps_remove_body crashed id :
  (forall i l sv mb, keeps (crashed i l sv mb)) ->
  keeps (remove_body crashed id).
Proof.
  intros Hc. unfold remove_body.
  apply keeps_bind; [apply keeps_get |]. intros s0.
  destruct (if indexNumber id <? size_of s0
            then serverList s0 !! N.to_nat (indexNumber id) else None)
    as [[e0 |] |].
  2,3: (apply keeps_bind; [apply keeps_LOG |]; intros _; apply keeps_ret).
  destruct (generationNumber id <? generationNumber (serverId e0)).
  { apply keeps_bind; [apply keeps_LOG |]. intros _. apply keeps_ret. }
  apply keeps_bind.
  { destruct (_ <? _); [apply keeps_LOG | apply keeps_ret]. }
  intros _.
  apply keeps_bind.
  { destruct (ServerStatus_eqb _ _); [| apply keeps_ret].
    apply keeps_bind; [apply Hc |]. intros _. apply keeps_ret. }
  intros _.
  apply keeps_bind; [apply keeps_slot |].
  intros [e |]; [| apply keeps_stop].
  apply keeps_bind; [apply keeps_notifyTrackers |]. intros _.
  apply keeps_bind; [apply keeps_setSlot |]. intros _.
  apply keeps_ret.
Qed.

Lemma keeps_invoke depth r : keeps (invoke depth r).
Proof.
  revert r. induction depth as [| depth IH]; intros r.
  - intros s. exact I.
  - destruct r as [id l sv mb | id l sv mb | id].
    + rewrite invoke_Add. apply keeps_add_body. intros i. apply IH.
    + rewrite invoke_Crashed. apply keeps_crashed_body.
      * intros. apply IH.
      * intros. apply IH.
    + rewrite invoke_Remove. apply keeps_remove_body. intros. apply IH.
Qed.

Lemma keeps_forEach {A : Type} (f : A -> Call unit) (l : list A) :
  (forall x, keeps (f x)) -> keeps (forEach f l).
Proof.
  intros Hf. induction l as [| x l IH]; simpl.
  - apply keeps_ret.
  - apply keeps_bind; [apply Hf |]. intros _. exact IH.
Qed.

Lemma applied_after s s1 v :
  sameVersion s s1 ->
  returns (bind (setVersion v) (fun _ => fireCallbacks) s1)
    (fun _ s' => applied v s s').
Proof.
  intros [Hv Hc]. unfold bind, setVersion, fireCallbacks, modify, returns.
  split; simpl; [reflexivity |].
  rewrite List.map_map. simpl.
  rewrite <- (List.map_map callbacksFired S), Hc, List.map_map. reflexivity.
Qed.

Lemma returns_bind {A B : Type} (c : Call A) (k : A -> Call B)
    (s : ServerList) (Q : A -> ServerList -> Prop)
    (R : B -> ServerList -> Prop) :
  returns (c s) Q ->
  (forall a s', Q a s' -> returns (k a s') R) ->
  returns (bind c k s) R.
Proof.
  intros Hc Hk. unfold bind.
  destruct (c s) as [a s' | f]; simpl in *; [apply Hk; exact Hc | exact I].
Qed.

Section VersionOfUpdates.

Variable isValid : ServerId -> bool.

Lemma keeps_applyEntries l : keeps (applyEntries isValid l).
Proof.
  induction l as [| e l IH]; simpl.
  - apply keeps_ret.
  - apply keeps_bind; [apply keeps_assert |]. intros _.
    destruct (entry_status e).
    + apply keeps_bind; [apply keeps_LOG |]. intros _.
      apply keeps_bind; [apply keeps_invoke |]. intros _. exact IH.
    + apply keeps_bind; [apply keeps_get |]. intros s0.
      destruct (iget (server_id e) s0).
      * apply keeps_bind; [apply keeps_LOG |]. intros _.
        apply keeps_bind; [apply keeps_invoke |]. intros _. exact IH.
      * apply keeps_bind; [apply keeps_LOG |]. intros _. apply keeps_ret.
    + apply keeps_bind; [apply keeps_get |]. intros s0.
      destruct (iget (server_id e) s0).
      * apply keeps_bind; [apply keeps_LOG |]. intros _.
        apply keeps_bind; [apply keeps_invoke |]. intros _. exact IH.
      * apply keeps_bind; [apply keeps_LOG |]. intros _. apply keeps_ret.
Qed.

Lemma returns_keeps_bind {A B : Type} (c : Call A) (k : A -> Call B)
    (s0 s : ServerList) (R : B -> ServerList -> Prop) :
  sameVersion s0 s -> keeps c ->
  (forall a s1, sameVersion s0 s1 -> returns (k a s1) R) ->
  returns (bind c k s) R.
Proof.
  intros H0 Hc Hk. eapply returns_bind; [apply Hc |].
  intros a s1 H1. apply Hk. eapply sameVersion_trans; eassumption.
Qed.

Lemma returns_get {B : Type} (k : ServerList -> Call B) (s : ServerList)
    (R : B -> ServerList -> Prop) :
  returns (k s s) R -> returns (bind get k s) R.
Proof. intros H. exact H. Qed.

Lemma applyUpdate_version (update : ProtoBuf_ServerList) (s : ServerList) :
  returns (applyUpdate isValid update s)
    (fun b s' =>
       if b then
         version_number update = (version s + 1) mod 2 ^ 64
         /\ applied (version_number update) s s'
       else sameVersion s s').
Proof.
  unfold applyUpdate.
  eapply returns_keeps_bind;
    [apply sameVersion_refl | apply keeps_assert |].
  intros _ s1 H1. apply returns_get.
  destruct (version_number update =? (version s1 + 1) mod 2 ^ 64) eqn:Hnext;
    simpl negb; cbv iota.
  2:{ eapply returns_keeps_bind; [exact H1 | apply keeps_LOG |].
      intros _ s2 H2. exact H2. }
  apply N.eqb_eq in Hnext. rewrite (proj1 H1) in Hnext.
  eapply returns_keeps_bind; [exact H1 | apply keeps_LOG |].
  intros _ s2 H2.
  eapply returns_keeps_bind; [exact H2 | apply keeps_applyEntries |].
  intros b s3 H3.
  destruct b; [| exact H3].
  pose proof (applied_after s s3 (version_number update) H3) as Ha.
  unfold bind in Ha |- *. simpl in Ha |- *. split; [exact Hnext | exact Ha].
Qed.

Lemma keeps_listIds (l : list ProtoBuf_Entry) (acc : Call (list ServerId)) :
  keeps acc ->
  keeps (fold_left
           (fun (acc : Call (list ServerId)) (e : ProtoBuf_Entry) =>
              do ids <- acc;
              if ServerStatus_eqb (entry_status e) DOWN then
                run LOG WARNING;
                ret ids
              else
                run assert (negb (existsb (ServerId_eqb (server_id e)) ids));
                ret (server_id e :: ids))
           l acc).
Proof.
  revert acc. induction l as [| e l IH]; intros acc Hacc; simpl.
  - exact Hacc.
  - apply IH. apply keeps_bind; [exact Hacc |]. intros ids.
    destruct (ServerStatus_eqb (entry_status e) DOWN).
    + apply keeps_bind; [apply keeps_LOG |]. intros _. apply keeps_ret.
    + apply keeps_bind; [apply keeps_assert |]. intros _. apply keeps_ret.
Qed.

Lemma applyFullList_version (lst : ProtoBuf_ServerList) (s : ServerList) :
  returns (applyFullList isValid lst s)
    (fun _ s' => applied (version_number lst) s s').
Proof.
  unfold applyFullList.
  eapply returns_keeps_bind;
    [apply sameVersion_refl | apply keeps_assert |].
  intros _ s1 H1.
  eapply returns_keeps_bind; [exact H1 | apply keeps_LOG |].
  intros _ s2 H2.
  eapply returns_keeps_bind;
    [exact H2 | apply keeps_listIds; apply keeps_ret |].
  intros listIds s3 H3. apply returns_get.
  eapply returns_keeps_bind; [exact H3 | |].
  { apply keeps_forEach. intros index.
    apply keeps_bind; [apply keeps_slot |]. intros [e |]; [| apply keeps_ret].
    apply keeps_bind; [apply keeps_assert |]. intros _.
    destruct (existsb _ _); [apply keeps_ret |].
    apply keeps_bind; [apply keeps_invoke |]. intros _. apply keeps_ret. }
  intros _ s4 H4.
  eapply returns_keeps_bind; [exact H4 | |].
  { apply keeps_forEach. intros e.
    destruct (ServerStatus_eqb _ _); [| apply keeps_ret].
    apply keeps_bind; [apply keeps_invoke |]. intros _. apply keeps_ret. }
  intros _ s5 H5.
  eapply returns_keeps_bind; [exact H5 | |].
  { apply keeps_forEach. intros e.
    destruct (ServerStatus_eqb _ _); [| apply keeps_ret].
    apply keeps_bind; [apply keeps_invoke |]. intros _. apply keeps_ret. }
  intros _ s6 H6.
  exact (applied_after s s6 (version_number lst) H6).
Qed.

Lemma applyServerList_version (lst : ProtoBuf_ServerList) (s : ServerList) :
  returns (applyServerList isValid lst s)
    (fun _ s' =>
       if version_number lst <=? version s then sameVersion s s'
       else applied (version_number lst) s s').
Proof.
  unfold applyServerList. apply returns_get.
  destruct (version_number lst <=? version s).
  - eapply returns_keeps_bind;
      [apply sameVersion_refl | apply keeps_LOG |].
    intros _ s1 H1. exact H1.
  - eapply returns_bind; [apply (keeps_LOG NOTICE s) |].
    intros u s1 H1. simpl in H1.
    assert (forall s', applied (version_number lst) s1 s' ->
                       applied (version_number lst) s s') as Hback.
    { intros s' [Hv Hc]. destruct H1 as [_ H1].
      split; [exact Hv |].
      rewrite Hc, <- !(List.map_map callbacksFired S), H1. reflexivity. }
    destruct (type lst).
    + pose proof (applyFullList_version lst s1) as H.
      destruct (applyFullList isValid lst s1) as [[] s' | f]; simpl in *;
        [apply Hback; exact H | exact I].
    + pose proof (applyUpdate_version lst s1) as H.
      unfold bind.
      destruct (applyUpdate isValid lst s1) as [[] s' | f]; simpl in *;
        [apply Hback; apply H | exact I | exact I].
Qed.

End VersionOfUpdates.

(** *** Calls that stop *)

Lemma add_wraps remove id l sv mb s :
  size_of s <= indexNumber id -> 2 ^ 32 <= indexNumber id + 1 ->
  add_body remove id l sv mb s = Stopped OutOfRange.
Proof.
  intros Hsz Hwrap. unfold add_body.
  unfold bind at 1. unfold get.
  apply N.leb_le in Hsz. rewrite Hsz.
  unfold bind at 1. unfold resize, bind, get, setSlots, modify.
  unfold slot. cbn [serverList].
  rewrite lookup_ge_None_2; [reflexivity |].
  rewrite length_app, length_take, length_replicate.
  pose proof (N.mod_upper_bound (indexNumber id + 1) (2 ^ 32)) as Hm.
  assert (2 ^ 32 <> 0) as Hnz by (vm_compute; discriminate).
  specialize (Hm Hnz). lia.
Qed.

Lemma crashed_wraps depth id l sv mb s :
  size_of s <= indexNumber id -> 2 ^ 32 <= indexNumber id + 1 ->
  invoke (S (S depth)) (Crashed id l sv mb) s = Stopped OutOfRange.
Proof.
  intros Hsz Hwrap. rewrite invoke_Crashed. unfold crashed_body.
  unfold bind at 1. unfold get.
  pose proof Hsz as Hsz'. apply N.leb_le in Hsz'. rewrite Hsz'.
  rewrite orb_true_l. rewrite invoke_Add.
  unfold bind at 1. unfold bind at 1.
  rewrite (add_wraps _ id l sv mb s Hsz Hwrap). reflexivity.
Qed.

Lemma crashed_down depth id l sv mb s e :
  serverList s !! N.to_nat (indexNumber id) = Some (Some e) ->
  generationNumber (serverId e) = generationNumber id ->
  status e = DOWN ->
  invoke (S depth) (Crashed id l sv mb) s = Stopped AssertionFailed.
Proof.
  intros E Hgen Hst. rewrite invoke_Crashed.
  rewrite (crashed_body_present _ _ _ _ _ _ _ _ E).
  rewrite Hgen, N.ltb_irrefl, Hst. simpl.
  unfold crashed_mark, bind, slot. rewrite E, Hst.
  destruct (ServerId_eqb (serverId e) id); reflexivity.
Qed.

(** *** Lookups after a call *)

Lemma grown_in_range (index : nat) (l : list (option ServerDetails)) :
  (index < length l)%nat -> grown index l = l.
Proof.
  intros H. unfold grown.
  replace (index + 1 - length l)%nat with 0%nat by lia.
  apply app_nil_r.
Qed.

Lemma iget_elsewhere (index : nat) (x : option ServerDetails)
    (s s' : ServerList) (id : ServerId) :
  serverList s' = <[index := x]> (grown index (serverList s)) ->
  N.to_nat (indexNumber id) <> index ->
  iget id s' = iget id s.
Proof.
  intros Hs Hne. unfold iget. rewrite Hs.
  rewrite list_lookup_insert_ne by congruence.
  unfold grown.
  destruct (decide (N.to_nat (indexNumber id) < length (serverList s))%nat)
    as [Hlt | Hge].
  - rewrite lookup_app_l by exact Hlt. reflexivity.
  - rewrite lookup_app_r by lia.
    rewrite (lookup_ge_None_2 (serverList s)) by lia.
    destruct (replicate _ _ !! _) as [o |] eqn:Hr; [| reflexivity].
    apply lookup_replicate in Hr as [-> _]. reflexivity.
Qed.

Lemma iget_same_slots (s s' : ServerList) (id : ServerId) :
  serverList s' = serverList s -> iget id s' = iget id s.
Proof. intros H. unfold iget. rewrite H. reflexivity. Qed.

Lemma ServerId_eqb_refl (id : ServerId) : ServerId_eqb id id = true.
Proof. unfold ServerId_eqb. rewrite !N.eqb_refl. reflexivity. Qed.

Lemma iget_stored (l : list (option ServerDetails)) (d : ServerDetails)
    (s' : ServerList) :
  serverList s' = <[N.to_nat (indexNumber (serverId d)) := Some d]> l ->
  (N.to_nat (indexNumber (serverId d)) < length l)%nat ->
  iget (serverId d) s' = Some d.
Proof.
  intros Hs Hlt. unfold iget. rewrite Hs.
  rewrite list_lookup_insert_eq by exact Hlt.
  rewrite ServerId_eqb_refl. reflexivity.
Qed.

Lemma iget_emptied (l : list (option ServerDetails)) (index : nat)
    (s' : ServerList) (id : ServerId) :
  serverList s' = <[index := None]> l ->
  N.to_nat (indexNumber id) = index ->
  iget id s' = None.
Proof.
  intros Hs Hi. unfold iget. rewrite Hs, Hi.
  destruct (decide (index < length l)%nat) as [Hlt | Hge].
  - rewrite list_lookup_insert_eq by exact Hlt. reflexivity.
  - rewrite lookup_ge_None_2; [reflexivity |].
    rewrite length_insert. lia.
Qed.

Lemma grown_length_vacant (index : nat) (l : list (option ServerDetails)) :
  (index < length (grown index l))%nat.
Proof. unfold grown. rewrite length_app, length_replicate. lia. Qed.

(** *** The slot that a call writes *)

Lemma request_slots (r : Request) (s s' : ServerList) (b : bool) :
  sound s ->
  invoke callDepth r s = Returned b s' ->
  serverList s' = serverList s
  \/ exists x,
       written r x
       /\ serverList s'
          = <[N.to_nat (indexNumber (requestId r)) := x]>
              (grown (N.to_nat (indexNumber (requestId r))) (serverList s)).
Proof.
  intros Hs Hr. unfold callDepth in Hr.
  assert (forall e,
             serverList s !! N.to_nat (indexNumber (requestId r))
             = Some (Some e) ->
             grown (N.to_nat (indexNumber (requestId r))) (serverList s)
             = serverList s) as Hin.
  { intros e E. apply grown_in_range. eapply lookup_lt_Some. exact E. }
  assert (forall id l sv mb d,
             Some (newDetails id l sv mb) = Some d -> serverId d = id)
    as Hnew.
  { intros id l sv mb d [= <-]. reflexivity. }
  assert (forall id l sv mb d,
             Some (asCrashed (newDetails id l sv mb)) = Some d ->
             serverId d = id) as Hnewc.
  { intros id l sv mb d [= <-]. reflexivity. }
  destruct r as [id l sv mb | id l sv mb | id];
    unfold written; simpl requestId in *.
  - (* add *)
    rewrite invoke_Add in Hr.
    destruct (serverList s !! N.to_nat (indexNumber id)) as [[e |] |] eqn:E.
    + destruct (N.le_gt_cases (generationNumber id)
                  (generationNumber (serverId e))) as [Hle | Hgt].
      * destruct (add_ignored (fun i => invoke 2 (Remove i)) id l sv mb s e
                    E Hle) as (s0 & E0 & H0 & _).
        rewrite E0 in Hr. injection Hr as _ <-. left. exact H0.
      * destruct (add_replaces 0 id l sv mb s e Hs E Hgt)
          as (s0 & E0 & H0 & _).
        rewrite invoke_Add, Hr in E0. injection E0 as _ <-.
        right. exists (Some (newDetails id l sv mb)).
        split; [apply Hnew |]. rewrite (Hin e eq_refl). exact H0.
    + destruct (add_fresh (fun i => invoke 2 (Remove i)) id l sv mb s)
        as (s0 & E0 & H0 & _).
      * intros e He. rewrite E in He. discriminate.
      * intros Hsz. apply lookup_lt_Some in E. unfold size_of in Hsz. lia.
      * rewrite E0 in Hr. injection Hr as _ <-.
        right. exists (Some (newDetails id l sv mb)).
        split; [apply Hnew | exact H0].
    + destruct (N.lt_ge_cases (indexNumber id + 1) (2 ^ 32)) as [Hfit | Hw].
      * destruct (add_fresh (fun i => invoke 2 (Remove i)) id l sv mb s)
          as (s0 & E0 & H0 & _).
        { intros e He. rewrite E in He. discriminate. }
        { intros _. exact Hfit. }
        rewrite E0 in Hr. injection Hr as _ <-.
        right. exists (Some (newDetails id l sv mb)).
        split; [apply Hnew | exact H0].
      * rewrite add_wraps in Hr; [discriminate | | exact Hw].
        apply lookup_ge_None_1 in E. unfold size_of. lia.
  - (* crashed *)
    destruct (serverList s !! N.to_nat (indexNumber id)) as [[e |] |] eqn:E.
    + destruct (N.lt_trichotomy (generationNumber id)
                  (generationNumber (serverId e))) as [Hlt | [Heq | Hgt]].
      * destruct (crashed_ignored 2 id l sv mb s e E (or_introl Hlt))
          as (s0 & E0 & H0 & _).
        rewrite E0 in Hr. injection Hr as _ <-. left. exact H0.
      * assert (serverId e = id) as Hid.
        { specialize (Hs _ _ E). destruct (serverId e) as [i g], id.
          simpl in *. f_equal; lia. }
        destruct (status e) eqn:Hst.
        -- destruct (crashed_up 2 id l sv mb s e E Hid Hst)
             as (s0 & E0 & H0 & _).
           rewrite E0 in Hr. injection Hr as _ <-.
           right. exists (Some (asCrashed e)).
           split; [intros d [= <-]; exact Hid |].
           rewrite (Hin e eq_refl). exact H0.
        -- destruct (crashed_ignored 2 id l sv mb s e E
                       (or_intror (conj Heq Hst))) as (s0 & E0 & H0 & _).
           rewrite E0 in Hr. injection Hr as _ <-. left. exact H0.
        -- rewrite (crashed_down 2 id l sv mb s e E (eq_sym Heq) Hst) in Hr.
           discriminate.
      * destruct (crashed_replaces 0 id l sv mb s e Hs E Hgt)
          as (s0 & E0 & H0 & _).
        rewrite E0 in Hr. injection Hr as _ <-.
        right. exists (Some (asCrashed (newDetails id l sv mb))).
        split; [apply Hnewc |]. rewrite (Hin e eq_refl). exact H0.
    + destruct (crashed_fresh 1 id l sv mb s) as (s0 & E0 & H0 & _).
      * intros e He. rewrite E in He. discriminate.
      * intros Hsz. apply lookup_lt_Some in E. unfold size_of in Hsz. lia.
      * rewrite E0 in Hr. injection Hr as _ <-.
        right. exists (Some (asCrashed (newDetails id l sv mb))).
        split; [apply Hnewc | exact H0].
    + destruct (N.lt_ge_cases (indexNumber id + 1) (2 ^ 32)) as [Hfit | Hw].
      * destruct (crashed_fresh 1 id l sv mb s) as (s0 & E0 & H0 & _).
        { intros e He. rewrite E in He. discriminate. }
        { intros _. exact Hfit. }
        rewrite E0 in Hr. injection Hr as _ <-.
        right. exists (Some (asCrashed (newDetails id l sv mb))).
        split; [apply Hnewc | exact H0].
      * rewrite crashed_wraps in Hr; [discriminate | | exact Hw].
        apply lookup_ge_None_1 in E. unfold size_of. lia.
  - (* remove *)
    destruct (serverList s !! N.to_nat (indexNumber id)) as [[e |] |] eqn:E.
    + destruct (N.lt_ge_cases (generationNumber id)
                  (generationNumber (serverId e))) as [Hlt | Hge].
      * destruct (remove_unknown 2 id s) as (s0 & E0 & H0 & _).
        { intros e' He'. rewrite E in He'. injection He' as <-. exact Hlt. }
        rewrite E0 in Hr. injection Hr as _ <-. left. exact H0.
      * destruct (remove_known 1 id s e Hs E Hge) as (s0 & E0 & H0 & _).
        rewrite E0 in Hr. injection Hr as _ <-.
        right. exists None. split; [reflexivity |].
        rewrite (Hin e eq_refl). exact H0.
    + destruct (remove_unknown 2 id s) as (s0 & E0 & H0 & _).
      { intros e' He'. rewrite E in He'. discriminate. }
      rewrite E0 in Hr. injection Hr as _ <-. left. exact H0.
    + destruct (remove_unknown 2 id s) as (s0 & E0 & H0 & _).
      { intros e' He'. rewrite E in He'. discriminate. }
      rewrite E0 in Hr. injection Hr as _ <-. left. exact H0.
Qed.

(** *** The servers that a full list leaves *)

Lemma grown_lookup_Some (index i : nat) (l : list (option ServerDetails))
    (d : ServerDetails) :
  grown index l !! i = Some (Some d) -> l !! i = Some (Some d).
Proof.
  unfold grown. intros H.
  apply lookup_app_Some in H as [H | [_ H]]; [exact H |].
  apply lookup_replicate in H as [H _]. discriminate.
Qed.

Lemma invoke_holdsOnly (A : ServerId -> Prop) (r : Request)
    (s : ServerList) :
  sound s -> holdsOnly A s ->
  match r with
  | Remove _ => True
  | _ => A (requestId r)
  end ->
  returns (invoke callDepth r s) (fun _ s' => sound s' /\ holdsOnly A s').
Proof.
  intros Hs HA Hr.
  pose proof (invoke_settles r s Hs) as Hset.
  destruct (invoke callDepth r s) as [b s' |] eqn:E; simpl; [| exact I].
  split; [exact Hset |].
  destruct (request_slots r s s' b Hs E) as [Hsame | (x & Hx & Hsl)].
  - intros i d. rewrite Hsame. apply HA.
  - intros i d. rewrite Hsl.
    destruct (decide (i = N.to_nat (indexNumber (requestId r)))) as [-> | Hne].
    + rewrite list_lookup_insert_eq by apply grown_length_vacant.
      intros [= ->].
      destruct r; unfold written in Hx; simpl in *;
        try discriminate; rewrite (Hx d eq_refl); exact Hr.
    + rewrite list_lookup_insert_ne by congruence.
      intros H. apply grown_lookup_Some in H. exact (HA _ _ H).
Qed.

Lemma forEach_returns {A : Type} (f : A -> Call unit) (l : list A)
    (I : ServerList -> Prop) (s : ServerList) :
  I s ->
  (forall x s0, In x l -> I s0 -> returns (f x s0) (fun _ s' => I s')) ->
  returns (forEach f l s) (fun _ s' => I s').
Proof.
  revert s. induction l as [| x l IH]; intros s Hs Hf; simpl.
  - exact Hs.
  - eapply returns_bind.
    + apply Hf; [left; reflexivity | exact Hs].
    + intros ? s1 H1. apply IH; [exact H1 |].
      intros y s0 Hy. apply Hf. right. exact Hy.
Qed.

Lemma ServerStatus_eqb_eq (a b : ServerStatus) :
  ServerStatus_eqb a b = true <-> a = b.
Proof. destruct a, b; simpl; split; congruence. Qed.

Section FullList.

Variable isValid : ServerId -> bool.

Variable lst : ProtoBuf_ServerList.

Lemma listIds_listed (l : list ProtoBuf_Entry)
    (acc : Call (list ServerId)) (s : ServerList) :
  (forall e, In e l -> In e (server lst)) ->
  returns (acc s)
    (fun ids s' => serverList s' = serverList s /\ Forall (listed lst) ids) ->
  returns
    (fold_left
       (fun (acc : Call (list ServerId)) (e : ProtoBuf_Entry) =>
          do ids <- acc;
          if ServerStatus_eqb (entry_status e) DOWN then
            run LOG WARNING;
            ret ids
          else
            run assert (negb (existsb (ServerId_eqb (server_id e)) ids));
            ret (server_id e :: ids))
       l acc s)
    (fun ids s' => serverList s' = serverList s /\ Forall (listed lst) ids).
Proof.
  revert acc. induction l as [| e l IH]; intros acc Hin Hacc; simpl.
  - exact Hacc.
  - apply IH; [intros e' He'; apply Hin; right; exact He' |].
    eapply returns_bind; [exact Hacc |].
    intros ids s1 [Hs1 Hids]. simpl.
    destruct (ServerStatus_eqb (entry_status e) DOWN) eqn:Hst.
    + split; assumption.
    + unfold bind.
      destruct (negb (existsb (ServerId_eqb (server_id e)) ids)); simpl;
        [| exact I].
      split; [exact Hs1 |]. constructor; [| exact Hids].
      exists e. split_and!; [apply Hin; left; reflexivity | reflexivity |].
      intros Hdown. apply ServerStatus_eqb_eq in Hdown. congruence.
Qed.

Lemma existsb_listed (ids : list ServerId) (id : ServerId) :
  Forall (listed lst) ids ->
  existsb (ServerId_eqb id) ids = true -> listed lst id.
Proof.
  intros Hall Hex. apply existsb_exists in Hex as (x & Hx & Heq).
  apply ServerId_eqb_eq in Heq. subst x.
  rewrite Forall_forall in Hall. apply Hall.
  apply list_elem_of_In. exact Hx.
Qed.

Lemma removeUnlisted_loop (listIds : list ServerId) (n m : nat) :
  Forall (listed lst) listIds ->
  forall (k : nat) (s : ServerList),
    (k + m = n)%nat ->
    sound s -> length (serverList s) = n ->
    (forall i d, (i < k)%nat -> serverList s !! i = Some (Some d) ->
                 listed lst (serverId d)) ->
    returns (forEach (removeUnlisted isValid listIds) (seq k m) s)
      (fun _ s' => sound s' /\ holdsOnly (listed lst) s').
Proof.
  intros Hids. induction m as [| m IH]; intros k s Hkm Hs Hlen Hlow; simpl.
  - split; [exact Hs |]. intros i d Hi. apply (Hlow i d); [| exact Hi].
    apply lookup_lt_Some in Hi. lia.
  - eapply returns_bind
      with (Q := fun _ s1 =>
                   sound s1 /\ length (serverList s1) = n
                   /\ forall i d, (i < S k)%nat ->
                        serverList s1 !! i = Some (Some d) ->
                        listed lst (serverId d)).
    2:{ intros ? s1 (Hs1 & Hlen1 & Hlow1).
        apply IH; [lia | exact Hs1 | exact Hlen1 | exact Hlow1]. }
    unfold removeUnlisted. unfold bind at 1. unfold slot.
    rewrite Nat2N.id.
    destruct (lookup_lt_is_Some_2 (serverList s) k ltac:(lia)) as [entry E].
    rewrite E.
    assert (forall s1, serverList s1 = serverList s ->
               (forall d, entry = Some d -> listed lst (serverId d)) ->
               sound s1 /\ length (serverList s1) = n
               /\ forall i d, (i < S k)%nat ->
                    serverList s1 !! i = Some (Some d) ->
                    listed lst (serverId d)) as Hkeep.
    { intros s1 Hsame Hentry. unfold sound. rewrite Hsame.
      split_and!; [exact Hs | exact Hlen |].
      intros i d Hi Hd.
      destruct (decide (i = k)) as [-> | Hne].
      - rewrite E in Hd. injection Hd as ->. apply Hentry. reflexivity.
      - apply (Hlow i d); [lia | exact Hd]. }
    destruct entry as [e |]; simpl.
    2:{ apply Hkeep; [reflexivity | discriminate]. }
    unfold bind at 1.
    destruct (isValid (serverId e)); simpl; [| exact I].
    destruct (existsb (ServerId_eqb (serverId e)) listIds) eqn:Hex; simpl.
    { apply Hkeep; [reflexivity |]. intros d [= <-].
      exact (existsb_listed _ _ Hids Hex). }
    pose proof (Hs _ _ E) as Hidx.
    assert (N.to_nat (indexNumber (serverId e)) = k) as Hk by lia.
    destruct (remove_known 1 (serverId e) s e Hs) as (s0 & E0 & H0 & _).
    { rewrite Hk. exact E. }
    { lia. }
    unfold bind, remove, callDepth. rewrite E0. simpl.
    rewrite Hk in H0. unfold sound. rewrite H0.
    split_and!.
    + apply wellIndexed_insert; [exact Hs | discriminate].
    + rewrite length_insert. exact Hlen.
    + intros i d Hi Hd.
      destruct (decide (i = k)) as [-> | Hne].
      * rewrite list_lookup_insert_eq in Hd by lia. discriminate.
      * rewrite list_lookup_insert_ne in Hd by congruence.
        apply (Hlow i d); [lia | exact Hd].
Qed.

Lemma applyFullList_listed (s : ServerList) :
  sound s ->
  returns (applyFullList isValid lst s)
    (fun _ s' => sound s' /\ holdsOnly (listed lst) s').
Proof.
  intros Hs. unfold applyFullList.
  eapply returns_bind with (Q := fun _ s1 => serverList s1 = serverList s).
  { destruct (type lst); simpl; [reflexivity | exact I]. }
  intros ? s1 H1.
  eapply returns_bind with (Q := fun _ s2 => serverList s2 = serverList s).
  { simpl. exact H1. }
  intros ? s2 H2.
  eapply returns_bind
    with (Q := fun ids s3 => serverList s3 = serverList s
                             /\ Forall (listed lst) ids).
  { rewrite <- H2. apply listIds_listed.
    - intros e He. exact He.
    - simpl. split; [reflexivity | constructor]. }
  intros listIds s3 [H3 Hids]. apply returns_get.
  eapply returns_bind
    with (Q := fun _ s4 => sound s4 /\ holdsOnly (listed lst) s4).
  { apply (removeUnlisted_loop listIds (length (serverList s3))
             (length (serverList s3)) Hids 0%nat s3).
    - reflexivity.
    - unfold sound. rewrite H3. exact Hs.
    - reflexivity.
    - intros i d Hi. lia. }
  intros ? s4 H4.
  eapply returns_bind
    with (Q := fun _ s5 => sound s5 /\ holdsOnly (listed lst) s5).
  { apply forEach_returns; [exact H4 |].
    intros e s0 He [Hs0 HA0].
    destruct (ServerStatus_eqb (entry_status e) CRASHED) eqn:Hst;
      [| split; assumption].
    eapply returns_bind.
    - apply (invoke_holdsOnly (listed lst) (Crashed _ _ _ _) s0 Hs0 HA0).
      exists e. split_and!; [exact He | reflexivity |].
      apply ServerStatus_eqb_eq in Hst. congruence.
    - intros ? s' H'. exact H'. }
  intros ? s5 H5.
  eapply returns_bind
    with (Q := fun _ s6 => sound s6 /\ holdsOnly (listed lst) s6).
  { apply forEach_returns; [exact H5 |].
    intros e s0 He [Hs0 HA0].
    destruct (ServerStatus_eqb (entry_status e) UP) eqn:Hst;
      [| split; assumption].
    eapply returns_bind.
    - apply (invoke_holdsOnly (listed lst) (Add _ _ _ _) s0 Hs0 HA0).
      exists e. split_and!; [exact He | reflexivity |].
      apply ServerStatus_eqb_eq in Hst. congruence.
    - intros ? s' H'. exact H'. }
  intros ? s6 H6. exact H6.
Qed.

End FullList.

(** *** Deeper nesting *)

Lemma refines_refl {A : Type} (c : Call A) : refines c c.
Proof. intros s _. reflexivity. Qed.

Lemma refines_bind {A B : Type} (c c' : Call A) (k k' : A -> Call B) :
  refines c c' -> (forall a, refines (k a) (k' a)) ->
  refines (bind c k) (bind c' k').
Proof.
  intros Hc Hk s Hs. unfold bind in *.
  destruct (c s) as [a s1 | f] eqn:E.
  - rewrite (Hc s) by (rewrite E; discriminate). rewrite E.
    apply Hk. exact Hs.
  - rewrite (Hc s), E; [reflexivity |].
    rewrite E. intros [= ->]. apply Hs. reflexivity.
Qed.

Lemma refines_add_body remove remove' id l sv mb :
  (forall i, refines (remove i) (remove' i)) ->
  refines (add_body remove id l sv mb) (add_body remove' id l sv mb).
Proof.
  intros Hr. unfold add_body.
  apply refines_bind; [apply refines_refl |]. intros s0.
  apply refines_bind; [apply refines_refl |]. intros _.
  apply refines_bind; [apply refines_refl |].
  intros [e |]; [| apply refines_refl].
  destruct (generationNumber id <? generationNumber (serverId e));
    [apply refines_refl |].
  destruct (generationNumber (serverId e) <? generationNumber id);
    [| apply refines_refl].
  apply refines_bind; [apply refines_refl |]. intros _.
  apply refines_bind; [apply Hr |]. intros _. apply refines_refl.
Qed.

Lemma refines_crashed_body add add' remove remove' id l sv mb :
  (forall i l' sv' mb', refines (add i l' sv' mb') (add' i l' sv' mb')) ->
  (forall i, refines (remove i) (remove' i)) ->
  refines (crashed_body add remove id l sv mb)
    (crashed_body add' remove' id l sv mb).
Proof.
  intros Ha Hr. unfold crashed_body.
  apply refines_bind; [apply refines_refl |]. intros s0.
  apply refines_bind.
  { destruct (_ || _); [| apply refines_refl].
    apply refines_bind; [apply Ha |]. intros _. apply refines_refl. }
  intros _.
  apply refines_bind; [apply refines_refl |].
  intros [e |]; [| apply refines_refl].
  destruct (generationNumber id <? generationNumber (serverId e));
    [apply refines_refl |].
  destruct (generationNumber (serverId e) <? generationNumber id);
    [| apply refines_refl].
  apply refines_bind; [apply refines_refl |]. intros _.
  apply refines_bind; [apply Hr |]. intros _.
  apply refines_bind; [apply Ha |]. intros _. apply refines_refl.
Qed.

Lemma refines_remove_body crashed crashed' id :
  (forall i l sv mb, refines (crashed i l sv mb) (crashed' i l sv mb)) ->
  refines (remove_body crashed id) (remove_body crashed' id).
Proof.
  intros Hc. unfold remove_body.
  apply refines_bind; [apply refines_refl |]. intros s0.
  destruct (if indexNumber id <? size_of s0
            then serverList s0 !! N.to_nat (indexNumber id) else None)
    as [[e0 |] |]; [| apply refines_refl | apply refines_refl].
  destruct (generationNumber id <? generationNumber (serverId e0));
    [apply refines_refl |].
  apply refines_bind; [apply refines_refl |]. intros _.
  apply refines_bind; [| intros _; apply refines_refl].
  destruct (ServerStatus_eqb _ _); [| apply refines_refl].
  apply refines_bind; [apply Hc |]. intros _. apply refines_refl.
Qed.

Lemma refines_invoke (depth : nat) (r : Request) :
  refines (invoke depth r) (invoke (S depth) r).
Proof.
  revert r. induction depth as [| depth IH]; intros r.
  - intros s Hs. exfalso. apply Hs. reflexivity.
  - destruct r as [id l sv mb | id l sv mb | id].
    + rewrite (invoke_Add (S depth)), (invoke_Add depth).
      apply refines_add_body. intros i. apply IH.
    + rewrite (invoke_Crashed (S depth)), (invoke_Crashed depth).
      apply refines_crashed_body; intros; apply IH.
    + rewrite (invoke_Remove (S depth)), (invoke_Remove depth).
      apply refines_remove_body. intros. apply IH.
Qed.

Lemma invoke_deeper (extra : nat) (r : Request) (s : ServerList) :
  sound s -> invoke (extra + callDepth) r s = invoke callDepth r s.
Proof.
  intros Hs.
  pose proof (invoke_settles r s Hs) as Hset.
  assert (invoke callDepth r s <> Stopped TooDeep) as Hnot.
  { destruct (invoke callDepth r s); simpl in Hset; congruence. }
  induction extra as [| extra IH]; [reflexivity |].
  simpl Nat.add. rewrite <- IH.
  apply refines_invoke. rewrite IH. exact Hnot.
Qed.

(** *** Calls that finish *)

Lemma finishes_bind {A B : Type} (c : Call A) (k : A -> Call B)
    (s : ServerList) (Q : A -> ServerList -> Prop)
    (R : B -> ServerList -> Prop) :
  finishes (c s) Q ->
  (forall a s', Q a s' -> finishes (k a s') R) ->
  finishes (bind c k s) R.
Proof.
  intros Hc Hk. unfold bind.
  destruct (c s) as [a s' | f]; simpl in *; [apply Hk; exact Hc | exact Hc].
Qed.

Lemma noneDown_written (index : nat) (x : option ServerDetails)
    (s s' : ServerList) :
  serverList s' = <[index := x]> (grown index (serverList s)) ->
  (forall d, x = Some d -> status d <> DOWN) ->
  noneDown s -> noneDown s'.
Proof.
  intros Hsl Hx Hs i e. rewrite Hsl.
  destruct (decide (i = index)) as [-> | Hne].
  - rewrite list_lookup_insert_eq by apply grown_length_vacant.
    intros [= ->]. apply Hx. reflexivity.
  - rewrite list_lookup_insert_ne by congruence.
    intros H. apply grown_lookup_Some in H. exact (Hs _ _ H).
Qed.

Lemma noneDown_same (s s' : ServerList) :
  serverList s' = serverList s -> noneDown s -> noneDown s'.
Proof. intros Hsl Hs i e. rewrite Hsl. apply Hs. Qed.

Lemma sound_returned (r : Request) (s s' : ServerList) (b : bool) :
  sound s -> invoke callDepth r s = Returned b s' -> sound s'.
Proof.
  intros Hs E. pose proof (invoke_settles r s Hs) as H.
  rewrite E in H. exact H.
Qed.

Lemma request_finishes (r : Request) (s : ServerList) :
  inOrder s ->
  (size_of s <= indexNumber (requestId r) ->
   indexNumber (requestId r) + 1 < 2 ^ 32) ->
  finishes (invoke callDepth r s) (fun _ s' => inOrder s').
Proof.
  intros [Hs Hd] Hfit.
  assert (exists b s',
             invoke callDepth r s = Returned b s'
             /\ (serverList s' = serverList s
                 \/ exists x,
                      (forall d, x = Some d -> status d <> DOWN)
                      /\ serverList s'
                         = <[N.to_nat (indexNumber (requestId r)) := x]>
                             (grown (N.to_nat (indexNumber (requestId r)))
                                (serverList s))))
    as (b & s' & E & Hsl).
  { assert (forall e,
               serverList s !! N.to_nat (indexNumber (requestId r))
               = Some (Some e) ->
               grown (N.to_nat (indexNumber (requestId r))) (serverList s)
               = serverList s) as Hin.
    { intros e E. apply grown_in_range. eapply lookup_lt_Some. exact E. }
    unfold callDepth.
    destruct r as [id l sv mb | id l sv mb | id]; simpl requestId in *.
    - rewrite invoke_Add.
      destruct (serverList s !! N.to_nat (indexNumber id)) as [[e |] |] eqn:E.
      + destruct (N.le_gt_cases (generationNumber id)
                    (generationNumber (serverId e))) as [Hle | Hgt].
        * destruct (add_ignored (fun i => invoke 2 (Remove i)) id l sv mb s e
                      E Hle) as (s0 & E0 & H0 & _).
          exists false, s0. split; [exact E0 | left; exact H0].
        * destruct (add_replaces 0 id l sv mb s e Hs E Hgt)
            as (s0 & E0 & H0 & _).
          rewrite invoke_Add in E0.
          exists true, s0. split; [exact E0 |].
          right. exists (Some (newDetails id l sv mb)).
          split; [intros d [= <-]; discriminate |].
          rewrite (Hin e eq_refl). exact H0.
      + destruct (add_fresh (fun i => invoke 2 (Remove i)) id l sv mb s)
          as (s0 & E0 & H0 & _).
        * intros e He. rewrite E in He. discriminate.
        * exact Hfit.
        * exists true, s0. split; [exact E0 |].
          right. exists (Some (newDetails id l sv mb)).
          split; [intros d [= <-]; discriminate | exact H0].
      + destruct (add_fresh (fun i => invoke 2 (Remove i)) id l sv mb s)
          as (s0 & E0 & H0 & _).
        * intros e He. rewrite E in He. discriminate.
        * exact Hfit.
        * exists true, s0. split; [exact E0 |].
          right. exists (Some (newDetails id l sv mb)).
          split; [intros d [= <-]; discriminate | exact H0].
    - destruct (serverList s !! N.to_nat (indexNumber id)) as [[e |] |] eqn:E.
      + destruct (N.lt_trichotomy (generationNumber id)
                    (generationNumber (serverId e))) as [Hlt | [Heq | Hgt]].
        * destruct (crashed_ignored 2 id l sv mb s e E (or_introl Hlt))
            as (s0 & E0 & H0 & _).
          exists false, s0. split; [exact E0 | left; exact H0].
        * assert (serverId e = id) as Hid.
          { specialize (Hs _ _ E). destruct (serverId e) as [i g], id.
            simpl in *. f_equal; lia. }
          destruct (status e) eqn:Hst.
          -- destruct (crashed_up 2 id l sv mb s e E Hid Hst)
               as (s0 & E0 & H0 & _).
             exists true, s0. split; [exact E0 |].
             right. exists (Some (asCrashed e)).
             split; [intros d [= <-]; discriminate |].
             rewrite (Hin e eq_refl). exact H0.
          -- destruct (crashed_ignored 2 id l sv mb s e E
                         (or_intror (conj Heq Hst))) as (s0 & E0 & H0 & _).
             exists false, s0. split; [exact E0 | left; exact H0].
          -- exfalso. exact (Hd _ _ E Hst).
        * destruct (crashed_replaces 0 id l sv mb s e Hs E Hgt)
            as (s0 & E0 & H0 & _).
          exists true, s0. split; [exact E0 |].
          right. exists (Some (asCrashed (newDetails id l sv mb))).
          split; [intros d [= <-]; discriminate |].
          rewrite (Hin e eq_refl). exact H0.
      + destruct (crashed_fresh 1 id l sv mb s) as (s0 & E0 & H0 & _).
        * intros e He. rewrite E in He. discriminate.
        * exact Hfit.
        * exists true, s0. split; [exact E0 |].
          right. exists (Some (asCrashed (newDetails id l sv mb))).
          split; [intros d [= <-]; discriminate | exact H0].
      + destruct (crashed_fresh 1 id l sv mb s) as (s0 & E0 & H0 & _).
        * intros e He. rewrite E in He. discriminate.
        * exact Hfit.
        * exists true, s0. split; [exact E0 |].
          right. exists (Some (asCrashed (newDetails id l sv mb))).
          split; [intros d [= <-]; discriminate | exact H0].
    - destruct (serverList s !! N.to_nat (indexNumber id)) as [[e |] |] eqn:E.
      + destruct (N.lt_ge_cases (generationNumber id)
                    (generationNumber (serverId e))) as [Hlt | Hge].
        * destruct (remove_unknown 2 id s) as (s0 & E0 & H0 & _).
          { intros e' He'. rewrite E in He'. injection He' as <-.
            exact Hlt. }
          exists false, s0. split; [exact E0 | left; exact H0].
        * destruct (remove_known 1 id s e Hs E Hge) as (s0 & E0 & H0 & _).
          exists true, s0. split; [exact E0 |].
          right. exists None. split; [discriminate |].
          rewrite (Hin e eq_refl). exact H0.
      + destruct (remove_unknown 2 id s) as (s0 & E0 & H0 & _).
        { intros e' He'. rewrite E in He'. discriminate. }
        exists false, s0. split; [exact E0 | left; exact H0].
      + destruct (remove_unknown 2 id s) as (s0 & E0 & H0 & _).
        { intros e' He'. rewrite E in He'. discriminate. }
        exists false, s0. split; [exact E0 | left; exact H0]. }
  rewrite E. simpl. split.
  - exact (sound_returned r s s' b Hs E).
  - destruct Hsl as [Hsame | (x & Hx & Hsl)].
    + exact (noneDown_same _ _ Hsame Hd).
    + exact (noneDown_written _ _ _ _ Hsl Hx Hd).
Qed.

Lemma inOrder_LOG (l : LogLevel) (s : ServerList) :
  inOrder s -> finishes (LOG l s) (fun _ s' => inOrder s').
Proof. intros H. exact H. Qed.

Lemma applyEntries_finishes (isValid : ServerId -> bool)
    (l : list ProtoBuf_Entry) (s : ServerList) :
  (forall e, In e l ->
     isValid (server_id e) = true
     /\ indexNumber (server_id e) + 1 < 2 ^ 32) ->
  inOrder s ->
  finishes (applyEntries isValid l s) (fun _ s' => inOrder s').
Proof.
  revert s. induction l as [| e l IH]; intros s Hl Hs; simpl.
  - exact Hs.
  - destruct (Hl e (or_introl eq_refl)) as [Hv Hfit].
    assert (forall e', In e' l ->
               isValid (server_id e') = true
               /\ indexNumber (server_id e') + 1 < 2 ^ 32) as Hl'.
    { intros e' He'. apply Hl. right. exact He'. }
    rewrite Hv. unfold bind at 1. simpl.
    destruct (entry_status e).
    + eapply finishes_bind; [apply inOrder_LOG; exact Hs |].
      intros [] s1 Hs1.
      eapply finishes_bind.
      * apply (request_finishes (Add _ _ _ _) s1 Hs1). intros _. exact Hfit.
      * intros b s2 Hs2. apply IH; assumption.
    + unfold bind at 1. unfold get.
      destruct (iget (server_id e) s).
      * eapply finishes_bind; [apply inOrder_LOG; exact Hs |].
        intros [] s1 Hs1.
        eapply finishes_bind.
        -- apply (request_finishes (Crashed _ _ _ _) s1 Hs1).
           intros _. exact Hfit.
        -- intros b s2 Hs2. apply IH; assumption.
      * eapply finishes_bind; [apply inOrder_LOG; exact Hs |].
        intros [] s1 Hs1. exact Hs1.
    + unfold bind at 1. unfold get.
      destruct (iget (server_id e) s).
      * eapply finishes_bind; [apply inOrder_LOG; exact Hs |].
        intros [] s1 Hs1.
        eapply finishes_bind.
        -- apply (request_finishes (Remove _) s1 Hs1).
           intros _. exact Hfit.
        -- intros b s2 Hs2. apply IH; assumption.
      * eapply finishes_bind; [apply inOrder_LOG; exact Hs |].
        intros [] s1 Hs1. exact Hs1.
Qed.

Lemma forEach_finishes {A : Type} (f : A -> Call unit) (l : list A)
    (I : ServerList -> Prop) (s : ServerList) :
  I s ->
  (forall x s0, In x l -> I s0 -> finishes (f x s0) (fun _ s' => I s')) ->
  finishes (forEach f l s) (fun _ s' => I s').
Proof.
  revert s. induction l as [| x l IH]; intros s Hs Hf; simpl.
  - exact Hs.
  - eapply finishes_bind.
    + apply Hf; [left; reflexivity | exact Hs].
    + intros ? s1 H1. apply IH; [exact H1 |].
      intros y s0 Hy. apply Hf. right. exact Hy.
Qed.

Lemma existsb_absent (ids : list ServerId) (id : ServerId) :
  id ∉ ids -> existsb (ServerId_eqb id) ids = false.
Proof.
  intros Hnot. destruct (existsb (ServerId_eqb id) ids) eqn:E;
    [| reflexivity].
  exfalso. apply existsb_exists in E as (x & Hx & Heq).
  apply ServerId_eqb_eq in Heq. subst x.
  apply Hnot. apply list_elem_of_In. exact Hx.
Qed.

Lemma listIds_finishes (l : list ProtoBuf_Entry)
    (acc : Call (list ServerId)) (s : ServerList) :
  finishes (acc s)
    (fun ids s' => serverList s' = serverList s
                   /\ NoDup (rev ids ++ liveIds l)) ->
  finishes
    (fold_left
       (fun (acc : Call (list ServerId)) (e : ProtoBuf_Entry) =>
          do ids <- acc;
          if ServerStatus_eqb (entry_status e) DOWN then
            run LOG WARNING;
            ret ids
          else
            run assert (negb (existsb (ServerId_eqb (server_id e)) ids));
            ret (server_id e :: ids))
       l acc s)
    (fun _ s' => serverList s' = serverList s).
Proof.
  revert acc. induction l as [| e l IH]; intros acc Hacc; simpl.
  - destruct (acc s) as [ids s' | f]; simpl in *; tauto.
  - apply IH.
    eapply finishes_bind; [exact Hacc |].
    intros ids s1 [Hs1 Hnd]. unfold liveIds in Hnd. simpl in Hnd.
    destruct (ServerStatus_eqb (entry_status e) DOWN) eqn:Hst;
      simpl in Hnd.
    + split; assumption.
    + apply NoDup_app in Hnd as Hparts.
      destruct Hparts as (_ & Hdisj & _).
      rewrite existsb_absent.
      * simpl. split; [exact Hs1 |].
        rewrite <- app_assoc. exact Hnd.
      * intros Hin. apply (Hdisj (server_id e)).
        -- apply list_elem_of_In.
           apply (proj1 (in_rev ids (server_id e))).
           apply list_elem_of_In. exact Hin.
        -- left.
Qed.

Lemma inOrder_same (s s' : ServerList) :
  serverList s' = serverList s -> inOrder s -> inOrder s'.
Proof.
  intros Hsl [Hs Hd]. split.
  - unfold sound. rewrite Hsl. exact Hs.
  - exact (noneDown_same _ _ Hsl Hd).
Qed.

Lemma removeUnlisted_finishes (isValid : ServerId -> bool)
    (listIds : list ServerId) (n index : nat) (s : ServerList) :
  (index < n)%nat ->
  inOrder s /\ holdsOnly (fun id => isValid id = true) s
  /\ length (serverList s) = n ->
  finishes (removeUnlisted isValid listIds index s)
    (fun _ s' =>
       inOrder s' /\ holdsOnly (fun id => isValid id = true) s'
       /\ length (serverList s') = n).
Proof.
  intros Hlt ([Hs Hd] & Hv & Hlen).
  unfold removeUnlisted. unfold bind at 1. unfold slot.
  rewrite Nat2N.id.
  destruct (lookup_lt_is_Some_2 (serverList s) index ltac:(lia))
    as [entry E].
  rewrite E. destruct entry as [e |]; simpl.
  2:{ split_and!; [split |..]; assumption. }
  rewrite (Hv _ _ E). unfold bind at 1. simpl.
  destruct (existsb (ServerId_eqb (serverId e)) listIds); simpl.
  { split_and!; [split |..]; assumption. }
  pose proof (Hs _ _ E) as Hidx.
  assert (N.to_nat (indexNumber (serverId e)) = index) as Hk by lia.
  destruct (remove_known 1 (serverId e) s e Hs) as (s0 & E0 & H0 & _).
  { rewrite Hk. exact E. }
  { lia. }
  unfold bind, remove, callDepth. rewrite E0. simpl.
  rewrite Hk in H0.
  split_and!.
  - split.
    + unfold sound. rewrite H0.
      apply wellIndexed_insert; [exact Hs | discriminate].
    + intros i d. rewrite H0. intros Hi.
      destruct (decide (i = index)) as [-> | Hne].
      * rewrite list_lookup_insert_eq in Hi by lia. discriminate.
      * rewrite list_lookup_insert_ne in Hi by congruence.
        exact (Hd _ _ Hi).
  - intros i d. rewrite H0. intros Hi.
    destruct (decide (i = index)) as [-> | Hne].
    + rewrite list_lookup_insert_eq in Hi by lia. discriminate.
    + rewrite list_lookup_insert_ne in Hi by congruence.
      exact (Hv _ _ Hi).
  - rewrite H0, length_insert. exact Hlen.
Qed.

Lemma applyFullList_finishes_inOrder (isValid : ServerId -> bool)
    (lst : ProtoBuf_ServerList) (s : ServerList) :
  type lst = ServerList_Type_FULL_LIST ->
  NoDup (liveIds (server lst)) ->
  (forall e, In e (server lst) ->
     indexNumber (server_id e) + 1 < 2 ^ 32) ->
  inOrder s ->
  holdsOnly (fun id => isValid id = true) s ->
  finishes (applyFullList isValid lst s) (fun _ s' => inOrder s').
Proof.
  intros Htype Hnd Hfit Hs Hv. unfold applyFullList.
  rewrite Htype. unfold bind at 1. simpl.
  eapply finishes_bind
    with (Q := fun _ s1 => serverList s1 = serverList s);
    [reflexivity |].
  intros [] s1 H1.
  pose proof (inOrder_same _ _ H1 Hs) as Hs1.
  eapply finishes_bind
    with (Q := fun _ s2 => serverList s2 = serverList s1).
  { apply listIds_finishes. simpl. split; [reflexivity | exact Hnd]. }
  intros listIds s2 H2. unfold bind at 1. unfold get.
  eapply finishes_bind
    with (Q := fun _ s3 =>
                 inOrder s3 /\ holdsOnly (fun id => isValid id = true) s3
                 /\ length (serverList s3) = length (serverList s2)).
  { apply (forEach_finishes (removeUnlisted isValid listIds)).
    - split_and!.
      + exact (inOrder_same _ _ H2 Hs1).
      + intros i d. rewrite H2, H1. apply Hv.
      + reflexivity.
    - intros index s0 Hin H0. apply in_seq in Hin.
      apply (removeUnlisted_finishes isValid listIds
               (length (serverList s2)) index s0); [lia | exact H0]. }
  intros ? s3 (Hs3 & _ & _).
  eapply finishes_bind with (Q := fun _ s4 => inOrder s4).
  { apply (forEach_finishes _ _ inOrder); [exact Hs3 |].
    intros e s0 He Hs0.
    destruct (ServerStatus_eqb (entry_status e) CRASHED); [| exact Hs0].
    eapply finishes_bind.
    - apply (request_finishes (Crashed _ _ _ _) s0 Hs0).
      intros _. apply Hfit. exact He.
    - intros ? s' H'. exact H'. }
  intros ? s4 Hs4.
  eapply finishes_bind with (Q := fun _ s5 => inOrder s5).
  { apply (forEach_finishes _ _ inOrder); [exact Hs4 |].
    intros e s0 He Hs0.
    destruct (ServerStatus_eqb (entry_status e) UP); [| exact Hs0].
    eapply finishes_bind.
    - apply (request_finishes (Add _ _ _ _) s0 Hs0).
      intros _. apply Hfit. exact He.
    - intros ? s' H'. exact H'. }
  intros ? s5 Hs5. exact Hs5.
Qed.

(** *** What the slots hold *)
Lemma content_insert_eq (s' : ServerList) (index : nat)
    (x : option ServerDetails) (l : list (option ServerDetails)) :
  serverList s' = <[index := x]> l -> (index < length l)%nat ->
  content s' index = x.
Proof.
  intros Hs Hlt. unfold content. rewrite Hs.
  rewrite list_lookup_insert_eq by exact Hlt. destruct x; reflexivity.
Qed.

Lemma content_grown (s s' : ServerList) (index j : nat)
    (x : option ServerDetails) :
  serverList s' = <[index := x]> (grown index (serverList s)) ->
  j <> index -> content s' j = content s j.
Proof.
  intros Hs Hne. unfold content. rewrite Hs.
  rewrite list_lookup_insert_ne by congruence.
  unfold grown.
  destruct (decide (j < length (serverList s))%nat) as [Hlt | Hge].
  - rewrite lookup_app_l by exact Hlt. reflexivity.
  - rewrite lookup_app_r by lia.
    rewrite (lookup_ge_None_2 (serverList s)) by lia.
    destruct (replicate _ _ !! _) as [o |] eqn:Hr; [| reflexivity].
    apply lookup_replicate in Hr as [-> _]. reflexivity.
Qed.

Lemma content_same (s s' : ServerList) (j : nat) :
  serverList s' = serverList s -> content s' j = content s j.
Proof. intros H. unfold content. rewrite H. reflexivity. Qed.

Lemma content_Some (s : ServerList) (j : nat) (d : ServerDetails) :
  content s j = Some d <-> serverList s !! j = Some (Some d).
Proof.
  unfold content. destruct (serverList s !! j) as [[e |] |]; split;
    intros H; try discriminate; congruence.
Qed.

Lemma iget_content (id : ServerId) (s : ServerList) :
  iget id s
  = match content s (N.to_nat (indexNumber id)) with
    | Some d => if ServerId_eqb (serverId d) id then Some d else None
    | None => None
    end.
Proof.
  unfold iget, content.
  destruct (serverList s !! N.to_nat (indexNumber id)) as [[e |] |];
    reflexivity.
Qed.

Lemma asCrashed_crashed (d : ServerDetails) :
  status d = CRASHED -> asCrashed d = d.
Proof. intros H. destruct d. simpl in H. subst. reflexivity. Qed.

(** *** One request, exactly *)
Lemma request_exact (r : Request) (s : ServerList) :
  inOrder s ->
  (size_of s <= indexNumber (requestId r) ->
   indexNumber (requestId r) + 1 < 2 ^ 32) ->
  finishes (invoke callDepth r s)
    (fun _ s' =>
       inOrder s'
       /\ content s' (N.to_nat (indexNumber (requestId r)))
          = leaves r (content s (N.to_nat (indexNumber (requestId r))))
       /\ forall j, j <> N.to_nat (indexNumber (requestId r)) ->
                    content s' j = content s j).
Proof.
  intros Hin Hfit. pose proof Hin as [Hs Hd].
  pose proof (request_finishes r s Hin Hfit) as Hfin.
  destruct (invoke callDepth r s) as [b s' |] eqn:Hr; simpl in *;
    [| contradiction].
  split; [exact Hfin |].
  assert (forall e,
             serverList s !! N.to_nat (indexNumber (requestId r))
             = Some (Some e) ->
             grown (N.to_nat (indexNumber (requestId r))) (serverList s)
             = serverList s) as Hgr.
  { intros e E. apply grown_in_range. eapply lookup_lt_Some. exact E. }
  assert (forall x,
             serverList s'
             = <[N.to_nat (indexNumber (requestId r)) := x]>
                 (grown (N.to_nat (indexNumber (requestId r)))
                    (serverList s)) ->
             content s' (N.to_nat (indexNumber (requestId r))) = x
             /\ forall j, j <> N.to_nat (indexNumber (requestId r)) ->
                          content s' j = content s j) as Hwr.
  { intros x Hsl. split.
    - apply (content_insert_eq _ _ _ _ Hsl). apply grown_length_vacant.
    - intros j Hj. exact (content_grown _ _ _ _ _ Hsl Hj). }
  assert (serverList s' = serverList s ->
          forall j, content s' j = content s j) as Hsame.
  { intros H j. apply content_same. exact H. }
  unfold callDepth in Hr.
  destruct r as [id l sv mb | id l sv mb | id]; simpl requestId in *.
  - (* add *)
    rewrite invoke_Add in Hr. unfold content at 2.
    destruct (serverList s !! N.to_nat (indexNumber id)) as [[e |] |] eqn:E;
      simpl leaves.
    + destruct (N.le_gt_cases (generationNumber id)
                  (generationNumber (serverId e))) as [Hle | Hgt].
      * destruct (add_ignored (fun i => invoke 2 (Remove i)) id l sv mb s e
                    E Hle) as (s0 & E0 & H0 & _).
        rewrite E0 in Hr. injection Hr as _ <-.
        assert ((generationNumber (serverId e) <? generationNumber id)
                = false) as -> by (apply N.ltb_ge; exact Hle).
        split; [| intros j _; apply Hsame; exact H0].
        rewrite (Hsame H0). apply content_Some. exact E.
      * destruct (add_replaces 0 id l sv mb s e Hs E Hgt)
          as (s0 & E0 & H0 & _).
        rewrite invoke_Add, Hr in E0. injection E0 as _ <-.
        assert ((generationNumber (serverId e) <? generationNumber id)
                = true) as -> by (apply N.ltb_lt; exact Hgt).
        apply Hwr. rewrite (Hgr e eq_refl). exact H0.
    + destruct (add_fresh (fun i => invoke 2 (Remove i)) id l sv mb s)
        as (s0 & E0 & H0 & _).
      * intros e He. rewrite E in He. discriminate.
      * exact Hfit.
      * rewrite E0 in Hr. injection Hr as _ <-. apply Hwr. exact H0.
    + destruct (add_fresh (fun i => invoke 2 (Remove i)) id l sv mb s)
        as (s0 & E0 & H0 & _).
      * intros e He. rewrite E in He. discriminate.
      * exact Hfit.
      * rewrite E0 in Hr. injection Hr as _ <-. apply Hwr. exact H0.
  - (* crashed *)
    unfold content at 2.
    destruct (serverList s !! N.to_nat (indexNumber id)) as [[e |] |] eqn:E;
      simpl leaves.
    + destruct (N.lt_trichotomy (generationNumber id)
                  (generationNumber (serverId e))) as [Hlt | [Heq | Hgt]].
      * destruct (crashed_ignored 2 id l sv mb s e E (or_introl Hlt))
          as (s0 & E0 & H0 & _).
        rewrite E0 in Hr. injection Hr as _ <-.
        assert ((generationNumber id <? generationNumber (serverId e))
                = true) as -> by (apply N.ltb_lt; exact Hlt).
        split; [| intros j _; apply Hsame; exact H0].
        rewrite (Hsame H0). apply content_Some. exact E.
      * assert (serverId e = id) as Hid.
        { specialize (Hs _ _ E). destruct (serverId e) as [i g], id.
          simpl in *. f_equal; lia. }
        rewrite Heq, N.ltb_irrefl.
        destruct (status e) eqn:Hst.
        -- destruct (crashed_up 2 id l sv mb s e E Hid Hst)
             as (s0 & E0 & H0 & _).
           rewrite E0 in Hr. injection Hr as _ <-.
           apply Hwr. rewrite (Hgr e eq_refl). exact H0.
        -- destruct (crashed_ignored 2 id l sv mb s e E
                       (or_intror (conj Heq Hst))) as (s0 & E0 & H0 & _).
           rewrite E0 in Hr. injection Hr as _ <-.
           split; [| intros j _; apply Hsame; exact H0].
           rewrite (Hsame H0), (asCrashed_crashed e Hst).
           apply content_Some. exact E.
        -- exfalso. exact (Hd _ _ E Hst).
      * destruct (crashed_replaces 0 id l sv mb s e Hs E Hgt)
          as (s0 & E0 & H0 & _).
        rewrite E0 in Hr. injection Hr as _ <-.
        assert ((generationNumber id <? generationNumber (serverId e))
                = false) as -> by (apply N.ltb_ge; lia).
        assert ((generationNumber (serverId e) <? generationNumber id)
                = true) as -> by (apply N.ltb_lt; exact Hgt).
        apply Hwr. rewrite (Hgr e eq_refl). exact H0.
    + destruct (crashed_fresh 1 id l sv mb s) as (s0 & E0 & H0 & _).
      * intros e He. rewrite E in He. discriminate.
      * exact Hfit.
      * rewrite E0 in Hr. injection Hr as _ <-. apply Hwr. exact H0.
    + destruct (crashed_fresh 1 id l sv mb s) as (s0 & E0 & H0 & _).
      * intros e He. rewrite E in He. discriminate.
      * exact Hfit.
      * rewrite E0 in Hr. injection Hr as _ <-. apply Hwr. exact H0.
  - (* remove *)
    unfold content at 2.
    destruct (serverList s !! N.to_nat (indexNumber id)) as [[e |] |] eqn:E;
      simpl leaves.
    + destruct (N.lt_ge_cases (generationNumber id)
                  (generationNumber (serverId e))) as [Hlt | Hge].
      * destruct (remove_unknown 2 id s) as (s0 & E0 & H0 & _).
        { intros e' He'. rewrite E in He'. injection He' as <-.
          exact Hlt. }
        rewrite E0 in Hr. injection Hr as _ <-.
        assert ((generationNumber id <? generationNumber (serverId e))
                = true) as -> by (apply N.ltb_lt; exact Hlt).
        split; [| intros j _; apply Hsame; exact H0].
        rewrite (Hsame H0). apply content_Some. exact E.
      * destruct (remove_known 1 id s e Hs E Hge) as (s0 & E0 & H0 & _).
        rewrite E0 in Hr. injection Hr as _ <-.
        assert ((generationNumber id <? generationNumber (serverId e))
                = false) as -> by (apply N.ltb_ge; exact Hge).
        apply Hwr. rewrite (Hgr e eq_refl). exact H0.
    + destruct (remove_unknown 2 id s) as (s0 & E0 & H0 & _).
      { intros e' He'. rewrite E in He'. discriminate. }
      rewrite E0 in Hr. injection Hr as _ <-.
      split; [| intros j _; apply Hsame; exact H0].
      rewrite (Hsame H0). unfold content. rewrite E. reflexivity.
    + destruct (remove_unknown 2 id s) as (s0 & E0 & H0 & _).
      { intros e' He'. rewrite E in He'. discriminate. }
      rewrite E0 in Hr. injection Hr as _ <-.
      split; [| intros j _; apply Hsame; exact H0].
      rewrite (Hsame H0). unfold content. rewrite E. reflexivity.
Qed.

(** *** Requests for different slots, one after the other *)
Lemma finishes_drop {A : Type} (c : Call A) (s : ServerList)
    (P : ServerList -> Prop) :
  finishes (c s) (fun _ s' => P s') ->
  finishes (bind c (fun _ => ret tt) s) (fun _ s' => P s').
Proof.
  intros H. unfold bind. destruct (c s) as [a s' | f]; exact H.
Qed.

Lemma invokeAll_exact (rs : list Request) :
  forall s : ServerList,
    inOrder s ->
    NoDup (map slotOf rs) ->
    (forall r, In r rs -> indexNumber (requestId r) + 1 < 2 ^ 32) ->
    finishes (invokeAll rs s)
      (fun _ s' =>
         inOrder s'
         /\ (forall r, In r rs ->
               content s' (slotOf r) = leaves r (content s (slotOf r)))
         /\ forall j, (forall r, In r rs -> slotOf r <> j) ->
                      content s' j = content s j).
Proof.
  induction rs as [| r rs IH]; intros s Hs Hnd Hfit.
  - simpl. split_and!; [exact Hs | intros r [] | reflexivity].
  - apply NoDup_cons in Hnd as [Hr Hnd].
    unfold invokeAll. simpl forEach.
    eapply finishes_bind.
    { apply finishes_drop.
      apply (request_exact r s Hs). intros _. apply Hfit. left. reflexivity. }
    intros [] s1 (Hs1 & Hown & Hframe).
    assert (forall r', In r' rs -> indexNumber (requestId r') + 1 < 2 ^ 32)
      as Hfit'.
    { intros r' Hr'. apply Hfit. right. exact Hr'. }
    pose proof (IH s1 Hs1 Hnd Hfit') as Hrest.
    unfold invokeAll in Hrest.
    assert (forall r', In r' rs -> slotOf r' <> slotOf r) as Hother.
    { intros r' Hr' Heq. apply Hr. rewrite <- Heq.
      apply list_elem_of_In. apply in_map. exact Hr'. }
    destruct (forEach _ rs s1) as [[] s2 |]; simpl in Hrest |- *;
      [| contradiction].
    destruct Hrest as (Hs2 & Hown2 & Hframe2).
    split_and!.
    + exact Hs2.
    + intros r' [<- | Hr'].
      * rewrite Hframe2 by exact Hother. exact Hown.
      * rewrite (Hown2 r' Hr'). f_equal. apply Hframe.
        apply Hother. exact Hr'.
    + intros j Hj. rewrite Hframe2.
      * apply Hframe. intros Heq. apply (Hj r); [left; reflexivity |].
        symmetry. exact Heq.
      * intros r' Hr'. apply Hj. right. exact Hr'.
Qed.

(** *** The loops of [applyFullList] *)
Lemma bind_ext {A B : Type} (c : Call A) (k1 k2 : A -> Call B)
    (s : ServerList) :
  (forall a s', k1 a s' = k2 a s') -> bind c k1 s = bind c k2 s.
Proof.
  intros H. unfold bind. destruct (c s) as [a s' | f]; [apply H | reflexivity].
Qed.

Lemma forEach_requests (active : ProtoBuf_Entry -> bool)
    (l : list ProtoBuf_Entry) (s : ServerList) :
  forEach
    (fun e => if active e
              then do _ <- invoke callDepth (requestFor e); ret tt
              else ret tt) l s
  = invokeAll (map requestFor (List.filter active l)) s.
Proof.
  unfold invokeAll. revert s. induction l as [| e l IH]; intros s; simpl.
  - reflexivity.
  - destruct (active e); simpl.
    + apply bind_ext. intros [] s'. apply IH.
    + apply IH.
Qed.

Lemma forEach_ext {A : Type} (f g : A -> Call unit) (l : list A)
    (s : ServerList) :
  (forall x s', f x s' = g x s') -> forEach f l s = forEach g l s.
Proof.
  intros H. revert s. induction l as [| x l IH]; intros s; simpl.
  - reflexivity.
  - unfold bind. rewrite H. destruct (g x s) as [[] s' | f0];
      [apply IH | reflexivity].
Qed.

(** *** The ids of the coordinator's list *)
Lemma liveIds_In (l : list ProtoBuf_Entry) (id : ServerId) :
  In id (liveIds l) <->
  exists e, In e l /\ server_id e = id /\ entry_status e <> DOWN.
Proof.
  unfold liveIds. rewrite in_map_iff. split.
  - intros (e & He & Hin). apply filter_In in Hin as [Hin Hlive].
    exists e. split_and!; [exact Hin | exact He |].
    intros Hd. rewrite Hd in Hlive. discriminate.
  - intros (e & Hin & He & Hlive). exists e. split; [exact He |].
    apply filter_In. split; [exact Hin |].
    destruct (entry_status e); try reflexivity. congruence.
Qed.

Lemma NoDup_map_inj {A B : Type} (f : A -> B) (l : list A) (a b : A) :
  NoDup (map f l) -> In a l -> In b l -> f a = f b -> a = b.
Proof.
  induction l as [| x l IH]; intros Hnd Ha Hb Hab; [destruct Ha |].
  simpl in Hnd. apply NoDup_cons in Hnd as [Hx Hnd].
  destruct Ha as [<- | Ha], Hb as [<- | Hb].
  - reflexivity.
  - exfalso. apply Hx. rewrite Hab. apply list_elem_of_In.
    apply in_map. exact Hb.
  - exfalso. apply Hx. rewrite <- Hab. apply list_elem_of_In.
    apply in_map. exact Ha.
  - apply IH; assumption.
Qed.

Lemma slotOf_requestFor (e : ProtoBuf_Entry) :
  slotOf (requestFor e) = N.to_nat (indexNumber (server_id e)).
Proof. unfold slotOf, requestFor. destruct (entry_status e); reflexivity. Qed.

Lemma requests_distinct (p : ProtoBuf_Entry -> bool)
    (l : list ProtoBuf_Entry) :
  (forall e, p e = true -> entry_status e <> DOWN) ->
  NoDup (map indexNumber (liveIds l)) ->
  NoDup (map slotOf (map requestFor (List.filter p l))).
Proof.
  intros Hp. induction l as [| e l IH]; intros Hnd; simpl.
  - constructor.
  - assert (NoDup (map indexNumber (liveIds l))) as Hnd'.
    { unfold liveIds in Hnd |- *. simpl in Hnd.
      destruct (negb (ServerStatus_eqb (entry_status e) DOWN));
        [| exact Hnd].
      simpl in Hnd. apply NoDup_cons in Hnd as [_ Hnd]. exact Hnd. }
    destruct (p e) eqn:Hpe; [| apply IH; exact Hnd'].
    simpl. apply NoDup_cons. split; [| apply IH; exact Hnd'].
    intros Hin. apply list_elem_of_In in Hin.
    rewrite map_map in Hin. apply in_map_iff in Hin as (e' & Hslot & He').
    apply filter_In in He' as [He' Hpe'].
    rewrite !slotOf_requestFor in Hslot.
    assert (indexNumber (server_id e') = indexNumber (server_id e)) as Hidx
      by lia.
    unfold liveIds in Hnd. simpl in Hnd.
    assert (negb (ServerStatus_eqb (entry_status e) DOWN) = true) as Hlive.
    { specialize (Hp e Hpe). destruct (entry_status e); try reflexivity.
      congruence. }
    rewrite Hlive in Hnd. simpl in Hnd.
    apply NoDup_cons in Hnd as [Hhead _]. apply Hhead.
    rewrite <- Hidx. apply list_elem_of_In. apply in_map.
    apply liveIds_In. exists e'. split_and!; [exact He' | reflexivity |].
    apply Hp. exact Hpe'.
Qed.

Lemma listIds_exact (P : ServerId -> Prop) (l : list ProtoBuf_Entry)
    (acc : Call (list ServerId)) (s : ServerList) :
  finishes (acc s)
    (fun ids s' =>
       serverList s' = serverList s
       /\ NoDup (rev ids ++ liveIds l)
       /\ forall id, In id ids \/ In id (liveIds l) <-> P id) ->
  finishes
    (fold_left
       (fun (acc : Call (list ServerId)) (e : ProtoBuf_Entry) =>
          do ids <- acc;
          if ServerStatus_eqb (entry_status e) DOWN then
            run LOG WARNING;
            ret ids
          else
            run assert (negb (existsb (ServerId_eqb (server_id e)) ids));
            ret (server_id e :: ids))
       l acc s)
    (fun ids s' =>
       serverList s' = serverList s /\ forall id, In id ids <-> P id).
Proof.
  revert acc. induction l as [| e l IH]; intros acc Hacc; simpl.
  - destruct (acc s) as [ids s' | f]; simpl in *; [| tauto].
    destruct Hacc as (H1 & _ & H3). split; [exact H1 |].
    intros id. rewrite <- H3. tauto.
  - apply IH.
    eapply finishes_bind; [exact Hacc |].
    intros ids s1 (Hs1 & Hnd & HP). unfold liveIds in Hnd, HP.
    simpl in Hnd, HP.
    destruct (ServerStatus_eqb (entry_status e) DOWN) eqn:Hst;
      simpl in Hnd, HP.
    + split_and!; assumption.
    + apply NoDup_app in Hnd as Hparts.
      destruct Hparts as (_ & Hdisj & _).
      rewrite existsb_absent.
      * simpl. split_and!; [exact Hs1 | |].
        -- rewrite <- app_assoc. exact Hnd.
        -- intros id. rewrite <- HP. unfold liveIds. tauto.
      * intros Hin. apply (Hdisj (server_id e)).
        -- apply list_elem_of_In.
           apply (proj1 (in_rev ids (server_id e))).
           apply list_elem_of_In. exact Hin.
        -- left.
Qed.

Lemma removeUnlisted_exact (isValid : ServerId -> bool)
    (listIds : list ServerId) (s : ServerList) (n m : nat) :
  forall (k : nat) (sk : ServerList),
    (k + m = n)%nat ->
    inOrder sk ->
    holdsOnly (fun id => isValid id = true) sk ->
    length (serverList sk) = n ->
    (forall j d,
        content sk j = Some d <->
        content s j = Some d
        /\ ((j < k)%nat ->
            existsb (ServerId_eqb (serverId d)) listIds = true)) ->
    finishes (forEach (removeUnlisted isValid listIds) (seq k m) sk)
      (fun _ s' =>
         inOrder s'
         /\ forall j d,
              content s' j = Some d <->
              content s j = Some d
              /\ existsb (ServerId_eqb (serverId d)) listIds = true).
Proof.
  induction m as [| m IH]; intros k sk Hkm Hin Hv Hlen Hc; simpl.
  - split; [exact Hin |]. intros j d. rewrite Hc. split.
    + intros [H1 H2]. split; [exact H1 |]. apply H2.
      assert (content sk j = Some d) as Hj by (apply Hc; tauto).
      apply content_Some in Hj. apply lookup_lt_Some in Hj. lia.
    + intros [H1 H2]. split; [exact H1 | intros _; exact H2].
  - eapply finishes_bind
      with (Q := fun _ s1 =>
                   inOrder s1
                   /\ holdsOnly (fun id => isValid id = true) s1
                   /\ length (serverList s1) = n
                   /\ forall j d,
                        content s1 j = Some d <->
                        content s j = Some d
                        /\ ((j < S k)%nat ->
                            existsb (ServerId_eqb (serverId d)) listIds
                            = true)).
    2:{ intros ? s1 (H1 & H2 & H3 & H4).
        apply (IH (S k) s1); [lia | assumption..]. }
    pose proof Hin as [Hs Hd].
    unfold removeUnlisted. unfold bind at 1. unfold slot.
    rewrite Nat2N.id.
    destruct (lookup_lt_is_Some_2 (serverList sk) k ltac:(lia))
      as [entry E].
    rewrite E. destruct entry as [e |]; simpl.
    2:{ split_and!; [assumption..|].
        intros j d. rewrite Hc. split.
        - intros [H1 H2]. split; [exact H1 |]. intros Hj.
          destruct (decide (j = k)) as [-> | Hne]; [| apply H2; lia].
          assert (content sk k = Some d) as Hk by (apply Hc; tauto).
          unfold content in Hk. rewrite E in Hk. discriminate.
        - intros [H1 H2]. split; [exact H1 |]. intros Hj. apply H2. lia. }
    assert (content sk k = Some e) as Hke.
    { unfold content. rewrite E. reflexivity. }
    rewrite (Hv _ _ E). unfold bind at 1. simpl.
    destruct (existsb (ServerId_eqb (serverId e)) listIds) eqn:Hex; simpl.
    { split_and!; [assumption..|].
      intros j d. rewrite Hc. split.
      - intros [H1 H2]. split; [exact H1 |]. intros Hj.
        destruct (decide (j = k)) as [-> | Hne]; [| apply H2; lia].
        assert (content sk k = Some d) as Hk by (apply Hc; tauto).
        rewrite Hke in Hk. injection Hk as <-. exact Hex.
      - intros [H1 H2]. split; [exact H1 |]. intros Hj. apply H2. lia. }
    pose proof (Hs _ _ E) as Hidx.
    assert (N.to_nat (indexNumber (serverId e)) = k) as Hk by lia.
    destruct (remove_known 1 (serverId e) sk e Hs) as (s0 & E0 & H0 & _).
    { rewrite Hk. exact E. }
    { lia. }
    unfold bind, remove, callDepth. rewrite E0. simpl.
    rewrite Hk in H0.
    assert (forall j, j <> k -> content s0 j = content sk j) as Hframe.
    { intros j Hj. unfold content. rewrite H0.
      rewrite list_lookup_insert_ne by congruence. reflexivity. }
    assert (content s0 k = None) as Hgone.
    { unfold content. rewrite H0.
      rewrite list_lookup_insert_eq by lia. reflexivity. }
    split_and!.
    + split.
      * unfold sound. rewrite H0.
        apply wellIndexed_insert; [exact Hs | discriminate].
      * intros i d. rewrite H0. intros Hi.
        destruct (decide (i = k)) as [-> | Hne].
        -- rewrite list_lookup_insert_eq in Hi by lia. discriminate.
        -- rewrite list_lookup_insert_ne in Hi by congruence.
           exact (Hd _ _ Hi).
    + intros i d. rewrite H0. intros Hi.
      destruct (decide (i = k)) as [-> | Hne].
      * rewrite list_lookup_insert_eq in Hi by lia. discriminate.
      * rewrite list_lookup_insert_ne in Hi by congruence.
        exact (Hv _ _ Hi).
    + rewrite H0, length_insert. exact Hlen.
    + intros j d. destruct (decide (j = k)) as [-> | Hne].
      * rewrite Hgone. split; [discriminate |].
        intros [H1 H2]. specialize (H2 ltac:(lia)).
        assert (content sk k = Some d) as Hkd.
        { apply Hc. split; [exact H1 | intros Hlt; lia]. }
        rewrite Hke in Hkd. injection Hkd as <-. congruence.
      * rewrite (Hframe j Hne), Hc. split.
        -- intros [H1 H2]. split; [exact H1 |]. intros Hj. apply H2. lia.
        -- intros [H1 H2]. split; [exact H1 |]. intros Hj. apply H2. lia.
Qed.

Lemma leaves_installed (e : ProtoBuf_Entry) (before : option ServerDetails) :
  entry_status e <> DOWN ->
  (forall d, before = Some d -> serverId d = server_id e) ->
  leaves (requestFor e) before = Some (installed e before).
Proof.
  intros Hlive Hid. unfold requestFor, installed.
  destruct before as [d |].
  - rewrite <- (Hid d eq_refl).
    destruct (entry_status e); simpl; rewrite ?N.ltb_irrefl;
      try reflexivity; congruence.
  - destruct (entry_status e); simpl; try reflexivity; congruence.
Qed.

Lemma installed_id (e : ProtoBuf_Entry) (before : option ServerDetails) :
  (forall d, before = Some d -> serverId d = server_id e) ->
  serverId (installed e before) = server_id e.
Proof.
  intros Hid. unfold installed.
  destruct before as [d |]; destruct (entry_status e); simpl;
    try reflexivity; apply Hid; reflexivity.
Qed.

Lemma iget_Some_id (id : ServerId) (s : ServerList) (d : ServerDetails) :
  iget id s = Some d ->
  serverId d = id /\ content s (N.to_nat (indexNumber id)) = Some d.
Proof.
  rewrite iget_content.
  destruct (content s (N.to_nat (indexNumber id))) as [d' |];
    [| discriminate].
  destruct (ServerId_eqb (serverId d') id) eqn:Heq; [| discriminate].
  intros [= ->]. apply ServerId_eqb_eq in Heq. split; [exact Heq | reflexivity].
Qed.

Lemma applyFullList_exact (isValid : ServerId -> bool)
    (lst : ProtoBuf_ServerList) (s : ServerList) :
  type lst = ServerList_Type_FULL_LIST ->
  NoDup (map indexNumber (liveIds (server lst))) ->
  (forall e, In e (server lst) ->
     indexNumber (server_id e) + 1 < 2 ^ 32) ->
  inOrder s ->
  holdsOnly (fun id => isValid id = true) s ->
  finishes (applyFullList isValid lst s)
    (fun _ s' =>
       inOrder s'
       /\ forall e, In e (server lst) -> entry_status e <> DOWN ->
            iget (server_id e) s'
            = Some (installed e (iget (server_id e) s))).
Proof.
  intros Htype Hnd Hfit Hs Hv. unfold applyFullList.
  rewrite Htype. unfold bind at 1. simpl.
  eapply finishes_bind
    with (Q := fun _ s1 => serverList s1 = serverList s);
    [reflexivity |].
  intros [] s1 H1.
  pose proof (inOrder_same _ _ H1 Hs) as Hs1.
  assert (NoDup (liveIds (server lst))) as Hids.
  { clear -Hnd. induction (liveIds (server lst)) as [| x l IH];
      [constructor |].
    simpl in Hnd. apply NoDup_cons in Hnd as [Hx Hnd].
    apply NoDup_cons. split; [| apply IH; exact Hnd].
    intros Hin. apply Hx. apply list_elem_of_In. apply in_map.
    apply list_elem_of_In. exact Hin. }
  eapply finishes_bind
    with (Q := fun ids s2 =>
                 serverList s2 = serverList s1
                 /\ forall id, In id ids <-> In id (liveIds (server lst))).
  { apply (listIds_exact (fun id => In id (liveIds (server lst)))).
    simpl. split_and!; [reflexivity | exact Hids |].
    intros id. tauto. }
  intros listIds s2 [H2 Hlist]. unfold bind at 1. unfold get.
  assert (forall id, existsb (ServerId_eqb id) listIds = true
                     <-> In id (liveIds (server lst))) as Hex.
  { intros id. rewrite <- Hlist. rewrite existsb_exists. split.
    - intros (x & Hx & Heq). apply ServerId_eqb_eq in Heq. subst x. exact Hx.
    - intros Hin. exists id. split; [exact Hin | apply ServerId_eqb_refl]. }
  assert (serverList s2 = serverList s) as H2s by congruence.
  eapply finishes_bind
    with (Q := fun _ s3 =>
                 inOrder s3
                 /\ forall j d,
                      content s3 j = Some d <->
                      content s j = Some d
                      /\ existsb (ServerId_eqb (serverId d)) listIds = true).
  { apply (removeUnlisted_exact isValid listIds s
             (length (serverList s2)) (length (serverList s2)) 0%nat s2).
    - reflexivity.
    - exact (inOrder_same _ _ H2 Hs1).
    - intros i d. rewrite H2s. apply Hv.
    - reflexivity.
    - intros j d. rewrite (content_same s s2 j H2s). split.
      + intros H. split; [exact H | intros Hlt; lia].
      + intros [H _]. exact H. }
  intros ? s3 [Hs3 Hc3].
  (* what the slot of a listed server holds after the first loop *)
  assert (forall e, In e (server lst) -> entry_status e <> DOWN ->
             content s3 (N.to_nat (indexNumber (server_id e)))
             = iget (server_id e) s) as Hkept.
  { intros e He Hlive.
    assert (In (server_id e) (liveIds (server lst))) as Hin.
    { apply liveIds_In. exists e. split_and!; [exact He | reflexivity |].
      exact Hlive. }
    rewrite iget_content.
    destruct (content s (N.to_nat (indexNumber (server_id e))))
      as [d |] eqn:Hd.
    - destruct (existsb (ServerId_eqb (serverId d)) listIds) eqn:Hl.
      + assert (serverId d = server_id e) as Hsame.
        { apply (NoDup_map_inj indexNumber (liveIds (server lst)) _ _ Hnd).
          - apply Hex. exact Hl.
          - exact Hin.
          - apply content_Some in Hd. destruct Hs as [Hsound _].
            pose proof (Hsound _ _ Hd) as Hi. lia. }
        rewrite Hsame, ServerId_eqb_refl. apply Hc3. split; assumption.
      + assert (ServerId_eqb (serverId d) (server_id e) = false) as ->.
        { destruct (ServerId_eqb (serverId d) (server_id e)) eqn:Heq;
            [| reflexivity].
          apply ServerId_eqb_eq in Heq. rewrite Heq in Hl.
          apply Hex in Hin. congruence. }
        destruct (content s3 _) as [d' |] eqn:Hd'; [| reflexivity].
        apply Hc3 in Hd' as [Hd1 Hd2]. congruence.
    - destruct (content s3 _) as [d' |] eqn:Hd'; [| reflexivity].
      apply Hc3 in Hd' as [Hd1 _]. congruence. }
  set (isCrashed := fun e => ServerStatus_eqb (entry_status e) CRASHED).
  set (isUp := fun e => ServerStatus_eqb (entry_status e) UP).
  assert (forall p, (forall e, p e = true -> entry_status e <> DOWN) ->
             forall r, In r (map requestFor (List.filter p (server lst))) ->
                       indexNumber (requestId r) + 1 < 2 ^ 32) as Hfits.
  { intros p Hp r Hr. apply in_map_iff in Hr as (e & <- & He).
    apply filter_In in He as [He _]. specialize (Hfit e He).
    unfold requestFor. destruct (entry_status e); exact Hfit. }
  assert (forall e, isCrashed e = true -> entry_status e <> DOWN) as HpC.
  { intros e H Hd. unfold isCrashed in H. rewrite Hd in H. discriminate. }
  assert (forall e, isUp e = true -> entry_status e <> DOWN) as HpU.
  { intros e H Hd. unfold isUp in H. rewrite Hd in H. discriminate. }
  eapply finishes_bind
    with (Q := fun _ s4 =>
                 inOrder s4
                 /\ (forall r,
                       In r (map requestFor
                               (List.filter isCrashed (server lst))) ->
                       content s4 (slotOf r)
                       = leaves r (content s3 (slotOf r)))
                 /\ forall j,
                      (forall r,
                          In r (map requestFor
                                  (List.filter isCrashed (server lst))) ->
                          slotOf r <> j) ->
                      content s4 j = content s3 j).
  { rewrite (forEach_ext _
               (fun e => if isCrashed e
                         then do _ <- invoke callDepth (requestFor e); ret tt
                         else ret tt)).
    - rewrite forEach_requests.
      apply invokeAll_exact;
        [exact Hs3 | apply requests_distinct; assumption
        | apply Hfits; exact HpC].
    - intros e s'. unfold isCrashed, requestFor.
      destruct (entry_status e); reflexivity. }
  intros ? s4 (Hs4 & Hown4 & Hframe4).
  eapply finishes_bind
    with (Q := fun _ s5 =>
                 inOrder s5
                 /\ (forall r,
                       In r (map requestFor
                               (List.filter isUp (server lst))) ->
                       content s5 (slotOf r)
                       = leaves r (content s4 (slotOf r)))
                 /\ forall j,
                      (forall r,
                          In r (map requestFor
                                  (List.filter isUp (server lst))) ->
                          slotOf r <> j) ->
                      content s5 j = content s4 j).
  { rewrite (forEach_ext _
               (fun e => if isUp e
                         then do _ <- invoke callDepth (requestFor e); ret tt
                         else ret tt)).
    - rewrite forEach_requests.
      apply invokeAll_exact;
        [exact Hs4 | apply requests_distinct; assumption
        | apply Hfits; exact HpU].
    - intros e s'. unfold isUp, requestFor.
      destruct (entry_status e); reflexivity. }
  intros ? s5 (Hs5 & Hown5 & Hframe5).
  unfold bind, setVersion, fireCallbacks, modify. simpl.
  split; [exact Hs5 |].
  intros e He Hlive.
  assert (forall d, iget (server_id e) s = Some d ->
                    serverId d = server_id e) as Hbefore.
  { intros d Hd. apply iget_Some_id in Hd. apply Hd. }
  (* entries that are not DOWN and share a slot are the same entry *)
  assert (forall e1 e2, In e1 (server lst) -> In e2 (server lst) ->
             entry_status e1 <> DOWN -> entry_status e2 <> DOWN ->
             slotOf (requestFor e1) = slotOf (requestFor e2) ->
             e1 = e2) as Hinj.
  { intros e1 e2 H1' H2' L1 L2 Hsl. rewrite !slotOf_requestFor in Hsl.
    assert (forall x, In x (server lst) -> entry_status x <> DOWN ->
               In x (List.filter
                       (fun e => negb (ServerStatus_eqb (entry_status e)
                                         DOWN))
                       (server lst))) as Hlv.
    { intros x Hx Lx. apply filter_In. split; [exact Hx |].
      destruct (entry_status x); try reflexivity. congruence. }
    unfold liveIds in Hnd. rewrite map_map in Hnd.
    apply (NoDup_map_inj _ _ e1 e2 Hnd (Hlv e1 H1' L1) (Hlv e2 H2' L2)).
    lia. }
  assert (content
            {| serverList := serverList s5; version := version_number lst;
               trackers := map fireCallback (trackers s5);
               logged := logged s5 |}
            (N.to_nat (indexNumber (server_id e)))
          = Some (installed e (iget (server_id e) s))) as Hfinal.
  { change (content s5 (N.to_nat (indexNumber (server_id e)))
            = Some (installed e (iget (server_id e) s))).
    rewrite <- slotOf_requestFor.
    assert (entry_status e = UP \/ entry_status e = CRASHED) as [Hst | Hst].
    { destruct (entry_status e); [left | right | congruence]; reflexivity. }
    - (* UP: untouched by the second loop, added by the third *)
      rewrite (Hown5 (requestFor e)).
      2:{ apply in_map. apply filter_In. split; [exact He |].
          unfold isUp. rewrite Hst. reflexivity. }
      rewrite Hframe4.
      2:{ intros r Hr Heq. apply in_map_iff in Hr as (e' & <- & He').
          apply filter_In in He' as [He' Hc'].
          assert (e' = e) as ->.
          { apply Hinj; try assumption. apply HpC. exact Hc'. }
          unfold isCrashed in Hc'. rewrite Hst in Hc'. discriminate. }
      rewrite slotOf_requestFor, (Hkept e He Hlive).
      apply leaves_installed; assumption.
    - (* CRASHED: marked by the second loop, untouched by the third *)
      rewrite Hframe5.
      2:{ intros r Hr Heq. apply in_map_iff in Hr as (e' & <- & He').
          apply filter_In in He' as [He' Hu'].
          assert (e' = e) as ->.
          { apply Hinj; try assumption. apply HpU. exact Hu'. }
          unfold isUp in Hu'. rewrite Hst in Hu'. discriminate. }
      rewrite (Hown4 (requestFor e)).
      2:{ apply in_map. apply filter_In. split; [exact He |].
          unfold isCrashed. rewrite Hst. reflexivity. }
      rewrite slotOf_requestFor, (Hkept e He Hlive).
      apply leaves_installed; assumption. }
  rewrite iget_content, Hfinal.
  rewrite (installed_id e _ Hbefore), ServerId_eqb_refl. reflexivity.
Qed.

(** *** The loop of [applyUpdate] *)

Lemma bind_Returned {A B : Type} (c : Call A) (k : A -> Call B)
    (s s' : ServerList) (b : B) :
  bind c k s = Returned b s' ->
  exists a s1, c s = Returned a s1 /\ k a s1 = Returned b s'.
Proof.
  unfold bind. destruct (c s) as [a s1 | f]; [| discriminate].
  intros H. exists a, s1. split; [reflexivity | exact H].
Qed.

Lemma applyEntries_app (isValid : ServerId -> bool)
    (pre post : list ProtoBuf_Entry) (s s1 : ServerList) :
  applyEntries isValid pre s = Returned true s1 ->
  applyEntries isValid (pre ++ post) s = applyEntries isValid post s1.
Proof.
  revert s. induction pre as [| e pre IH]; intros s H; simpl in *.
  - injection H as <-. reflexivity.
  - apply bind_Returned in H as ([] & s0 & E0 & H).
    unfold bind at 1. rewrite E0.
    destruct (entry_status e).
    + apply bind_Returned in H as ([] & s2 & E2 & H).
      unfold bind at 1. rewrite E2.
      apply bind_Returned in H as (b & s3 & E3 & H).
      unfold bind at 1. rewrite E3. apply IH. exact H.
    + unfold bind at 1 in H. unfold bind at 1. unfold get in *.
      destruct (iget (server_id e) s0) as [d |].
      * apply bind_Returned in H as ([] & s2 & E2 & H).
        unfold bind at 1. rewrite E2.
        apply bind_Returned in H as (b & s3 & E3 & H).
        unfold bind at 1. rewrite E3. apply IH. exact H.
      * apply bind_Returned in H as ([] & s2 & E2 & H). discriminate H.
    + unfold bind at 1 in H. unfold bind at 1. unfold get in *.
      destruct (iget (server_id e) s0) as [d |].
      * apply bind_Returned in H as ([] & s2 & E2 & H).
        unfold bind at 1. rewrite E2.
        apply bind_Returned in H as (b & s3 & E3 & H).
        unfold bind at 1. rewrite E3. apply IH. exact H.
      * apply bind_Returned in H as ([] & s2 & E2 & H). discriminate H.
Qed.

Lemma applyEntries_additions (isValid : ServerId -> bool)
    (l : list ProtoBuf_Entry) (s : ServerList) :
  (forall e, In e l ->
     entry_status e = UP
     /\ isValid (server_id e) = true
     /\ indexNumber (server_id e) + 1 < 2 ^ 32) ->
  inOrder s ->
  finishes (applyEntries isValid l s)
    (fun b s' => b = true /\ inOrder s').
Proof.
  revert s. induction l as [| e l IH]; intros s Hl Hs; simpl.
  - split; [reflexivity | exact Hs].
  - destruct (Hl e (or_introl eq_refl)) as (Hup & Hv & Hfit).
    rewrite Hv, Hup. unfold bind at 1. simpl.
    eapply finishes_bind; [apply inOrder_LOG; exact Hs |].
    intros [] s1 Hs1.
    eapply finishes_bind.
    + apply (request_finishes (Add _ _ _ _) s1 Hs1). intros _. exact Hfit.
    + intros b s2 Hs2. apply IH; [| exact Hs2].
      intros e' He'. apply Hl. right. exact He'.
Qed.

(** *** Auxiliary facts for the statements below *)

Lemma effect_unchanged (s s' : ServerList) :
  effect s s' (serverList s) [] -> unchanged s s'.
Proof.
  intros (H1 & H2 & H3). split_and!; [exact H1 | | exact H3].
  rewrite H2. rewrite (map_ext _ id); [apply map_id |]. apply notify_nil.
Qed.

Lemma list5_sound : sound list5.
Proof.
  assert (sound emptyList) as H0.
  { intros i e H. destruct i; discriminate. }
  pose proof (applyServerList_settles alwaysValid fullList5 emptyList H0)
    as H.
  unfold list5.
  destruct (applyServerList alwaysValid fullList5 emptyList); simpl in *;
    [exact H | exact H0].
Qed.

Lemma ServerId_eqb_generation (a b : ServerId) :
  generationNumber a <> generationNumber b -> ServerId_eqb a b = false.
Proof.
  intros H. unfold ServerId_eqb.
  apply andb_false_iff. right. apply N.eqb_neq. exact H.
Qed.

Lemma iget_replaced (l : list (option ServerDetails)) (index : nat)
    (d : ServerDetails) (s' : ServerList) (id : ServerId) :
  serverList s' = <[index := Some d]> l ->
  N.to_nat (indexNumber id) = index ->
  generationNumber (serverId d) <> generationNumber id ->
  iget id s' = None.
Proof.
  intros Hs Hi Hgen. unfold iget. rewrite Hs, Hi.
  destruct (decide (index < length l)%nat) as [Hlt | Hge].
  - rewrite list_lookup_insert_eq by exact Hlt.
    rewrite ServerId_eqb_generation by exact Hgen. reflexivity.
  - rewrite lookup_ge_None_2; [reflexivity |].
    rewrite length_insert. lia.
Qed.

Lemma list5_inOrder : inOrder list5.
Proof.
  split; [exact list5_sound |].
  intros i e. destruct i as [| [| [| i]]]; vm_compute; intros H;
    try discriminate H; injection H as <-; discriminate.
Qed.

Lemma list5_valid : holdsOnly (fun id => alwaysValid id = true) list5.
Proof.
  intros i e. destruct i as [| [| [| i]]]; vm_compute; intros H;
    try discriminate H; injection H as <-; reflexivity.
Qed.

(** *** The case tables of [add], [crashed] and [remove] *)

(** X1. [add] of a server whose slot holds no entry (the slot is empty or
    beyond the end of the vector, which then grows to [index + 1] slots,
    a size that must fit in 32 bits) returns true: the slot holds the new
    entry with status UP, every tracker is told SERVER_ADDED with that
    entry and nothing else, the version stays, [iget] finds the entry, and
    the vector has [max (size, index + 1)] slots. *)
Theorem add_enlists_new_server (id : ServerId) (l : string) (sv mb : N)
    (s : ServerList) :
  (forall e, serverList s !! N.to_nat (indexNumber id) <> Some (Some e)) ->
  (size_of s <= indexNumber id -> indexNumber id + 1 < 2 ^ 32) ->
  exists s',
    add id l sv mb s = Returned true s'
    /\ effect s s'
         (<[N.to_nat (indexNumber id) := Some (newDetails id l sv mb)]>
            (grown (N.to_nat (indexNumber id)) (serverList s)))
         [addEvent (newDetails id l sv mb)]
    /\ iget id s' = Some (newDetails id l sv mb)
    /\ size_of s' = N.max (size_of s) (indexNumber id + 1).
Proof.
  intros Hvac Hfit. unfold add, callDepth. rewrite invoke_Add.
  destruct (add_fresh (fun i => invoke 2 (Remove i)) id l sv mb s Hvac Hfit)
    as (s' & E & Heff).
  exists s'. split_and!; [exact E | exact Heff | |].
  - destruct Heff as (Hs & _).
    apply (iget_stored _ (newDetails id l sv mb) s' Hs).
    apply grown_length_vacant.
  - destruct Heff as (Hs & _). unfold size_of. rewrite Hs.
    rewrite length_insert. unfold grown.
    rewrite length_app, length_replicate. lia.
Qed.

(** Server 4.0 joins the list of version 5, which has three slots. *)
Lemma add_enlists_new_server_witness :
  exists s',
    add (serverAt 4 0) "mock:" 3 100 list5 = Returned true s'
    /\ effect list5 s'
         (<[4%nat := Some (detailsOf 4 0 UP)]>
            (grown 4 (serverList list5)))
         [addEvent (detailsOf 4 0 UP)]
    /\ iget (serverAt 4 0) s' = Some (detailsOf 4 0 UP)
    /\ size_of s' = N.max (size_of list5) 5.
Proof.
  apply (add_enlists_new_server (serverAt 4 0) "mock:" 3 100 list5).
  - intros e. vm_compute. discriminate.
  - intros _. vm_compute. reflexivity.
Defined.

(** X2. [add] of an id whose slot holds an entry of the same or of a
    newer generation returns false and changes nothing: the slots, the
    trackers and the version are as before, and the entry is still found. *)
Theorem add_ignores_known_generation (id : ServerId) (l : string)
    (sv mb : N) (s : ServerList) (e : ServerDetails) :
  serverList s !! N.to_nat (indexNumber id) = Some (Some e) ->
  generationNumber id <= generationNumber (serverId e) ->
  exists s',
    add id l sv mb s = Returned false s'
    /\ unchanged s s'
    /\ iget (serverId e) s' = iget (serverId e) s.
Proof.
  intros E Hle. unfold add, callDepth. rewrite invoke_Add.
  destruct (add_ignored (fun i => invoke 2 (Remove i)) id l sv mb s e E Hle)
    as (s' & E' & Heff).
  exists s'. split_and!; [exact E' | apply effect_unchanged; exact Heff |].
  apply iget_same_slots. apply Heff.
Qed.

(** Server 1.0 is added a second time, with another locator. *)
Lemma add_ignores_known_generation_witness :
  exists s',
    add (serverAt 1 0) "other:" 7 50 list5 = Returned false s'
    /\ unchanged list5 s'
    /\ iget (serverAt 1 0) s' = iget (serverAt 1 0) list5.
Proof.
  apply (add_ignores_known_generation (serverAt 1 0) "other:" 7 50 list5
           (detailsOf 1 0 UP)).
  - vm_compute. reflexivity.
  - vm_compute. discriminate.
Defined.

(** X3. [add] of an id whose slot holds an entry of an older generation
    replaces that entry and returns true.  The trackers hear, in this
    order, SERVER_CRASHED for the old server if it was up, SERVER_REMOVED
    for it, and SERVER_ADDED for the new one; afterwards [iget] finds the
    new server and no longer the old one. *)
Theorem add_replaces_older_generation (id : ServerId) (l : string)
    (sv mb : N) (s : ServerList) (e : ServerDetails) :
  sound s ->
  serverList s !! N.to_nat (indexNumber id) = Some (Some e) ->
  generationNumber (serverId e) < generationNumber id ->
  exists s',
    add id l sv mb s = Returned true s'
    /\ effect s s'
         (<[N.to_nat (indexNumber id) := Some (newDetails id l sv mb)]>
            (serverList s))
         (removalEvents e ++ [addEvent (newDetails id l sv mb)])
    /\ iget id s' = Some (newDetails id l sv mb)
    /\ iget (serverId e) s' = None.
Proof.
  intros Hs E Hgt. unfold add, callDepth.
  destruct (add_replaces 0 id l sv mb s e Hs E Hgt) as (s' & E' & Heff).
  exists s'. split_and!; [exact E' | exact Heff | |].
  - destruct Heff as (Hsl & _).
    apply (iget_stored _ (newDetails id l sv mb) s' Hsl).
    eapply lookup_lt_Some. exact E.
  - destruct Heff as (Hsl & _).
    apply (iget_replaced _ _ _ _ _ Hsl).
    + pose proof (Hs _ _ E) as Hi. lia.
    + simpl. lia.
Qed.

(** Server 1.1 takes the slot of server 1.0, which was up. *)
Lemma add_replaces_older_generation_witness :
  exists s',
    add (serverAt 1 1) "mock:" 3 100 list5 = Returned true s'
    /\ effect list5 s'
         (<[1%nat := Some (detailsOf 1 1 UP)]> (serverList list5))
         (removalEvents (detailsOf 1 0 UP) ++ [addEvent (detailsOf 1 1 UP)])
    /\ iget (serverAt 1 1) s' = Some (detailsOf 1 1 UP)
    /\ iget (serverAt 1 0) s' = None.
Proof.
  apply (add_replaces_older_generation (serverAt 1 1) "mock:" 3 100 list5
           (detailsOf 1 0 UP)).
  - exact list5_sound.
  - vm_compute. reflexivity.
  - vm_compute. reflexivity.
Defined.

(** X4. [crashed] of a server that is in the list with status UP returns
    true: the entry keeps its locator, services and bandwidth (those passed
    to [crashed] are not used) and gets status CRASHED, and every tracker
    is told SERVER_CRASHED, once. *)
Theorem crashed_marks_server (id : ServerId) (l : string) (sv mb : N)
    (s : ServerList) (e : ServerDetails) :
  serverList s !! N.to_nat (indexNumber id) = Some (Some e) ->
  serverId e = id -> status e = UP ->
  exists s',
    crashed id l sv mb s = Returned true s'
    /\ effect s s'
         (<[N.to_nat (indexNumber id) := Some (asCrashed e)]> (serverList s))
         [crashEvent id]
    /\ iget id s' = Some (asCrashed e).
Proof.
  intros E Hid Hup. unfold crashed, callDepth.
  destruct (crashed_up 2 id l sv mb s e E Hid Hup) as (s' & E' & Heff).
  exists s'. split_and!; [exact E' | exact Heff |].
  destruct Heff as (Hsl & _). subst id.
  apply (iget_stored _ (asCrashed e) s' Hsl).
  eapply lookup_lt_Some. exact E.
Qed.

(** Server 1.0 crashes; the report carries another locator. *)
Lemma crashed_marks_server_witness :
  exists s',
    crashed (serverAt 1 0) "other:" 7 50 list5 = Returned true s'
    /\ effect list5 s'
         (<[1%nat := Some (detailsOf 1 0 CRASHED)]> (serverList list5))
         [crashEvent (serverAt 1 0)]
    /\ iget (serverAt 1 0) s' = Some (detailsOf 1 0 CRASHED).
Proof.
  apply (crashed_marks_server (serverAt 1 0) "other:" 7 50 list5
           (detailsOf 1 0 UP)).
  - vm_compute. reflexivity.
  - reflexivity.
  - reflexivity.
Defined.

(** X5. [crashed] returns false and changes nothing when the slot holds a
    newer generation than the id, or the same generation already marked
    CRASHED. *)
Theorem crashed_ignores_stale_report (id : ServerId) (l : string)
    (sv mb : N) (s : ServerList) (e : ServerDetails) :
  serverList s !! N.to_nat (indexNumber id) = Some (Some e) ->
  generationNumber id < generationNumber (serverId e)
  \/ (generationNumber id = generationNumber (serverId e)
      /\ status e = CRASHED) ->
  exists s',
    crashed id l sv mb s = Returned false s' /\ unchanged s s'.
Proof.
  intros E Hcase. unfold crashed, callDepth.
  destruct (crashed_ignored 2 id l sv mb s e E Hcase) as (s' & E' & Heff).
  exists s'. split; [exact E' | apply effect_unchanged; exact Heff].
Qed.

(** Server 2.0 has crashed already. *)
Lemma crashed_ignores_stale_report_witness :
  exists s',
    crashed (serverAt 2 0) "mock:" 3 100 list5 = Returned false s'
    /\ unchanged list5 s'.
Proof.
  apply (crashed_ignores_stale_report (serverAt 2 0) "mock:" 3 100 list5
           (detailsOf 2 0 CRASHED)).
  - vm_compute. reflexivity.
  - right. split; reflexivity.
Defined.

(** X6. [crashed] of a server whose slot holds no entry first adds it:
    it returns true, the slot holds the entry built from the arguments
    with status CRASHED, and every tracker is told SERVER_ADDED and then
    SERVER_CRASHED. *)
Theorem crashed_enlists_unknown_server (id : ServerId) (l : string)
    (sv mb : N) (s : ServerList) :
  (forall e, serverList s !! N.to_nat (indexNumber id) <> Some (Some e)) ->
  (size_of s <= indexNumber id -> indexNumber id + 1 < 2 ^ 32) ->
  exists s',
    crashed id l sv mb s = Returned true s'
    /\ effect s s'
         (<[N.to_nat (indexNumber id) :=
              Some (asCrashed (newDetails id l sv mb))]>
            (grown (N.to_nat (indexNumber id)) (serverList s)))
         [addEvent (newDetails id l sv mb); crashEvent id]
    /\ iget id s' = Some (asCrashed (newDetails id l sv mb)).
Proof.
  intros Hvac Hfit. unfold crashed, callDepth.
  destruct (crashed_fresh 1 id l sv mb s Hvac Hfit) as (s' & E' & Heff).
  exists s'. split_and!; [exact E' | exact Heff |].
  destruct Heff as (Hsl & _).
  apply (iget_stored _ (asCrashed (newDetails id l sv mb)) s' Hsl).
  apply grown_length_vacant.
Qed.

(** Slot 0 of the list of version 5 is empty; server 0.3 is reported
    crashed. *)
Lemma crashed_enlists_unknown_server_witness :
  exists s',
    crashed (serverAt 0 3) "mock:" 3 100 list5 = Returned true s'
    /\ effect list5 s'
         (<[0%nat := Some (detailsOf 0 3 CRASHED)]>
            (grown 0 (serverList list5)))
         [addEvent (detailsOf 0 3 UP); crashEvent (serverAt 0 3)]
    /\ iget (serverAt 0 3) s' = Some (detailsOf 0 3 CRASHED).
Proof.
  apply (crashed_enlists_unknown_server (serverAt 0 3) "mock:" 3 100 list5).
  - intros e. vm_compute. discriminate.
  - vm_compute. intros H. exfalso. apply H. reflexivity.
Defined.

(** X7. [crashed] of an id whose slot holds an older generation removes
    the old server, adds the new one and marks it: the trackers hear
    SERVER_CRASHED for the old server if it was up, SERVER_REMOVED for it,
    then SERVER_ADDED and SERVER_CRASHED for the new one, in this order. *)
Theorem crashed_replaces_older_generation (id : ServerId) (l : string)
    (sv mb : N) (s : ServerList) (e : ServerDetails) :
  sound s ->
  serverList s !! N.to_nat (indexNumber id) = Some (Some e) ->
  generationNumber (serverId e) < generationNumber id ->
  exists s',
    crashed id l sv mb s = Returned true s'
    /\ effect s s'
         (<[N.to_nat (indexNumber id) :=
              Some (asCrashed (newDetails id l sv mb))]> (serverList s))
         (removalEvents e
          ++ [addEvent (newDetails id l sv mb); crashEvent id])
    /\ iget id s' = Some (asCrashed (newDetails id l sv mb))
    /\ iget (serverId e) s' = None.
Proof.
  intros Hs E Hgt. unfold crashed, callDepth.
  destruct (crashed_replaces 0 id l sv mb s e Hs E Hgt) as (s' & E' & Heff).
  exists s'. split_and!; [exact E' | exact Heff | |].
  - destruct Heff as (Hsl & _).
    apply (iget_stored _ (asCrashed (newDetails id l sv mb)) s' Hsl).
    eapply lookup_lt_Some. exact E.
  - destruct Heff as (Hsl & _).
    apply (iget_replaced _ _ _ _ _ Hsl).
    + pose proof (Hs _ _ E) as Hi. lia.
    + simpl. lia.
Qed.

(** Server 2.5 is reported crashed while slot 2 holds the crashed
    server 2.0. *)
Lemma crashed_replaces_older_generation_witness :
  exists s',
    crashed (serverAt 2 5) "mock:" 3 100 list5 = Returned true s'
    /\ effect list5 s'
         (<[2%nat := Some (detailsOf 2 5 CRASHED)]> (serverList list5))
         (removalEvents (detailsOf 2 0 CRASHED)
          ++ [addEvent (detailsOf 2 5 UP); crashEvent (serverAt 2 5)])
    /\ iget (serverAt 2 5) s' = Some (detailsOf 2 5 CRASHED)
    /\ iget (serverAt 2 0) s' = None.
Proof.
  apply (crashed_replaces_older_generation (serverAt 2 5) "mock:" 3 100
           list5 (detailsOf 2 0 CRASHED)).
  - exact list5_sound.
  - vm_compute. reflexivity.
  - vm_compute. reflexivity.
Defined.

(** X8. [remove] of an id whose slot holds an entry of the same or of an
    older generation returns true and empties the slot.  The trackers hear
    SERVER_CRASHED first if the entry was up, then SERVER_REMOVED, both for
    the id that was stored, which may be older than the id passed; the
    vector keeps its size, and [iget] finds neither id afterwards. *)
Theorem remove_empties_slot (id : ServerId) (s : ServerList)
    (e : ServerDetails) :
  sound s ->
  serverList s !! N.to_nat (indexNumber id) = Some (Some e) ->
  generationNumber (serverId e) <= generationNumber id ->
  exists s',
    remove id s = Returned true s'
    /\ effect s s' (<[N.to_nat (indexNumber id) := None]> (serverList s))
         (removalEvents e)
    /\ iget id s' = None
    /\ iget (serverId e) s' = None
    /\ size_of s' = size_of s.
Proof.
  intros Hs E Hle. unfold remove, callDepth.
  destruct (remove_known 1 id s e Hs E Hle) as (s' & E' & Heff).
  exists s'. split_and!; [exact E' | exact Heff | | |].
  - destruct Heff as (Hsl & _).
    apply (iget_emptied _ _ _ _ Hsl). reflexivity.
  - destruct Heff as (Hsl & _).
    apply (iget_emptied _ _ _ _ Hsl).
    pose proof (Hs _ _ E) as Hi. lia.
  - destruct Heff as (Hsl & _). unfold size_of.
    rewrite Hsl, length_insert. reflexivity.
Qed.

(** The removal of server 1.9 takes server 1.0 out of slot 1. *)
Lemma remove_empties_slot_witness :
  exists s',
    remove (serverAt 1 9) list5 = Returned true s'
    /\ effect list5 s' (<[1%nat := None]> (serverList list5))
         (removalEvents (detailsOf 1 0 UP))
    /\ iget (serverAt 1 9) s' = None
    /\ iget (serverAt 1 0) s' = None
    /\ size_of s' = size_of list5.
Proof.
  apply (remove_empties_slot (serverAt 1 9) list5 (detailsOf 1 0 UP)).
  - exact list5_sound.
  - vm_compute. reflexivity.
  - vm_compute. discriminate.
Defined.

(** X9. [remove] returns false and changes nothing when the id names no
    entry: its slot is beyond the vector, is empty, or holds a newer
    generation. *)
Theorem remove_ignores_unknown_server (id : ServerId) (s : ServerList) :
  (forall e, serverList s !! N.to_nat (indexNumber id) = Some (Some e) ->
             generationNumber id < generationNumber (serverId e)) ->
  exists s', remove id s = Returned false s' /\ unchanged s s'.
Proof.
  intros Hunk. unfold remove, callDepth.
  destruct (remove_unknown 2 id s Hunk) as (s' & E' & Heff).
  exists s'. split; [exact E' | apply effect_unchanged; exact Heff].
Qed.

(** The list of version 5 has no slot 7. *)
Lemma remove_ignores_unknown_server_witness :
  exists s', remove (serverAt 7 0) list5 = Returned false s'
             /\ unchanged list5 s'.
Proof.
  apply (remove_ignores_unknown_server (serverAt 7 0) list5).
  intros e. vm_compute. discriminate.
Defined.

(** *** What the three methods leave alone *)

(** X10. On a list whose entries sit in their own slots, a call of [add],
    [crashed] or [remove] that returns has touched one slot only, that of
    the id it was given: for every id with another index number [iget]
    answers as before. *)
Theorem requests_touch_one_slot (r : Request) (s s' : ServerList)
    (b : bool) :
  sound s ->
  invoke callDepth r s = Returned b s' ->
  forall id : ServerId,
    indexNumber id <> indexNumber (requestId r) ->
    iget id s' = iget id s.
Proof.
  intros Hs Hr id Hne.
  destruct (request_slots r s s' b Hs Hr) as [Hsame | (x & _ & Hsl)].
  - apply iget_same_slots. exact Hsame.
  - apply (iget_elsewhere _ _ _ _ _ Hsl). lia.
Qed.

(** Replacing server 1.0 by 1.1 leaves server 2.0 as it was. *)
Lemma requests_touch_one_slot_witness :
  iget (serverAt 2 0)
    (afterCall (invoke callDepth (Add (serverAt 1 1) "mock:" 3 100) list5))
  = iget (serverAt 2 0) list5.
Proof.
  apply (requests_touch_one_slot (Add (serverAt 1 1) "mock:" 3 100) list5
           (afterCall
              (invoke callDepth (Add (serverAt 1 1) "mock:" 3 100) list5))
           true list5_sound).
  - vm_compute. reflexivity.
  - vm_compute. discriminate.
Defined.

(** X11. [add], [crashed] and [remove] never change the version of the
    list and never fire a tracker's callback, whatever the list, whatever
    they return and however deep their calls of one another nest: they
    only enqueue changes. *)
Theorem requests_keep_version (depth : nat) (r : Request)
    (s s' : ServerList) (b : bool) :
  invoke depth r s = Returned b s' ->
  version s' = version s
  /\ map callbacksFired (trackers s') = map callbacksFired (trackers s).
Proof.
  intros Hr. pose proof (keeps_invoke depth r s) as H.
  rewrite Hr in H. exact H.
Qed.

(** A list with server 1.5 in slot 0, which is not its own: the removal
    of server 0.9 makes [remove] call [crashed], which calls [remove],
    which calls [crashed] again, four calls deep. *)
Lemma requests_keep_version_witness :
  invoke 3 (Remove (serverAt 0 9)) foreignList = Stopped TooDeep
  /\ (exists s', invoke 4 (Remove (serverAt 0 9)) foreignList
                 = Returned true s')
  /\ version (afterCall (invoke 4 (Remove (serverAt 0 9)) foreignList))
     = version foreignList
  /\ map callbacksFired
       (trackers (afterCall (invoke 4 (Remove (serverAt 0 9)) foreignList)))
     = map callbacksFired (trackers foreignList).
Proof.
  split; [vm_compute; reflexivity |].
  split; [eexists; vm_compute; reflexivity |].
  apply (requests_keep_version 4 (Remove (serverAt 0 9)) foreignList
           (afterCall (invoke 4 (Remove (serverAt 0 9)) foreignList))
           true).
  vm_compute. reflexivity.
Defined.

(** X12. On a list whose entries sit in their own slots the calls among
    [add], [crashed] and [remove] never nest deeper than three: no call is
    cut short by that bound, and allowing deeper nesting changes no
    outcome. *)
Theorem nested_calls_within_callDepth (extra : nat) (r : Request)
    (s : ServerList) :
  sound s ->
  invoke (extra + callDepth) r s = invoke callDepth r s
  /\ invoke callDepth r s <> Stopped TooDeep.
Proof.
  intros Hs. split; [apply invoke_deeper; exact Hs |].
  pose proof (invoke_settles r s Hs) as Hset.
  destruct (invoke callDepth r s); simpl in Hset; congruence.
Qed.

(** The longest chain: [add] of 1.1 calls [remove] of 1.0, which calls
    [crashed] of 1.0. *)
Lemma nested_calls_within_callDepth_witness :
  invoke (4 + callDepth) (Add (serverAt 1 1) "mock:" 3 100) list5
  = invoke callDepth (Add (serverAt 1 1) "mock:" 3 100) list5
  /\ invoke callDepth (Add (serverAt 1 1) "mock:" 3 100) list5
     <> Stopped TooDeep.
Proof.
  exact (nested_calls_within_callDepth 4 (Add (serverAt 1 1) "mock:" 3 100)
           list5 list5_sound).
Defined.

(** *** Lookups *)

(** X13. On a list whose entries sit in their own slots the lookups agree.
    An entry that [iget(ServerId)] finds carries exactly that id, lies
    inside the vector, and is what [iget(uint32_t)] and [operator[]] give
    for its index number.  An id that [operator[]] returns, other than the
    invalid one, has the index asked for and is found by [iget].  Beyond
    the vector [operator[]] returns the invalid id, [iget(ServerId)]
    finds nothing, and [iget(uint32_t)] reads outside the vector. *)
Theorem lookups_agree (invalid : ServerId) (s : ServerList) :
  sound s ->
  (forall id d,
      iget id s = Some d ->
      serverId d = id
      /\ indexNumber id < isize s
      /\ iget_index (indexNumber id) s = Returned (Some d) s
      /\ subscript invalid (indexNumber id) s = id)
  /\ (forall index id,
         subscript invalid index s = id -> id <> invalid ->
         indexNumber id = index
         /\ exists d, iget id s = Some d
                      /\ iget_index index s = Returned (Some d) s)
  /\ (forall index,
         isize s <= index ->
         subscript invalid index s = invalid
         /\ iget_index index s = Stopped OutOfRange
         /\ forall id, indexNumber id = index -> iget id s = None).
Proof.
  intros Hs. split_and!.
  - intros id d H. unfold iget in H.
    destruct (serverList s !! N.to_nat (indexNumber id)) as [[e |] |] eqn:E;
      try discriminate.
    destruct (ServerId_eqb (serverId e) id) eqn:Heq; [| discriminate].
    injection H as <-. apply ServerId_eqb_eq in Heq.
    pose proof (lookup_lt_Some _ _ _ E) as Hlt.
    split_and!.
    + exact Heq.
    + unfold isize, size_of. lia.
    + unfold iget_index, slot. rewrite E. reflexivity.
    + unfold subscript. rewrite E.
      assert ((size_of s <=? indexNumber id) = false) as ->.
      { apply N.leb_gt. unfold size_of. lia. }
      exact Heq.
  - intros index id H Hvalid. unfold subscript in H.
    destruct (size_of s <=? index); [congruence |].
    destruct (serverList s !! N.to_nat index) as [[e |] |] eqn:E;
      [| congruence | congruence].
    pose proof (Hs _ _ E) as Hi. subst id.
    split; [lia |]. exists e.
    split.
    + unfold iget. replace (N.to_nat (indexNumber (serverId e)))
        with (N.to_nat index) by lia.
      rewrite E, ServerId_eqb_refl. reflexivity.
    + unfold iget_index, slot. rewrite E. reflexivity.
  - intros index Hout. unfold isize in Hout.
    assert (serverList s !! N.to_nat index = None) as E.
    { apply lookup_ge_None_2. unfold size_of in Hout. lia. }
    split_and!.
    + unfold subscript. apply N.leb_le in Hout. rewrite Hout. reflexivity.
    + unfold iget_index, slot. rewrite E. reflexivity.
    + intros id <-. unfold iget. rewrite E. reflexivity.
Qed.

(** Slot 1 of the list of version 5 holds server 1.0; the list has no
    slot 3. *)
Lemma lookups_agree_witness :
  subscript noServer 1 list5 = serverAt 1 0
  /\ iget_index 1 list5 = Returned (Some (detailsOf 1 0 UP)) list5
  /\ subscript noServer 3 list5 = noServer.
Proof.
  destruct (lookups_agree noServer list5 list5_sound) as (Hget & _ & Hout).
  destruct (Hget (serverAt 1 0) (detailsOf 1 0 UP)) as (_ & _ & Hi & Hsub).
  { vm_compute. reflexivity. }
  destruct (Hout 3) as (Hinv & _).
  { vm_compute. discriminate. }
  split_and!; [exact Hsub | exact Hi | exact Hinv].
Defined.

(** *** Versions, callbacks and whole lists *)

(** X14. When [applyUpdate] returns true the update carried the version
    that follows the list's (computed in 64 bits), the list now has that
    version, and the callback of every tracker was fired exactly once.
    When it returns false the version is what it was and no callback was
    fired. *)
Theorem applyUpdate_version_step (isValid : ServerId -> bool)
    (update : ProtoBuf_ServerList) (s s' : ServerList) (b : bool) :
  applyUpdate isValid update s = Returned b s' ->
  if b then
    version_number update = (version s + 1) mod 2 ^ 64
    /\ version s' = version_number update
    /\ map callbacksFired (trackers s')
       = map (fun tr => S (callbacksFired tr)) (trackers s)
  else
    version s' = version s
    /\ map callbacksFired (trackers s') = map callbacksFired (trackers s).
Proof.
  intros H. pose proof (applyUpdate_version isValid update s) as Hv.
  rewrite H in Hv. simpl in Hv. destruct b; [| exact Hv].
  destruct Hv as (H1 & H2 & H3). split_and!; assumption.
Qed.

(** The update of version 6 applied to the list of version 5. *)
Lemma applyUpdate_version_step_witness :
  let s' := afterCall (applyUpdate alwaysValid update6 list5) in
  version_number update6 = (version list5 + 1) mod 2 ^ 64
  /\ version s' = version_number update6
  /\ map callbacksFired (trackers s')
     = map (fun tr => S (callbacksFired tr)) (trackers list5).
Proof.
  apply (applyUpdate_version_step alwaysValid update6 list5
           (afterCall (applyUpdate alwaysValid update6 list5)) true).
  vm_compute. reflexivity.
Defined.

(** X15. Whenever [applyServerList] returns, the version of the list is
    the larger of its old version and the version of the list applied, so
    it never decreases; and the callback of every tracker was fired once
    if the list was newer, and not at all if it was old or repeated. *)
Theorem applyServerList_version_max (isValid : ServerId -> bool)
    (lst : ProtoBuf_ServerList) (s s' : ServerList) :
  applyServerList isValid lst s = Returned tt s' ->
  version s' = N.max (version s) (version_number lst)
  /\ map callbacksFired (trackers s')
     = map (fun tr => if version_number lst <=? version s
                      then callbacksFired tr
                      else S (callbacksFired tr)) (trackers s).
Proof.
  intros H. pose proof (applyServerList_version isValid lst s) as Hv.
  rewrite H in Hv. simpl in Hv.
  destruct (version_number lst <=? version s) eqn:Hold.
  - apply N.leb_le in Hold. destruct Hv as [Hv1 Hv2]. split; [lia | exact Hv2].
  - apply N.leb_gt in Hold. destruct Hv as [Hv1 Hv2]. split; [lia | exact Hv2].
Qed.

(** The full list of version 5 applied to the empty list of version 0. *)
Lemma applyServerList_version_max_witness :
  version list5 = N.max (version emptyList) (version_number fullList5)
  /\ map callbacksFired (trackers list5)
     = map (fun tr => if version_number fullList5 <=? version emptyList
                      then callbacksFired tr
                      else S (callbacksFired tr)) (trackers emptyList).
Proof.
  apply (applyServerList_version_max alwaysValid fullList5 emptyList list5).
  vm_compute. reflexivity.
Defined.

(** X16. An update whose version is above the list's but is not the next
    one is not applied: [applyUpdate] returns false with the slots, the
    trackers and the version untouched, and [applyServerList] dies. *)
Theorem applyServerList_lost_update_dies (isValid : ServerId -> bool)
    (lst : ProtoBuf_ServerList) (s : ServerList) :
  type lst = ServerList_Type_UPDATE ->
  version s < version_number lst ->
  version_number lst <> (version s + 1) mod 2 ^ 64 ->
  applyServerList isValid lst s = Stopped Died
  /\ exists s', applyUpdate isValid lst s = Returned false s'
                /\ unchanged s s'.
Proof.
  intros Htype Hnew Hgap.
  apply N.leb_gt in Hnew. apply N.eqb_neq in Hgap.
  split.
  - unfold applyServerList, applyUpdate, bind, get. rewrite Hnew. simpl.
    rewrite Htype. simpl. rewrite Hgap. reflexivity.
  - unfold applyUpdate, bind, get. rewrite Htype. simpl. rewrite Hgap.
    simpl. eexists. split; [reflexivity |]. split_and!; reflexivity.
Qed.

(** The update of version 7 reaches the list of version 5. *)
Lemma applyServerList_lost_update_dies_witness :
  applyServerList alwaysValid lostUpdate7 list5 = Stopped Died
  /\ exists s', applyUpdate alwaysValid lostUpdate7 list5 = Returned false s'
                /\ unchanged list5 s'.
Proof.
  apply (applyServerList_lost_update_dies alwaysValid lostUpdate7 list5).
  - reflexivity.
  - vm_compute. reflexivity.
  - vm_compute. discriminate.
Defined.

(** X17. When [applyFullList] returns on a list whose entries sit in
    their own slots, every server left in the list is one that the
    coordinator's list names in an entry that is not DOWN, and the
    entries still sit in their own slots. *)
Theorem applyFullList_leaves_listed_servers (isValid : ServerId -> bool)
    (lst : ProtoBuf_ServerList) (s s' : ServerList) :
  sound s ->
  applyFullList isValid lst s = Returned tt s' ->
  sound s'
  /\ forall (i : nat) (d : ServerDetails),
       serverList s' !! i = Some (Some d) ->
       exists e, In e (server lst)
                 /\ server_id e = serverId d
                 /\ entry_status e <> DOWN.
Proof.
  intros Hs H. pose proof (applyFullList_listed isValid lst s Hs) as Hl.
  rewrite H in Hl. exact Hl.
Qed.

(** A full list of version 9 that names server 2.0 only, applied to the
    list of version 5: server 1.0 is gone. *)
Lemma applyFullList_leaves_listed_servers_witness :
  let s' := afterCall (applyFullList alwaysValid fullList9 list5) in
  sound s'
  /\ forall (i : nat) (d : ServerDetails),
       serverList s' !! i = Some (Some d) ->
       exists e, In e (server fullList9)
                 /\ server_id e = serverId d
                 /\ entry_status e <> DOWN.
Proof.
  apply (applyFullList_leaves_listed_servers alwaysValid fullList9 list5
           (afterCall (applyFullList alwaysValid fullList9 list5))
           list5_sound).
  vm_compute. reflexivity.
Defined.

(** X18. [applyServerList] keeps every entry in the slot that its id
    names: started on such a list it returns such a list, and none of the
    calls it makes is deeper than the three levels that [add], [crashed]
    and [remove] need. *)
Theorem applyServerList_keeps_entries_in_slots (isValid : ServerId -> bool)
    (lst : ProtoBuf_ServerList) (s : ServerList) :
  sound s ->
  applyServerList isValid lst s <> Stopped TooDeep
  /\ forall s', applyServerList isValid lst s = Returned tt s' -> sound s'.
Proof.
  intros Hs. pose proof (applyServerList_settles isValid lst s Hs) as H.
  split.
  - intros E. rewrite E in H. simpl in H. congruence.
  - intros s' E. rewrite E in H. exact H.
Qed.

(** The update of version 6 applied to the list of version 5. *)
Lemma applyServerList_keeps_entries_in_slots_witness :
  applyServerList alwaysValid update6 list5 <> Stopped TooDeep
  /\ forall s',
       applyServerList alwaysValid update6 list5 = Returned tt s' ->
       sound s'.
Proof.
  exact (applyServerList_keeps_entries_in_slots alwaysValid update6 list5
           list5_sound).
Defined.

(** *** Assertions that cannot fail *)

(** X19. On a list that is in order (every entry sits in the slot its id
    names and none has status DOWN), [add], [crashed] and [remove] always
    return: none of their assertions fails and no slot outside the vector
    is read or written, provided that a vector that has to grow gets a
    size that fits in 32 bits.  The list they leave is in order again; the
    slot of the id holds what the method's case table says for what it
    held before ([leaves]), and every other slot holds what it held. *)
Theorem requests_follow_case_tables (r : Request) (s : ServerList) :
  inOrder s ->
  (size_of s <= indexNumber (requestId r) ->
   indexNumber (requestId r) + 1 < 2 ^ 32) ->
  exists (b : bool) (s' : ServerList),
    invoke callDepth r s = Returned b s'
    /\ inOrder s'
    /\ content s' (slotOf r) = leaves r (content s (slotOf r))
    /\ forall j, j <> slotOf r -> content s' j = content s j.
Proof.
  intros Hs Hfit. pose proof (request_exact r s Hs Hfit) as H.
  destruct (invoke callDepth r s) as [b s' | f]; simpl in H; [| contradiction].
  exists b, s'. split; [reflexivity | exact H].
Qed.

(** Server 2.5 is reported crashed to the list of version 5. *)
Lemma requests_follow_case_tables_witness :
  exists (b : bool) (s' : ServerList),
    invoke callDepth (Crashed (serverAt 2 5) "mock:" 3 100) list5
    = Returned b s'
    /\ inOrder s'
    /\ content s' 2 = Some (detailsOf 2 5 CRASHED)
    /\ forall j, j <> 2%nat -> content s' j = content list5 j.
Proof.
  apply (requests_follow_case_tables
           (Crashed (serverAt 2 5) "mock:" 3 100) list5 list5_inOrder).
  intros _. vm_compute. reflexivity.
Defined.

(** X20. [applyUpdate] returns, true or false, on every list in order
    and every update whose ids are valid and whose index numbers leave
    room for the vector to grow: no assertion fails on the way, and the
    list it leaves is in order, also when it gives up half-way and
    returns false. *)
Theorem applyUpdate_finishes_in_order (isValid : ServerId -> bool)
    (update : ProtoBuf_ServerList) (s : ServerList) :
  type update = ServerList_Type_UPDATE ->
  (forall e, In e (server update) ->
     isValid (server_id e) = true
     /\ indexNumber (server_id e) + 1 < 2 ^ 32) ->
  inOrder s ->
  exists (b : bool) (s' : ServerList),
    applyUpdate isValid update s = Returned b s' /\ inOrder s'.
Proof.
  intros Htype Hl Hs.
  assert (finishes (applyUpdate isValid update s)
            (fun _ s' => inOrder s')) as H.
  { unfold applyUpdate. rewrite Htype. unfold bind at 1. simpl.
    unfold bind at 1. unfold get.
    destruct (negb (version_number update =? (version s + 1) mod 2 ^ 64)).
    - exact Hs.
    - eapply finishes_bind; [apply inOrder_LOG; exact Hs |].
      intros [] s1 Hs1.
      eapply finishes_bind;
        [apply applyEntries_finishes; [exact Hl | exact Hs1] |].
      intros [] s2 Hs2; [| exact Hs2].
      exact Hs2. }
  destruct (applyUpdate isValid update s) as [b s' | f]; simpl in H;
    [| contradiction].
  exists b, s'. split; [reflexivity | exact H].
Qed.

(** The update of version 6 reaches the list of version 5. *)
Lemma applyUpdate_finishes_in_order_witness :
  exists (b : bool) (s' : ServerList),
    applyUpdate alwaysValid update6 list5 = Returned b s' /\ inOrder s'.
Proof.
  apply (applyUpdate_finishes_in_order alwaysValid update6 list5).
  - reflexivity.
  - intros e [<- | [<- | []]]; split; vm_compute; reflexivity.
  - exact list5_inOrder.
Defined.

(** X21. [applyFullList] returns on every list in order whose ids are
    valid, for every full list whose entries that are not DOWN carry
    different ids and whose index numbers leave room for the vector to
    grow: none of its assertions, nor any of those of [add], [crashed]
    and [remove], fails, and the list it leaves is in order. *)
Theorem applyFullList_finishes_in_order (isValid : ServerId -> bool)
    (lst : ProtoBuf_ServerList) (s : ServerList) :
  type lst = ServerList_Type_FULL_LIST ->
  NoDup (liveIds (server lst)) ->
  (forall e, In e (server lst) ->
     indexNumber (server_id e) + 1 < 2 ^ 32) ->
  inOrder s ->
  holdsOnly (fun id => isValid id = true) s ->
  exists s' : ServerList,
    applyFullList isValid lst s = Returned tt s' /\ inOrder s'.
Proof.
  intros Htype Hnd Hfit Hs Hv.
  pose proof (applyFullList_finishes_inOrder isValid lst s Htype Hnd Hfit
                Hs Hv) as H.
  destruct (applyFullList isValid lst s) as [[] s' | f]; simpl in H;
    [| contradiction].
  exists s'. split; [reflexivity | exact H].
Qed.

(** The full list of version 9 reaches the list of version 5. *)
Lemma applyFullList_finishes_in_order_witness :
  exists s' : ServerList,
    applyFullList alwaysValid fullList9 list5 = Returned tt s'
    /\ inOrder s'.
Proof.
  apply (applyFullList_finishes_in_order alwaysValid fullList9 list5).
  - reflexivity.
  - apply NoDup_singleton.
  - intros e [<- | []]. vm_compute. reflexivity.
  - exact list5_inOrder.
  - exact list5_valid.
Defined.

(** *** A full list, exactly *)

(** X25. What [applyFullList] installs.  On a list in order whose ids are
    valid, for a full list whose entries that are not DOWN have different
    index numbers that leave room for the vector to grow, [applyFullList]
    returns a list in order that has the version of the full list and
    holds exactly the servers listed as not DOWN.  A server listed as
    CRASHED is found with status CRASHED; a server listed as UP is found
    as it was if the list already had it (also when it was marked
    CRASHED: a full list does not revive a server) and with the listed
    details and status UP otherwise; an id that is not listed is not
    found. *)
Theorem applyFullList_installs_the_list (isValid : ServerId -> bool)
    (lst : ProtoBuf_ServerList) (s : ServerList) :
  type lst = ServerList_Type_FULL_LIST ->
  NoDup (map indexNumber (liveIds (server lst))) ->
  (forall e, In e (server lst) ->
     indexNumber (server_id e) + 1 < 2 ^ 32) ->
  inOrder s ->
  holdsOnly (fun id => isValid id = true) s ->
  exists s' : ServerList,
    applyFullList isValid lst s = Returned tt s'
    /\ inOrder s'
    /\ version s' = version_number lst
    /\ (forall e, In e (server lst) -> entry_status e <> DOWN ->
          iget (server_id e) s'
          = Some (installed e (iget (server_id e) s)))
    /\ (forall id, ~ listed lst id -> iget id s' = None).
Proof.
  intros Htype Hnd Hfit Hs Hv.
  pose proof (applyFullList_exact isValid lst s Htype Hnd Hfit Hs Hv) as H.
  pose proof (applyFullList_listed isValid lst s (proj1 Hs)) as Hl.
  pose proof (applyFullList_version isValid lst s) as Hver.
  destruct (applyFullList isValid lst s) as [[] s' | f]; simpl in *;
    [| contradiction].
  destruct H as [Hs' Hinst]. destruct Hl as [_ Hl]. destruct Hver as [Hver _].
  exists s'. split_and!; [reflexivity | exact Hs' | exact Hver | exact Hinst |].
  intros id Hnot.
  destruct (iget id s') as [d |] eqn:Hd; [| reflexivity].
  exfalso. apply Hnot. apply iget_Some_id in Hd as [Hid Hc].
  apply content_Some in Hc. rewrite <- Hid. exact (Hl _ _ Hc).
Qed.

(** The full list of version 8 reaches the list of version 5, which holds
    server 1.0 up and server 2.0 crashed: server 1.0 is marked crashed,
    server 2.0 is removed and server 3.0 is added. *)
Lemma applyFullList_installs_the_list_witness :
  exists s' : ServerList,
    applyFullList alwaysValid fullList8 list5 = Returned tt s'
    /\ inOrder s'
    /\ version s' = version_number fullList8
    /\ (forall e, In e (server fullList8) -> entry_status e <> DOWN ->
          iget (server_id e) s'
          = Some (installed e (iget (server_id e) list5)))
    /\ (forall id, ~ listed fullList8 id -> iget id s' = None).
Proof.
  apply (applyFullList_installs_the_list alwaysValid fullList8 list5).
  - reflexivity.
  - apply NoDup_cons. split; [| apply NoDup_singleton].
    intros H. apply list_elem_of_In in H. vm_compute in H.
    destruct H as [H | []]. discriminate H.
  - intros e [<- | [<- | [<- | []]]]; vm_compute; reflexivity.
  - exact list5_inOrder.
  - exact list5_valid.
Defined.

(** *** Updates, entry by entry *)

(** X26. An update that only adds servers is always applied: if it
    carries the next version and all its entries are UP with valid ids
    whose index numbers leave room for the vector to grow, [applyUpdate]
    returns true on every list in order, and leaves a list in order that
    has the version of the update. *)
Theorem applyUpdate_accepts_additions (isValid : ServerId -> bool)
    (update : ProtoBuf_ServerList) (s : ServerList) :
  type update = ServerList_Type_UPDATE ->
  version_number update = (version s + 1) mod 2 ^ 64 ->
  (forall e, In e (server update) ->
     entry_status e = UP
     /\ isValid (server_id e) = true
     /\ indexNumber (server_id e) + 1 < 2 ^ 32) ->
  inOrder s ->
  exists s' : ServerList,
    applyUpdate isValid update s = Returned true s'
    /\ inOrder s'
    /\ version s' = version_number update.
Proof.
  intros Htype Hnext Hl Hs.
  assert (finishes (applyUpdate isValid update s)
            (fun b s' => b = true /\ inOrder s'
                         /\ version s' = version_number update)) as H.
  { unfold applyUpdate. rewrite Htype. unfold bind at 1. simpl.
    unfold bind at 1. unfold get.
    apply N.eqb_eq in Hnext. rewrite Hnext. simpl negb. cbv iota.
    eapply finishes_bind; [apply inOrder_LOG; exact Hs |].
    intros [] s1 Hs1.
    eapply finishes_bind;
      [apply applyEntries_additions; [exact Hl | exact Hs1] |].
    intros b s2 [-> Hs2]. simpl.
    split_and!; [reflexivity | exact Hs2 | reflexivity]. }
  destruct (applyUpdate isValid update s) as [b s' | f]; simpl in H;
    [| contradiction].
  destruct H as (-> & H1 & H2). exists s'. split_and!;
    [reflexivity | exact H1 | exact H2].
Qed.

(** The update of version 6 that adds servers 3.0 and 1.1. *)
Lemma applyUpdate_accepts_additions_witness :
  exists s' : ServerList,
    applyUpdate alwaysValid additions6 list5 = Returned true s'
    /\ inOrder s'
    /\ version s' = version_number additions6.
Proof.
  apply (applyUpdate_accepts_additions alwaysValid additions6 list5).
  - reflexivity.
  - vm_compute. reflexivity.
  - intros e [<- | [<- | []]]; split_and!; vm_compute; reflexivity.
  - exact list5_inOrder.
Defined.

(** X27. [applyUpdate] is not atomic.  When the entries before some
    entry are applied (the update cut off before that entry would return
    true) and that entry is CRASHED or DOWN for a server that [iget] does
    not find at that point, [applyUpdate] returns false at once: the
    slots and the changes enqueued on the trackers are those that the
    earlier entries produced, the later entries are not looked at, the
    version is not advanced and no callback is fired. *)
Theorem applyUpdate_gives_up_at_unknown_server (isValid : ServerId -> bool)
    (update : ProtoBuf_ServerList) (pre post : list ProtoBuf_Entry)
    (e : ProtoBuf_Entry) (s s1 : ServerList) :
  server update = pre ++ e :: post ->
  applyUpdate isValid (withEntries update pre) s = Returned true s1 ->
  isValid (server_id e) = true ->
  entry_status e <> UP ->
  iget (server_id e) s1 = None ->
  exists s' : ServerList,
    applyUpdate isValid update s = Returned false s'
    /\ serverList s' = serverList s1
    /\ map changes (trackers s') = map changes (trackers s1)
    /\ version s' = version s
    /\ map callbacksFired (trackers s')
       = map callbacksFired (trackers s).
Proof.
  intros Hsplit Hpre Hv Hst Hget.
  pose proof (applyUpdate_version isValid (withEntries update pre) s) as Hver.
  rewrite Hpre in Hver. simpl in Hver. destruct Hver as [Hnext _].
  unfold applyUpdate in Hpre |- *. simpl type in Hpre.
  simpl version_number in Hpre. simpl server in Hpre.
  destruct (type update); [discriminate Hpre |].
  unfold bind at 1 in Hpre. unfold bind at 1. simpl in Hpre |- *.
  unfold bind at 1 in Hpre. unfold bind at 1. unfold get in *.
  destruct (negb (version_number update =? (version s + 1) mod 2 ^ 64));
    [discriminate Hpre |].
  apply bind_Returned in Hpre as ([] & s0 & E0 & Hpre).
  unfold bind at 1. rewrite E0.
  apply bind_Returned in Hpre as (b & s2 & E2 & Hpre).
  destruct b; [| discriminate Hpre].
  unfold bind at 1. rewrite Hsplit.
  rewrite (applyEntries_app isValid pre (e :: post) s0 s2 E2).
  injection Hpre as <-.
  assert (iget (server_id e) s2 = None) as Hget2 by exact Hget.
  pose proof (keeps_applyEntries isValid pre s0) as Hk.
  rewrite E2 in Hk. simpl in Hk. destruct Hk as [Hk1 Hk2].
  injection E0 as <-.
  simpl applyEntries. rewrite Hv. unfold bind at 1. simpl.
  destruct (entry_status e); [congruence | |];
    unfold bind at 1; unfold get; rewrite Hget2; simpl;
    (eexists; split; [reflexivity |]; simpl;
     split_and!; [reflexivity | | exact Hk1 | exact Hk2]);
    rewrite !List.map_map; reflexivity.
Qed.

(** The update of version 6 adds server 3.0, then reports the unknown
    server 4.0 crashed; server 5.0 is never added. *)
Lemma applyUpdate_gives_up_at_unknown_server_witness :
  let s1 :=
    afterCall
      (applyUpdate alwaysValid (withEntries brokenUpdate6 [entry 3 0 UP])
         list5) in
  exists s' : ServerList,
    applyUpdate alwaysValid brokenUpdate6 list5 = Returned false s'
    /\ serverList s' = serverList s1
    /\ map changes (trackers s') = map changes (trackers s1)
    /\ version s' = version list5
    /\ map callbacksFired (trackers s')
       = map callbacksFired (trackers list5).
Proof.
  cbv zeta.
  apply (applyUpdate_gives_up_at_unknown_server alwaysValid brokenUpdate6
           [entry 3 0 UP] [entry 5 0 UP] (entry 4 0 CRASHED) list5).
  - reflexivity.
  - vm_compute. reflexivity.
  - vm_compute. reflexivity.
  - discriminate.
  - vm_compute. reflexivity.
Defined.

End MembershipOperations.
